(** * BrowserCash/browser-pool: the session pool as an event-driven state machine

    The repository carries two builds of [SessionPool]:
    - the TypeScript source [src/pool.ts] and its compiled [dist/pool.js]
      (called [Base] below);
    - a later compiled [pool.js] with [replaceSession], [maxIdleMs],
      [createPage] and a guarded CDP connection (called [Enhanced]).
    Both are embedded by the same definitions, which branch on a [Variant]
    exactly where the two texts differ.

    JavaScript runs every callback to its next [await] without interleaving.
    Each async method is therefore cut at its [await]s into atomic steps; a
    suspended call is a [Task] and the settling of the awaited promise is an
    [Event] delivered by the environment.

    Conventions: the numbers the pool counts or compares ([size], [useCount],
    the millisecond clock) are integers; [Date.now()] is read once per atomic
    step; [this.log] only formats its arguments and is left out; the calls
    that leave the pool are recorded in a trace of [Effect]s, step by step
    (within a step, see [teardown] for the [stop()] of a session whose
    close is not awaited). *)

From Stdlib Require Import ZArith Lia String.
From stdpp Require Import base list strings.

Local Open Scope Z_scope.

(** ** Data model (types.ts / types.d.ts) *)

(** A [PooledSession] is a mutable object shared by reference: [ref] is its
    identity, the index of its record in the heap. *)
Abbreviation ref := nat.

(** An [acquire()] call; in the wait queue it stands for the pair of
    [resolve]/[reject] continuations of that call's promise. *)
Abbreviation caller := nat.

Inductive Variant := Base | Enhanced.

Inductive Error :=
| ErrNoCdpUrl                (* "No CDP URL returned for session" *)
| ErrPoolExhausted           (* "Pool exhausted and wait queue disabled" *)
| ErrShuttingDown            (* "Pool shutting down" *)
| ErrCollaborator (msg : string).  (* raised by the SDK or the browser library *)

Inductive Completion := Normal | Throws (e : Error).

Record Context := mkContext {
  ctx_id : nat;
  newPage : option (Error + nat)       (* None: context.newPage is not a function *)
}.

Record BrowserInstance := mkBrowser {
  isConnected : bool;                   (* what browser.isConnected() reports *)
  on : bool;                            (* typeof browser.on === "function" *)
  listener : bool;                      (* the pool registered a "disconnected" listener *)
  contexts : option (list Context);     (* None: browser.contexts is not a function *)
  newContext : option (Error + Context) (* None: browser.newContext is not a function *)
}.

Record PooledSession := mkSession {
  sessionId : string;
  cdpUrl : string;
  browser : BrowserInstance;
  createdAt : Z;
  useCount : Z;
  lastUsedAt : option Z;                (* absent in Base objects *)
  context : option Context;
  page : option nat
}.

Record PoolConfig := mkConfig {
  size : Z;
  maxUses : Z;
  maxAgeMs : Z;
  maxIdleMs : Z;
  enableHealthCheck : bool;
  enableWaitQueue : bool;
  enableDisconnectHandling : bool;
  createPage : bool
}.

(** The constructor's defaults ([config.x ?? default]). *)
Definition defaultConfig (n : Z) : PoolConfig :=
  {| size := n; maxUses := 50; maxAgeMs := 5 * 60 * 1000;
     maxIdleMs := 2 * 60 * 1000; enableHealthCheck := false;
     enableWaitQueue := true; enableDisconnectHandling := true;
     createPage := false |}.

(** How the two collaborators answer during one [createSession()] call. *)
Record Collaborators := mkCollab {
  create_result : Error + (string * option string);
    (* sdk.browser.session.create(): rejects, or yields sessionId and cdpUrl *)
  connect_result : Error + BrowserInstance;
    (* chromium.connectOverCDP(cdpUrl) *)
  stop_result : Completion
    (* sdk.browser.session.stop({ sessionId }) *)
}.

(** Calls that leave the pool, and the settling of [acquire()] promises. *)
Inductive Effect :=
| SdkCreate                              (* sdk.browser.session.create() *)
| SdkStop (sid : string)                 (* sdk.browser.session.stop({sessionId}) *)
| ConnectOverCDP (url : string)
| NewContext
| NewPage
| BrowserClose (r : ref)                 (* session.browser.close() *)
| Returned (c : caller) (r : ref)        (* acquire(): return session *)
| Threw (c : caller) (e : Error)         (* acquire(): throw *)
| Enqueued (c : caller)                  (* waitQueue.push({resolve, reject}) *)
| WaiterResolved (c : caller) (r : ref)  (* waiter.resolve(session) *)
| WaiterRejected (c : caller) (e : Error). (* waiter.reject(err) *)

(** A call suspended at an [await], or a callback waiting in the event loop. *)
Inductive Task :=
| AcquireAwaitCreate (c : caller)        (* acquire: await this.createSession() *)
| AcquireAwaitClose (c : caller)         (* acquire: await this.closeSession(session) *)
| AddAwaitCreate                         (* addSession: await this.createSession() *)
| AddAwaitClose                          (* addSession: await this.closeSession(session); return *)
| ReplaceAwaitCreate (old : ref)         (* replaceSession: await this.createSession() *)
| Immediate                              (* setImmediate(() => this.addSession()...) *)
| Retry (due : Z)                        (* setTimeout(() => this.addSession()..., 5000) *)
| Done.

#[global] Instance Error_eq_dec : EqDecision Error.
Proof. solve_decision. Defined.
#[global] Instance Effect_eq_dec : EqDecision Effect.
Proof. solve_decision. Defined.
#[global] Instance Task_eq_dec : EqDecision Task.
Proof. solve_decision. Defined.

(** The instance fields of [SessionPool], followed by what the JavaScript
    runtime holds around it: the objects, the clock, the suspended calls and
    the record of effects. *)
Record World := mkWorld {
  available : list ref;          (* PooledSession[]; push/pop at the end *)
  inUse : list ref;              (* Set<PooledSession>, in insertion order *)
  creating : Z;
  closed : bool;
  healthCheckTimer : bool;       (* the interval handle is non-null *)
  waitQueue : list caller;       (* push at the end, shift from the front *)
  heap : list PooledSession;
  now : Z;                       (* Date.now() *)
  tasks : list Task;
  warmup : option (list nat);    (* init(): the warmupPromises, by task *)
  calls : nat;                   (* number of acquire() calls so far *)
  trace : list Effect            (* oldest first *)
}.

Definition newPool : World :=
  {| available := []; inUse := []; creating := 0; closed := false;
     healthCheckTimer := false; waitQueue := []; heap := []; now := 0;
     tasks := []; warmup := None; calls := 0%nat; trace := [] |}.

(** Field updates. *)
Definition with_available (x : list ref) (w : World) : World :=
  mkWorld x (inUse w) (creating w) (closed w) (healthCheckTimer w) (waitQueue w)
          (heap w) (now w) (tasks w) (warmup w) (calls w) (trace w).
Definition with_inUse (x : list ref) (w : World) : World :=
  mkWorld (available w) x (creating w) (closed w) (healthCheckTimer w) (waitQueue w)
          (heap w) (now w) (tasks w) (warmup w) (calls w) (trace w).
Definition with_creating (x : Z) (w : World) : World :=
  mkWorld (available w) (inUse w) x (closed w) (healthCheckTimer w) (waitQueue w)
          (heap w) (now w) (tasks w) (warmup w) (calls w) (trace w).
Definition with_closed (x : bool) (w : World) : World :=
  mkWorld (available w) (inUse w) (creating w) x (healthCheckTimer w) (waitQueue w)
          (heap w) (now w) (tasks w) (warmup w) (calls w) (trace w).
Definition with_healthCheckTimer (x : bool) (w : World) : World :=
  mkWorld (available w) (inUse w) (creating w) (closed w) x (waitQueue w)
          (heap w) (now w) (tasks w) (warmup w) (calls w) (trace w).
Definition with_waitQueue (x : list caller) (w : World) : World :=
  mkWorld (available w) (inUse w) (creating w) (closed w) (healthCheckTimer w) x
          (heap w) (now w) (tasks w) (warmup w) (calls w) (trace w).
Definition with_heap (x : list PooledSession) (w : World) : World :=
  mkWorld (available w) (inUse w) (creating w) (closed w) (healthCheckTimer w) (waitQueue w)
          x (now w) (tasks w) (warmup w) (calls w) (trace w).
Definition with_now (x : Z) (w : World) : World :=
  mkWorld (available w) (inUse w) (creating w) (closed w) (healthCheckTimer w) (waitQueue w)
          (heap w) x (tasks w) (warmup w) (calls w) (trace w).
Definition with_tasks (x : list Task) (w : World) : World :=
  mkWorld (available w) (inUse w) (creating w) (closed w) (healthCheckTimer w) (waitQueue w)
          (heap w) (now w) x (warmup w) (calls w) (trace w).
Definition with_warmup (x : option (list nat)) (w : World) : World :=
  mkWorld (available w) (inUse w) (creating w) (closed w) (healthCheckTimer w) (waitQueue w)
          (heap w) (now w) (tasks w) x (calls w) (trace w).
Definition with_calls (x : nat) (w : World) : World :=
  mkWorld (available w) (inUse w) (creating w) (closed w) (healthCheckTimer w) (waitQueue w)
          (heap w) (now w) (tasks w) (warmup w) x (trace w).
Definition with_trace (x : list Effect) (w : World) : World :=
  mkWorld (available w) (inUse w) (creating w) (closed w) (healthCheckTimer w) (waitQueue w)
          (heap w) (now w) (tasks w) (warmup w) (calls w) x.

Definition emit (es : list Effect) (w : World) : World :=
  with_trace (trace w ++ es) w.

(** ** JavaScript containers *)

(** [Set.prototype.add] and [Set.prototype.delete] on an insertion-ordered set. *)
Definition set_add (r : ref) (s : list ref) : list ref :=
  if decide (r ∈ s) then s else s ++ [r].
Definition set_delete (r : ref) (s : list ref) : list ref :=
  filter (λ x, x ≠ r) s.

(** [const idx = a.indexOf(r); if (idx !== -1) a.splice(idx, 1)]. *)
Fixpoint remove_first (r : ref) (a : list ref) : list ref :=
  match a with
  | [] => []
  | x :: a' => if decide (x = r) then a' else x :: remove_first r a'
  end.

(** [cdpUrl] is falsy when it is missing or the empty string. *)
Definition truthy (u : option string) : option string :=
  match u with
  | Some s => if decide (s = EmptyString) then None else Some s
  | None => None
  end.

Definition with_useCount (n : Z) (s : PooledSession) : PooledSession :=
  mkSession (sessionId s) (cdpUrl s) (browser s) (createdAt s) n
            (lastUsedAt s) (context s) (page s).
Definition with_lastUsedAt (t : option Z) (s : PooledSession) : PooledSession :=
  mkSession (sessionId s) (cdpUrl s) (browser s) (createdAt s) (useCount s)
            t (context s) (page s).
Definition with_browser (b : BrowserInstance) (s : PooledSession) : PooledSession :=
  mkSession (sessionId s) (cdpUrl s) b (createdAt s) (useCount s)
            (lastUsedAt s) (context s) (page s).
Definition with_isConnected (c : bool) (b : BrowserInstance) : BrowserInstance :=
  mkBrowser c (on b) (listener b) (contexts b) (newContext b).
Definition with_listener (l : bool) (b : BrowserInstance) : BrowserInstance :=
  mkBrowser (isConnected b) (on b) l (contexts b) (newContext b).

(** A [try { ... } catch (err) { this.log(...) }] block, and sequencing. *)
Definition catch_and_log (c : Completion) : Completion :=
  match c with Normal => Normal | Throws _ => Normal end.
Definition and_then (c1 c2 : Completion) : Completion :=
  match c1 with Normal => c2 | Throws e => Throws e end.


(** [closeSession(session)]: close the connection, then stop the provisioned
    record; each call sits in its own [try]/[catch]. [close_res] and
    [stop_res] are what the two calls do. *)
Definition closeSession (r : ref) (session : option PooledSession)
    (close_res stop_res : Completion) : list Effect * Completion :=
  match session with
  | None => ([], Normal)
  | Some s =>
      ([BrowserClose r; SdkStop (sessionId s)],
       and_then (catch_and_log close_res) (catch_and_log stop_res))
  end.

(** [PoolStats], the result of [stats()]. *)
Module Stats.
Record t := mk {
  available : Z;
  inUse : Z;
  creating : Z;
  waiting : Z;
  total : Z;
  maxSize : Z
}.
End Stats.
Abbreviation PoolStats := Stats.t.

Section Pool.

Variable v : Variant.
Variable cfg : PoolConfig.

(** [get totalCount()]. *)
Definition totalCount (w : World) : Z :=
  Z.of_nat (length (available w)) + Z.of_nat (length (inUse w)) + creating w.

(** [createSession()], from the point where [sdk.browser.session.create()]
    settles; [t] is [Date.now()] when the record is built. The call to
    [create()] itself is made when [createSession] is entered (see
    [createSession_call]). *)
Definition createSession (k : Collaborators) (t : Z)
    : list Effect * (Error + PooledSession) :=
  match create_result k with
  | inl e => ([], inl e)
  | inr (sid, url) =>
    match truthy url with
    | None => ([], inl ErrNoCdpUrl)
    | Some u =>
      match v with
      | Base =>
        match connect_result k with
        | inl e => ([ConnectOverCDP u], inl e)
        | inr b =>
            ([ConnectOverCDP u],
             inr (mkSession sid u b t 0 None None None))
        end
      | Enhanced =>
        match connect_result k with
        | inl e =>
            (* try { await stop } catch { }; throw err *)
            ([ConnectOverCDP u; SdkStop sid], inl e)
        | inr b =>
          let ctx : list Effect * (Error + option Context) :=
            match contexts b with
            | Some (c :: _) => ([], inr (Some c))
            | Some [] =>
                match newContext b with
                | Some (inr c) => ([NewContext], inr (Some c))
                | Some (inl e) => ([NewContext], inl e)
                | None => ([], inr None)
                end
            | None => ([], inr None)
            end in
          match ctx with
          | (es, inl e) => (ConnectOverCDP u :: es, inl e)
          | (es, inr c) =>
            let pg : list Effect * (Error + option nat) :=
              match createPage cfg, c with
              | true, Some c' =>
                  match newPage c' with
                  | Some (inr p) => ([NewPage], inr (Some p))
                  | Some (inl e) => ([NewPage], inl e)
                  | None => ([], inr None)
                  end
              | _, _ => ([], inr None)
              end in
            match pg with
            | (es', inl e) => (ConnectOverCDP u :: es ++ es', inl e)
            | (es', inr p) =>
                (ConnectOverCDP u :: es ++ es',
                 inr (mkSession sid u b t 0 (Some t) c p))
            end
          end
        end
      end
    end
  end.

(** [isUsable(session)] at time [t]. A missing [lastUsedAt] makes the idle
    comparison [NaN > maxIdleMs], which is false. *)
Definition isUsable (t : Z) (session : option PooledSession) : bool :=
  match session with
  | None => false
  | Some s =>
      if negb (isConnected (browser s)) then false
      else if useCount s >=? maxUses cfg then false
      else if t - createdAt s >? maxAgeMs cfg then false
      else match v with
           | Base => true
           | Enhanced =>
               match lastUsedAt s with
               | Some l => if t - l >? maxIdleMs cfg then false else true
               | None => true
               end
           end
  end.

Definition usable (w : World) (r : ref) : bool :=
  isUsable (now w) (heap w !! r).

(** The two calls [closeSession] makes for the object [r]: [close()] when it
    is entered and [stop()] once [close()] has settled. Their outcome is
    caught inside [closeSession] and the pool never reads it. The trace
    lists the pair together. Where the caller does not await
    [closeSession] (in [acquire], [release], [performHealthCheck], the
    disconnect listener), what the caller does next comes before that
    [stop()] in an execution: the place of [SdkStop] among later entries
    says nothing, and statements read such a trace through [closes],
    [stops] and the other projections. *)
Definition teardown (h : list PooledSession) (r : ref) : list Effect :=
  fst (closeSession r (h !! r) Normal Normal).

Definition spawn (t : Task) (w : World) : World :=
  with_tasks (tasks w ++ [t]) w.
Definition become (i : nat) (t : Task) (w : World) : World :=
  with_tasks (<[i := t]> (tasks w)) w.

(** Entering [createSession()]: the provisioning call is made at once and the
    caller suspends as task [t]. *)
Definition createSession_call (t : Task) (w : World) : World :=
  emit [SdkCreate] (spawn t w).

(** [session.useCount++]. *)
Definition incrementUseCount (r : ref) (w : World) : World :=
  with_heap (alter (λ s, with_useCount (useCount s + 1) s) r (heap w)) w.

(** [browser.on("disconnected", ...)] when handling is enabled and [on] exists. *)
Definition attachHandler (s : PooledSession) : PooledSession :=
  if enableDisconnectHandling cfg && on (browser s)
  then with_browser (with_listener true (browser s)) s
  else s.

(** "If someone is waiting, give them the session", else push it. *)
Definition giveToWaiterOrPush (r : ref) (w : World) : World :=
  match enableWaitQueue cfg, waitQueue w with
  | true, c :: q =>
      emit [WaiterResolved c r]
        (incrementUseCount r
          (with_inUse (set_add r (inUse w)) (with_waitQueue q w)))
  | _, _ => with_available (available w ++ [r]) w
  end.

(** [addSession()] up to its [await]. *)
Definition addSession (w : World) : World :=
  if closed w then w
  else
    let w1 := with_creating (creating w + 1) w in
    if totalCount w1 >? size cfg
    then with_creating (creating w1 - 1) w1
    else createSession_call AddAwaitCreate w1.

(** [addSession()] after [await this.createSession()] settled for task [i]. *)
Definition addSession_created (i : nat) (k : Collaborators) (w : World) : World :=
  let '(es, res) := createSession k (now w) in
  let w := emit es w in
  match res with
  | inr s =>
      let r := length (heap w) in
      let w := with_heap (heap w ++ [attachHandler s]) w in
      if closed w then
        become i AddAwaitClose (emit (teardown (heap w) r) w)
      else if totalCount w >? size cfg then
        become i AddAwaitClose (emit (teardown (heap w) r) w)
      else
        let w := giveToWaiterOrPush r w in
        let w := if (totalCount w <? size cfg) && negb (closed w)
                 then spawn Immediate w else w in
        (* finally *)
        become i Done (with_creating (creating w - 1) w)
  | inl e =>
      let w := match enableWaitQueue cfg, waitQueue w with
               | true, c :: q => emit [WaiterRejected c e] (with_waitQueue q w)
               | _, _ => w
               end in
      let w := if negb (closed w) && (totalCount w <? size cfg)
               then spawn (Retry (now w + 5000)) w else w in
      (* finally *)
      become i Done (with_creating (creating w - 1) w)
  end.

(** [addSession()] after [await this.closeSession(session); return]: the
    [finally] block. *)
Definition addSession_closed (i : nat) (w : World) : World :=
  become i Done (with_creating (creating w - 1) w).

(** [replenish()]. *)
Definition replenish (w : World) : World :=
  let deficit := size cfg - totalCount w in
  if deficit <=? 0 then w else addSession w.

(** The [while (this.available.length > 0)] loop of [acquire()], over the
    array read from its end: the sessions discarded on the way, and the
    accepted session with what is left below it. *)
Fixpoint popUsable (t : Z) (h : list PooledSession) (stack : list ref)
    : list ref * option (ref * list ref) :=
  match stack with
  | [] => ([], None)
  | r :: rest =>
      if isUsable t (h !! r) then ([], Some (r, rest))
      else let '(ds, hit) := popUsable t h rest in (r :: ds, hit)
  end.

(** The tail of [acquire()]: park the caller or throw. *)
Definition waitOrThrow (c : caller) (w : World) : World :=
  if enableWaitQueue cfg
  then emit [Enqueued c] (with_waitQueue (waitQueue w ++ [c]) w)
  else emit [Threw c ErrPoolExhausted] w.

(** [acquire()] up to its first [await] (or to its end). *)
Definition acquire (w : World) : World :=
  let c := calls w in
  let w := with_calls (S c) w in
  let '(ds, hit) := popUsable (now w) (heap w) (rev (available w)) in
  let w := emit (flat_map (teardown (heap w)) ds) w in
  match hit with
  | Some (r, rest) =>
      emit [Returned c r]
        (incrementUseCount r
          (with_inUse (set_add r (inUse w)) (with_available (rev rest) w)))
  | None =>
      let w := with_available [] w in
      let w := with_creating (creating w + 1) w in
      if totalCount w <=? size cfg
      then createSession_call (AcquireAwaitCreate c) w
      else waitOrThrow c (with_creating (creating w - 1) w)
  end.

(** [acquire()] after [await this.createSession()] settled for task [i]. *)
Definition acquire_created (i : nat) (c : caller) (k : Collaborators) (w : World) : World :=
  let '(es, res) := createSession k (now w) in
  let w := emit es w in
  match res with
  | inr s =>
      let r := length (heap w) in
      let w := with_heap (heap w ++ [s]) w in
      if totalCount w >? size cfg then
        become i (AcquireAwaitClose c)
          (emit (teardown (heap w) r) (with_creating (creating w - 1) w))
      else
        become i Done
          (emit [Returned c r]
            (incrementUseCount r
              (with_inUse (set_add r (inUse w))
                (with_creating (creating w - 1) w))))
  | inl e =>
      become i Done (emit [Threw c e] (with_creating (creating w - 1) w))
  end.

(** [acquire()] after [await this.closeSession(session)] in the over-capacity
    branch: [closeSession] never throws, so control leaves the [try] without
    entering its [catch] and reaches the wait-queue tail. *)
Definition acquire_closed (i : nat) (c : caller) (w : World) : World :=
  become i Done (waitOrThrow c w).

(** [release(session, error)]. *)
Definition release (r : ref) (error : bool) (w : World) : World :=
  let w := with_inUse (set_delete r (inUse w)) w in
  if error || negb (usable w r) then
    replenish (emit (teardown (heap w) r) w)
  else
    let w := match v with
             | Base => w
             | Enhanced =>
                 with_heap (alter (with_lastUsedAt (Some (now w))) r (heap w)) w
             end in
    giveToWaiterOrPush r w.

(** [shutdown()]; the calls of every [closeSession] are issued by the [map]
    before [Promise.all] is awaited. *)
Definition shutdown (w : World) : World :=
  let w := with_closed true w in
  let w := if healthCheckTimer w then with_healthCheckTimer false w else w in
  let w := emit (map (λ c, WaiterRejected c ErrShuttingDown) (waitQueue w))
                (with_waitQueue [] w) in
  let allSessions := available w ++ inUse w in
  let w := with_inUse [] (with_available [] w) in
  emit (flat_map (teardown (heap w)) allSessions) w.


(** [replaceSession(oldSession)] up to its [await] (Enhanced only). *)
Definition replaceSession (old : ref) (w : World) : World :=
  if closed w then w else createSession_call (ReplaceAwaitCreate old) w.

(** [replaceSession] after [await this.createSession()] settled. *)
Definition replaceSession_created (i : nat) (old : ref) (k : Collaborators)
    (w : World) : World :=
  let '(es, res) := createSession k (now w) in
  let w := emit es w in
  match res with
  | inr s =>
      let r := length (heap w) in
      let w := with_heap (heap w ++ [attachHandler s]) w in
      let w := with_available (remove_first old (available w) ++ [r]) w in
      become i Done (emit (teardown (heap w) old) w)
  | inl e =>
      let w := if decide (old ∈ available w)
               then emit (teardown (heap w) old)
                      (with_available (remove_first old (available w)) w)
               else w in
      become i Done w
  end.

(** [performHealthCheck()]. *)
Definition performHealthCheck (w : World) : World :=
  let stale := filter (λ r, usable w r = false) (available w) in
  match v with
  | Base =>
      let w := fold_left
                 (λ w r, if decide (r ∈ available w)
                         then emit (teardown (heap w) r)
                                (with_available (remove_first r (available w)) w)
                         else w)
                 stale w in
      replenish w
  | Enhanced =>
      let w := fold_left (λ w old, replaceSession old w) stale w in
      replenish w
  end.

(** The [setInterval] callback installed by [startHealthCheck]. *)
Definition healthTimer (w : World) : World :=
  if healthCheckTimer w
  then (if closed w then w else performHealthCheck w)
  else w.

(** The browser of [r] loses its connection: [isConnected()] turns false and
    the "disconnected" listener, if one was attached, runs. *)
Definition disconnected (r : ref) (w : World) : World :=
  match heap w !! r with
  | None => w
  | Some s =>
      let w := with_heap
                 (alter (λ s, with_browser (with_isConnected false (browser s)) s)
                        r (heap w)) w in
      if listener (browser s) then
        let w := with_available (remove_first r (available w)) w in
        let w := with_inUse (set_delete r (inUse w)) w in
        replenish (emit (teardown (heap w) r) w)
      else w
  end.

(** [init()] up to [await Promise.race(warmupPromises)]. *)
Definition init (w : World) : World :=
  let lo := length (tasks w) in
  let w := Nat.iter (Z.to_nat (size cfg)) addSession w in
  with_warmup (Some (seq lo (length (tasks w) - lo))) w.

Definition is_done (t : option Task) : bool :=
  match t with Some Done => true | _ => false end.

(** [init()] once [Promise.race(warmupPromises)] and
    [Promise.allSettled(warmupPromises)] have settled. [Promise.race] of an
    empty array never settles, so nothing follows when the loop ran zero
    times. *)
Definition init_settled (w : World) : World :=
  match warmup w with
  | Some ids =>
      if (0 <? size cfg) && forallb (λ i, is_done (tasks w !! i)) ids then
        let w := with_warmup None w in
        if enableHealthCheck cfg
        then (if healthCheckTimer w then w else with_healthCheckTimer true w)
        else w
      else w
  | None => w
  end.

(** A scheduled [() => this.addSession()] callback runs. *)
Definition fire (i : nat) (w : World) : World :=
  match tasks w !! i with
  | Some Immediate => addSession (become i Done w)
  | Some (Retry due) =>
      if due <=? now w then addSession (become i Done w) else w
  | _ => w
  end.

(** What can happen next: a call by a client of the pool, or the event loop
    resuming a suspended call. *)
Inductive Event :=
| Init
| InitSettled
| Acquire
| Release (r : ref) (error : bool)
| Shutdown
| CreateSettled (i : nat) (k : Collaborators)
| CloseSettled (i : nat)
| Fire (i : nat)
| HealthTimer
| Disconnected (r : ref)
| Tick (dt : nat).

Definition step (ev : Event) (w : World) : World :=
  match ev with
  | Init => init w
  | InitSettled => init_settled w
  | Acquire => acquire w
  | Release r error =>
      (* only objects created by this pool are released *)
      match heap w !! r with Some _ => release r error w | None => w end
  | Shutdown => shutdown w
  | CreateSettled i k =>
      match tasks w !! i with
      | Some (AcquireAwaitCreate c) => acquire_created i c k w
      | Some AddAwaitCreate => addSession_created i k w
      | Some (ReplaceAwaitCreate old) => replaceSession_created i old k w
      | _ => w
      end
  | CloseSettled i =>
      match tasks w !! i with
      | Some (AcquireAwaitClose c) => acquire_closed i c w
      | Some AddAwaitClose => addSession_closed i w
      | _ => w
      end
  | Fire i => fire i w
  | HealthTimer => healthTimer w
  | Disconnected r => disconnected r w
  | Tick dt => with_now (now w + Z.of_nat dt) w
  end.

Definition run (evs : list Event) (w : World) : World :=
  fold_left (λ w ev, step ev w) evs w.

(** No call is suspended and no callback is scheduled. *)
Definition quiescent (w : World) : bool :=
  forallb (λ t, bool_decide (t = Done)) (tasks w).

(** [stats()]. *)
Definition stats (w : World) : PoolStats :=
  {| Stats.available := Z.of_nat (length (available w));
     Stats.inUse := Z.of_nat (length (inUse w));
     Stats.creating := creating w;
     Stats.waiting := Z.of_nat (length (waitQueue w));
     Stats.total := totalCount w;
     Stats.maxSize := size cfg |}.

End Pool.

(** ** Vocabulary of the statements *)

(** The borrow protocol of the pool's clients: a session is released only
    while it is in the in-use set. *)
Definition permitted (w : World) (ev : Event) : Prop :=
  match ev with
  | Release r _ => r ∈ inUse w
  | _ => True
  end.

Fixpoint follows_protocol (v : Variant) (cfg : PoolConfig)
    (evs : list Event) (w : World) : Prop :=
  match evs with
  | [] => True
  | ev :: evs' => permitted w ev ∧ follows_protocol v cfg evs' (step v cfg ev w)
  end.

(** The callers parked in the wait queue, in the order of their [push]. *)
Definition enqueues (t : list Effect) : list caller :=
  omap (λ e, match e with Enqueued c => Some c | _ => None end) t.

(** The callers taken out of the wait queue by [shift] and settled through
    their continuations, in that order. *)
Definition handoffs (t : list Effect) : list caller :=
  omap (λ e, match e with
             | WaiterResolved c _ => Some c
             | WaiterRejected c _ => Some c
             | _ => None
             end) t.

(** The sessions whose connection was closed, in order. *)
Definition closes (t : list Effect) : list ref :=
  omap (λ e, match e with BrowserClose r => Some r | _ => None end) t.

(** No [replaceSession] call is suspended, and the health timer runs only
    when the configuration enables it. *)
Definition no_replacement (cfg : PoolConfig) (w : World) : Prop :=
  Forall (λ t, ∀ old, t ≠ ReplaceAwaitCreate old) (tasks w) ∧
  (healthCheckTimer w = true → enableHealthCheck cfg = true).

(** [isUsable] spelled out as the four recycling conditions. *)
Definition within_limits (v : Variant) (cfg : PoolConfig) (t : Z)
    (s : PooledSession) : Prop :=
  isConnected (browser s) = true ∧
  useCount s < maxUses cfg ∧
  t - createdAt s ≤ maxAgeMs cfg ∧
  (v = Enhanced → ∀ l, lastUsedAt s = Some l → t - l ≤ maxIdleMs cfg).

(** ** Concrete collaborators and configurations used in the examples *)

Definition plainBrowser : BrowserInstance :=
  mkBrowser true true false None None.

(** Provisioning and connecting both succeed. *)
Definition provisioned (sid : string) : Collaborators :=
  mkCollab (inr (sid, Some "ws://cdp"%string)) (inr plainBrowser) Normal.

(** Provisioning succeeds, the CDP connection fails. *)
Definition unreachable (sid : string) : Collaborators :=
  mkCollab (inr (sid, Some "ws://cdp"%string))
           (inl (ErrCollaborator "connect ECONNREFUSED")) Normal.

(** size 1, sessions older than one second are stale, health check on. *)
Definition agingConfig : PoolConfig :=
  {| size := 1; maxUses := 50; maxAgeMs := 1000; maxIdleMs := 120000;
     enableHealthCheck := true; enableWaitQueue := true;
     enableDisconnectHandling := true; createPage := false |}.

(** size 1, a session may be used once. *)
Definition singleUseConfig : PoolConfig :=
  {| size := 1; maxUses := 1; maxAgeMs := 300000; maxIdleMs := 120000;
     enableHealthCheck := false; enableWaitQueue := true;
     enableDisconnectHandling := true; createPage := false |}.

(** size 1, no wait queue. *)
Definition noQueueConfig : PoolConfig :=
  {| size := 1; maxUses := 50; maxAgeMs := 300000; maxIdleMs := 120000;
     enableHealthCheck := false; enableWaitQueue := false;
     enableDisconnectHandling := true; createPage := false |}.

(** A stale session is being replaced while a caller discards it and creates
    one on demand. *)
Definition replacementRace : list Event :=
  [Init; CreateSettled 0 (provisioned "a"); InitSettled; Tick 2000;
   HealthTimer; Acquire; CreateSettled 2 (provisioned "b");
   CreateSettled 1 (provisioned "c")].

(** A caller creates on demand while the replacement of a stale session
    lands: the capacity re-check of the on-demand creation fails. *)
Definition overCapacityRace : list Event :=
  [Init; CreateSettled 0 (provisioned "a"); InitSettled; Tick 2000;
   HealthTimer; Acquire; CreateSettled 1 (provisioned "c")].

(** A pool of one is warmed up and its session grows stale. *)
Definition agedPool : list Event :=
  [Init; CreateSettled 0 (provisioned "a"); InitSettled; Tick 2000].

(** ... and the health timer fires. *)
Definition staleSweep : list Event := agedPool ++ [HealthTimer].

(** [acquire()] is called after [shutdown()], twice. *)
Definition acquireAfterShutdown : list Event :=
  [Shutdown; Acquire; CreateSettled 0 (provisioned "a"); Acquire].

(** A warmed-up pool of one serves its session. *)
Definition warmAcquire : list Event :=
  [Init; CreateSettled 0 (provisioned "a"); InitSettled; Acquire].

(** A pool of two is warmed up and one session is borrowed for 10 ms. *)
Definition borrowed : list Event :=
  [Init; CreateSettled 0 (provisioned "a"); CreateSettled 1 (provisioned "b");
   InitSettled; Acquire; Tick 10].

(** A pool of two is warmed up, one session is borrowed and returned. *)
Definition borrowAndReturn : list Event := borrowed ++ [Release 1 false].

(** The only session of a pool is held. *)
Definition saturated : list Event :=
  [Acquire; CreateSettled 0 (provisioned "a")].

(** The same session is released twice. *)
Definition doubleRelease : list Event :=
  [Acquire; CreateSettled 0 (provisioned "a"); Release 0 false; Release 0 false].

(** Two callers block on a pool of one; the session is released twice, each
    time by its current holder. *)
Definition twoWaiters : list Event :=
  [Acquire; CreateSettled 0 (provisioned "a"); Acquire; Acquire;
   Release 0 false; Release 0 false].

(** The sessions the pool holds. *)
Definition owned (w : World) : list ref := available w ++ inUse w.

(** From [w] to [w'] the heap only grows, and a session held in [w'] was
    held in [w], was created in between, or is one of [released]. *)
Definition extends (released : list ref) (w w' : World) : Prop :=
  (length (heap w) ≤ length (heap w'))%nat ∧
  ∀ x, x ∈ owned w' →
       x ∈ owned w ∨
       (length (heap w) ≤ x < length (heap w'))%nat ∨
       x ∈ released.

(** Every held session is an object of the heap, held once. *)
Definition allocated (w : World) : Prop :=
  Forall (λ r, (r < length (heap w))%nat) (owned w).
Definition ownership (w : World) : Prop :=
  NoDup (owned w) ∧ allocated w.

(** The suspended call [i] is left as it is from [w] to [w']. *)
Definition keeps (i : nat) (w w' : World) : Prop :=
  ∀ t, tasks w !! i = Some t → tasks w' !! i = Some t.

(** The session ids whose provisioned record was stopped, in order. *)
Definition stops (t : list Effect) : list string :=
  omap (λ e, match e with SdkStop sid => Some sid | _ => None end) t.

(** The wait queue holds exactly the callers parked and not yet handed off. *)
Definition fifo (w : World) : Prop :=
  handoffs (trace w) ++ waitQueue w = enqueues (trace w).

(** The two flags of the pool. *)
Definition flags (w : World) : bool * bool := (closed w, healthCheckTimer w).

(** The suspended calls that hold a slot of [creating]: an [acquire()] or
    [addSession()] waiting for its creation, and an [addSession()] waiting
    for the close of a session it did not admit (its [finally] has not run). *)
Definition in_flight (t : Task) : bool :=
  match t with
  | AcquireAwaitCreate _ | AddAwaitCreate | AddAwaitClose => true
  | _ => false
  end.
Definition slot (t : Task) : Z := if in_flight t then 1 else 0.
Definition pending (l : list Task) : Z :=
  Z.of_nat (length (filter (λ t, in_flight t = true) l)).

(** [creating] counts exactly those calls. *)
Definition counted (w : World) : Prop := creating w = pending (tasks w).

(** How many times the session [r] was handed to a client, by a returning
    [acquire()] or through a waiter's [resolve]. *)
Definition handed (r : ref) (e : Effect) : bool :=
  match e with
  | Returned _ r' | WaiterResolved _ r' => bool_decide (r' = r)
  | _ => false
  end.
Definition handouts (r : ref) (t : list Effect) : Z :=
  Z.of_nat (length (filter (λ e, handed r e = true) t)).

(** [session.useCount] of the object [r], 0 before it exists. *)
Definition useCountAt (h : list PooledSession) (r : ref) : Z :=
  match h !! r with Some s => useCount s | None => 0 end.
Definition uses (w : World) (r : ref) : Z := useCountAt (heap w) r.

(** Every hand-out of a session is counted in its [useCount], which stays
    within [maxUses]. *)
Definition tallied (cfg : PoolConfig) (w : World) : Prop :=
  ∀ r, handouts r (trace w) = uses w r ∧ uses w r ≤ maxUses cfg.

(** The session [r] exists, is unusable, and has been counted [n] times. *)
Definition spent (v : Variant) (cfg : PoolConfig) (r : ref) (n : Z)
    (w : World) : Prop :=
  (r < length (heap w))%nat ∧ usable v cfg w r = false ∧ uses w r = n.


(** The sessions handed to clients and who got each, in order: by a
    returning [acquire()] or through a waiter's [resolve]. *)
Definition deliveries (t : list Effect) : list (caller * ref) :=
  omap (λ e, match e with
             | Returned c r | WaiterResolved c r => Some (c, r)
             | _ => None
             end) t.

(** Those handed over through the wait queue. *)
Definition resolutions (t : list Effect) : list (caller * ref) :=
  omap (λ e, match e with WaiterResolved c r => Some (c, r) | _ => None end) t.

(** The session [r], handed out on the way from [w] to [w']: either it
    existed, passed [isUsable] on its record in [w] and was counted once
    more; or it was created on the way and is handed out as created. *)
Definition examined (v : Variant) (cfg : PoolConfig) (w w' : World) (r : ref)
    : Prop :=
  match heap w !! r with
  | Some s => within_limits v cfg (now w) s ∧ uses w' r = useCount s + 1
  | None =>
      r = length (heap w) ∧
      ∃ s, heap w' !! r = Some s ∧ useCount s = 1 ∧ createdAt s = now w ∧
           (v = Enhanced → lastUsedAt s = Some (now w))
  end.

(** From [w] to [w'] nobody is handed a session; [available] gains only new
    sessions and the in-use set gains none. *)
Definition quiet (w w' : World) : Prop :=
  (length (heap w) ≤ length (heap w'))%nat ∧
  deliveries (trace w') = deliveries (trace w) ∧
  resolutions (trace w') = resolutions (trace w) ∧
  (∀ x, x ∈ available w' → x ∈ available w ∨ (length (heap w) ≤ x)%nat) ∧
  (∀ x, x ∈ inUse w' → x ∈ inUse w).

(** From [w] to [w'] the caller [c] is handed the session [r], taken from
    [available], just created, or one of the released [rel]; if through
    the wait queue, [c] was its head. *)
Definition delivered (v : Variant) (cfg : PoolConfig) (rel : list ref)
    (w w' : World) (c : caller) (r : ref) : Prop :=
  deliveries (trace w') = deliveries (trace w) ++ [(c, r)] ∧
  r ∈ inUse w' ∧
  (∀ x, x ∈ inUse w' → (x ∈ inUse w ∧ x ∉ rel) ∨ x = r) ∧
  (r ∈ available w ∨ (length (heap w) ≤ r)%nat ∨ r ∈ rel) ∧
  examined v cfg w w' r ∧
  (resolutions (trace w') = resolutions (trace w) ∨
   (resolutions (trace w') = resolutions (trace w) ++ [(c, r)] ∧
    ∃ q, waitQueue w = c :: q ∧ waitQueue w' = q)).

(** What a step does with the sessions: it hands out none or one. [rel] are
    the sessions released by the step's event. *)
Definition hands (v : Variant) (cfg : PoolConfig) (rel : list ref)
    (w w' : World) : Prop :=
  (length (heap w) ≤ length (heap w'))%nat ∧
  (∀ x, x ∈ available w' →
        x ∈ available w ∨ (length (heap w) ≤ x)%nat ∨ x ∈ rel) ∧
  ((deliveries (trace w') = deliveries (trace w) ∧
    resolutions (trace w') = resolutions (trace w) ∧
    ∀ x, x ∈ inUse w' → x ∈ inUse w ∧ x ∉ rel)
   ∨ ∃ c r, delivered v cfg rel w w' c r).

(** The sessions handed out on the way from [w] to [w']. *)
Definition received (w w' : World) : list ref :=
  (drop (length (deliveries (trace w))) (deliveries (trace w'))).*2.

(** The borrow protocol as the clients see it: [release(s)] is called only
    by a client that was handed [s] and has not released it since. [held]
    are the sessions in the clients' hands. A session stays in its holder's
    hands when [shutdown()] or the disconnect listener takes it out of the
    in-use set. *)
Fixpoint client_protocol (v : Variant) (cfg : PoolConfig) (held : list ref)
    (evs : list Event) (w : World) : Prop :=
  match evs with
  | [] => True
  | ev :: evs' =>
      let w' := step v cfg ev w in
      match ev with
      | Release r _ =>
          r ∈ held ∧
          client_protocol v cfg (set_delete r held ++ received w w') evs' w'
      | _ => client_protocol v cfg (held ++ received w w') evs' w'
      end
  end.

(** What the clients hold after the events. *)
Fixpoint holding (v : Variant) (cfg : PoolConfig) (held : list ref)
    (evs : list Event) (w : World) : list ref :=
  match evs with
  | [] => held
  | ev :: evs' =>
      let w' := step v cfg ev w in
      match ev with
      | Release r _ => holding v cfg (set_delete r held ++ received w w') evs' w'
      | _ => holding v cfg (held ++ received w w') evs' w'
      end
  end.

(** The pool's sets against the clients' hands: no session is held twice by
    the pool; what is in use is in a client's hands; what a client holds is
    an object of the heap that is not in [available]. *)
Definition custody (held : list ref) (w : World) : Prop :=
  ownership w ∧ NoDup held ∧
  (∀ r, r ∈ held → (r < length (heap w))%nat ∧ r ∉ available w) ∧
  (∀ r, r ∈ inUse w → r ∈ held).

(** Provisioning succeeds and the new connection reports disconnected. *)
Definition stillborn (sid : string) : Collaborators :=
  mkCollab (inr (sid, Some "ws://cdp"%string))
           (inr (mkBrowser false true false None None)) Normal.

(** A caller creates a session on demand and gets a stillborn one. *)
Definition stillbornOnDemand : list Event :=
  [Acquire; CreateSettled 0 (stillborn "a")].

(** A caller blocks on a pool of two that is warming up; the first warm-up
    creation yields a stillborn session. *)
Definition stillbornForWaiter : list Event :=
  [Init; Acquire; CreateSettled 0 (stillborn "a")].


(** The holder of the only session returns it after [shutdown()], and
    [shutdown()] is called again. *)
Definition releasedAfterShutdown : list Event :=
  [Acquire; CreateSettled 0 (provisioned "a"); Shutdown; Release 0 false;
   Shutdown].



(** size 1, a session idle for more than 100 ms is stale. *)
Definition idleConfig : PoolConfig :=
  {| size := 1; maxUses := 50; maxAgeMs := 300000; maxIdleMs := 100;
     enableHealthCheck := false; enableWaitQueue := true;
     enableDisconnectHandling := true; createPage := false |}.

(** A pool of one is warmed up. *)
Definition warmPool : list Event :=
  [Init; CreateSettled 0 (provisioned "a"); InitSettled].

(** A session sits in [available] for 200 ms and is acquired. *)
Definition idleAcquire : list Event := warmPool ++ [Tick 200; Acquire].

(** ** Basic facts *)

Ltac unfold_world :=
  cbn [available inUse creating closed healthCheckTimer waitQueue heap now
       tasks warmup calls trace
       with_available with_inUse with_creating with_closed
       with_healthCheckTimer with_waitQueue with_heap with_now with_tasks
       with_warmup with_calls with_trace
       emit spawn become createSession_call incrementUseCount].


Lemma closeSession_calls_fixed r s c1 c2 :
  fst (closeSession r s c1 c2) = fst (closeSession r s Normal Normal).
Proof. destruct s; reflexivity. Qed.



Lemma isUsable_within_limits v cfg t s :
  isUsable v cfg t (Some s) = true ↔ within_limits v cfg t s.
Proof.
  unfold isUsable, within_limits.
  destruct (isConnected (browser s)); simpl; [|intuition congruence].
  destruct (Z.geb_spec (useCount s) (maxUses cfg)); [intuition (congruence || lia)|].
  destruct (Z.gtb_spec (t - createdAt s) (maxAgeMs cfg)); [intuition (congruence || lia)|].
  destruct v; [intuition (congruence || lia)|].
  destruct (lastUsedAt s) as [l|]; [|intuition (congruence || lia)].
  destruct (Z.gtb_spec (t - l) (maxIdleMs cfg)).
  - split; [congruence|]. intros (_ & _ & _ & Hidle). specialize (Hidle eq_refl l eq_refl). lia.
  - split; [|reflexivity]. intros _. repeat split; try lia. intros _ l' [= <-]. lia.
Qed.

(** *** Session creation *)

Lemma createSession_enhanced_stops_on_connect_failure cfg k t sid u e :
  create_result k = inr (sid, Some u) → u ≠ EmptyString →
  connect_result k = inl e →
  createSession Enhanced cfg k t = ([ConnectOverCDP u; SdkStop sid], inl e).
Proof.
  intros Hc Hu Hn. unfold createSession. rewrite Hc. simpl.
  destruct (decide (u = EmptyString)); [contradiction|]. rewrite Hn. reflexivity.
Qed.

Lemma createSession_ignores_stop_outcome v cfg c n s1 s2 t :
  createSession v cfg (mkCollab c n s1) t = createSession v cfg (mkCollab c n s2) t.
Proof. reflexivity. Qed.

Lemma createSession_base_never_stops cfg k t sid :
  SdkStop sid ∉ fst (createSession Base cfg k t).
Proof.
  unfold createSession.
  destruct (create_result k) as [e|[s u]]; simpl; [apply not_elem_of_nil|].
  destruct (truthy u); simpl; [|apply not_elem_of_nil].
  destruct (connect_result k); simpl; intros H;
    apply list_elem_of_singleton in H; discriminate.
Qed.

(** C5, the code at the failing input: when provisioning succeeds and
    [connectOverCDP] fails, the Base [createSession] propagates the error
    without any [stop] call, also when reached through [acquire()]; the
    Enhanced one stops the provisioned session first. *)
Theorem createSession_base_leaks_provisioned_session :
  createSession Base (defaultConfig 1) (unreachable "s-1") 0
    = ([ConnectOverCDP "ws://cdp"], inl (ErrCollaborator "connect ECONNREFUSED")) ∧
  trace (run Base (defaultConfig 1) [Acquire; CreateSettled 0 (unreachable "s-1")] newPool)
    = [SdkCreate; ConnectOverCDP "ws://cdp";
       Threw 0%nat (ErrCollaborator "connect ECONNREFUSED")] ∧
  trace (run Enhanced (defaultConfig 1) [Acquire; CreateSettled 0 (unreachable "s-1")] newPool)
    = [SdkCreate; ConnectOverCDP "ws://cdp"; SdkStop "s-1";
       Threw 0%nat (ErrCollaborator "connect ECONNREFUSED")].
Proof. repeat split; vm_compute; reflexivity. Qed.

(** *** The pop loop *)

Lemma popUsable_spec v cfg t h stack ds hit :
  popUsable v cfg t h stack = (ds, hit) →
  Forall (λ d, isUsable v cfg t (h !! d) = false) ds ∧
  match hit with
  | Some (r, rest) => stack = ds ++ r :: rest ∧ isUsable v cfg t (h !! r) = true
  | None => stack = ds
  end.
Proof.
  revert ds hit. induction stack as [|x stack IH]; simpl; intros ds hit.
  - intros [= <- <-]. split; [constructor|reflexivity].
  - destruct (isUsable v cfg t (h !! x)) eqn:Hx.
    + intros [= <- <-]. split; [constructor|]. split; [reflexivity|assumption].
    + destruct (popUsable v cfg t h stack) as [ds' hit'] eqn:E.
      intros [= <- <-]. destruct (IH _ _ eq_refl) as [Hds Hhit].
      split; [constructor; assumption|].
      destruct hit' as [[r rest]|].
      * destruct Hhit as [-> Hr]. split; [reflexivity|assumption].
      * rewrite Hhit. reflexivity.
Qed.

Lemma rev_eq_app_cons {A} (l : list A) ds r rest :
  rev l = ds ++ r :: rest → l = rev rest ++ r :: rev ds.
Proof.
  intros H. rewrite <- (rev_involutive l), H, rev_app_distr. simpl.
  rewrite <- app_assoc. reflexivity.
Qed.

(** *** Release *)

Lemma not_elem_of_set_delete r s : r ∉ set_delete r s.
Proof. unfold set_delete. rewrite list_elem_of_filter. tauto. Qed.

Lemma set_add_fresh r s : r ∉ s → set_add r s = s ++ [r].
Proof. intros H. unfold set_add. rewrite decide_False by assumption. reflexivity. Qed.

(** C6 (amended). [release(session)] without the error flag, of a session
    that is still usable: the session is deleted from the in-use set; in the
    Enhanced variant its [lastUsedAt] becomes [now] (Base objects carry no
    such field); then, if the wait queue is enabled and not empty, its head
    is shifted, the session is added to the in-use set, its [useCount] is
    incremented and the waiter is resolved with it; otherwise the session is
    pushed at the end of [available]. *)
Theorem release_usable_session v cfg w r s :
  heap w !! r = Some s →
  usable v cfg w r = true →
  let w' := release v cfg r false w in
  let s' := match v with
            | Base => s
            | Enhanced => with_lastUsedAt (Some (now w)) s
            end in
  (r ∉ set_delete r (inUse w)) ∧
  (match enableWaitQueue cfg, waitQueue w with
  | true, c :: q =>
      waitQueue w' = q ∧
      inUse w' = set_delete r (inUse w) ++ [r] ∧
      available w' = available w ∧
      heap w' !! r = Some (with_useCount (useCount s + 1) s') ∧
      trace w' = trace w ++ [WaiterResolved c r]
  | _, _ =>
      waitQueue w' = waitQueue w ∧
      inUse w' = set_delete r (inUse w) ∧
      available w' = available w ++ [r] ∧
      heap w' !! r = Some s' ∧
      trace w' = trace w
  end).
Proof.
  intros Hs Hu. cbn zeta. split; [apply not_elem_of_set_delete|].
  unfold release. cbn zeta.
  change (usable v cfg (with_inUse (set_delete r (inUse w)) w) r) with (usable v cfg w r).
  rewrite Hu. cbn [negb orb].
  unfold giveToWaiterOrPush.
  destruct (enableWaitQueue cfg) eqn:Hq; destruct v; unfold_world;
    destruct (waitQueue w) as [|c q] eqn:Hw; unfold_world;
    rewrite ?set_add_fresh by apply not_elem_of_set_delete;
    rewrite ?list_lookup_alter_eq, ?Hs, ?Hw; split_and!; reflexivity.
Qed.

(** *** Exhaustion without a wait queue *)

Lemma popUsable_none v cfg t h stack :
  Forall (λ r, isUsable v cfg t (h !! r) = false) stack →
  popUsable v cfg t h stack = (stack, None).
Proof.
  induction 1 as [|r stack Hr _ IH]; simpl; [reflexivity|].
  rewrite Hr, IH. reflexivity.
Qed.

(** C8. With the wait queue disabled, an [acquire()] that finds no usable
    available session and whose tentative creation would bring [totalCount]
    over [size] throws the pool-exhausted error in the same atomic step: it
    suspends no call, starts no creation, parks nobody, hands out nothing
    and leaves [creating] and the wait queue as they were. The unusable
    sessions it found in [available] are closed. *)
Theorem acquire_fails_when_exhausted v cfg w :
  enableWaitQueue cfg = false →
  Forall (λ r, usable v cfg w r = false) (available w) →
  size cfg < Z.of_nat (length (inUse w)) + creating w + 1 →
  let w' := acquire v cfg w in
  last (trace w') = Some (Threw (calls w) ErrPoolExhausted) ∧
  tasks w' = tasks w ∧ waitQueue w' = waitQueue w ∧
  creating w' = creating w ∧ available w' = [] ∧ inUse w' = inUse w ∧
  closes (trace w')
  = closes (trace w) ++ closes (flat_map (teardown (heap w)) (rev (available w))) ∧
  enqueues (trace w') = enqueues (trace w) ∧
  deliveries (trace w') = deliveries (trace w).
Proof.
  intros Hq Hall Hcap. unfold acquire. cbn zeta.
  change (now (with_calls (S (calls w)) w)) with (now w).
  change (heap (with_calls (S (calls w)) w)) with (heap w).
  change (available (with_calls (S (calls w)) w)) with (available w).
  rewrite (popUsable_none v cfg (now w) (heap w) (rev (available w)))
    by (apply Forall_rev; exact Hall).
  unfold waitOrThrow. rewrite Hq.
  destruct (Z.leb_spec (totalCount (with_creating
     (creating (with_available [] (emit (flat_map (teardown (heap w)) (rev (available w)))
        (with_calls (S (calls w)) w))) + 1)
     (with_available [] (emit (flat_map (teardown (heap w)) (rev (available w)))
        (with_calls (S (calls w)) w))))) (size cfg)) as [Hle|Hgt].
  - unfold totalCount in Hle. revert Hle. unfold_world. simpl. lia.
  - unfold_world. rewrite last_snoc.
    assert (Hsilent : ∀ l, enqueues (flat_map (teardown (heap w)) l) = [] ∧
                           deliveries (flat_map (teardown (heap w)) l) = []).
    { intros l. induction l as [|x l [IH1 IH2]]; [split; reflexivity|].
      cbn [flat_map]. unfold enqueues, deliveries in *.
      rewrite !omap_app, IH1, IH2. unfold teardown.
      destruct (heap w !! x); split; reflexivity. }
    unfold closes, enqueues, deliveries in *. rewrite !omap_app.
    rewrite (proj1 (Hsilent _)), (proj2 (Hsilent _)). simpl. rewrite !app_nil_r.
    split_and!; try reflexivity. lia.
Qed.

(** *** Runs *)

Lemma run_app v cfg evs1 evs2 w :
  run v cfg (evs1 ++ evs2) w = run v cfg evs2 (run v cfg evs1 w).
Proof. unfold run. apply fold_left_app. Qed.

Lemma run_invariant v cfg (P : World → Prop) :
  (∀ ev w, P w → P (step v cfg ev w)) →
  ∀ evs w, P w → P (run v cfg evs w).
Proof.
  intros Hstep evs. induction evs as [|ev evs IH]; simpl; intros w Hw; auto.
Qed.

Lemma run_invariant_protocol v cfg (P : World → Prop) :
  (∀ ev w, P w → permitted w ev → P (step v cfg ev w)) →
  ∀ evs w, P w → follows_protocol v cfg evs w → P (run v cfg evs w).
Proof.
  intros Hstep evs. induction evs as [|ev evs IH]; simpl; intros w Hw Hp; auto.
  destruct Hp as [Hev Hp]. apply IH; auto.
Qed.

(** *** Lengths of the containers *)

Lemma length_set_add_le r s : (length (set_add r s) ≤ S (length s))%nat.
Proof.
  unfold set_add. destruct (decide (r ∈ s)); [lia|].
  rewrite length_app. simpl. lia.
Qed.

Lemma length_set_delete_le r s : (length (set_delete r s) ≤ length s)%nat.
Proof. apply length_filter. Qed.

Lemma length_set_delete_lt r s :
  r ∈ s → (S (length (set_delete r s)) ≤ length s)%nat.
Proof.
  unfold set_delete. induction s as [|x s IH]; intros Hr.
  - apply elem_of_nil in Hr. contradiction.
  - rewrite filter_cons. destruct (decide (x ≠ r)) as [Hne|Heq].
    + apply elem_of_cons in Hr as [->|Hr]; [contradiction|].
      simpl. specialize (IH Hr). lia.
    + pose proof (length_filter (λ y, y ≠ r) s). simpl. lia.
Qed.

Lemma length_remove_first_le r a : (length (remove_first r a) ≤ length a)%nat.
Proof.
  induction a as [|x a IH]; simpl; [lia|].
  destruct (decide (x = r)); simpl; lia.
Qed.

Ltac note_lengths :=
  repeat match goal with
  | |- context [length (set_add ?r ?s)] =>
      lazymatch goal with
      | _ : (length (set_add r s) ≤ S (length s))%nat |- _ => fail
      | _ => pose proof (length_set_add_le r s)
      end
  | |- context [length (set_delete ?r ?s)] =>
      lazymatch goal with
      | _ : (length (set_delete r s) ≤ length s)%nat |- _ => fail
      | _ => pose proof (length_set_delete_le r s)
      end
  | |- context [length (remove_first ?r ?s)] =>
      lazymatch goal with
      | _ : (length (remove_first r s) ≤ length s)%nat |- _ => fail
      | _ => pose proof (length_remove_first_le r s)
      end
  end.

Ltac zbool :=
  repeat match goal with
  | H : (_ >? _) = _ |- _ => rewrite Z.gtb_ltb in H
  | H : (_ >=? _) = _ |- _ => rewrite Z.geb_leb in H
  | H : (_ <? _) = true |- _ => apply Z.ltb_lt in H
  | H : (_ <? _) = false |- _ => apply Z.ltb_ge in H
  | H : (_ <=? _) = true |- _ => apply Z.leb_le in H
  | H : (_ <=? _) = false |- _ => apply Z.leb_gt in H
  end.

Ltac unfold_world_all :=
  cbn [available inUse creating closed healthCheckTimer waitQueue heap now
       tasks warmup calls trace
       with_available with_inUse with_creating with_closed
       with_healthCheckTimer with_waitQueue with_heap with_now with_tasks
       with_warmup with_calls with_trace
       emit spawn become createSession_call incrementUseCount] in *.

(** Close a goal about [totalCount] once every condition has been split. *)
Ltac count :=
  unfold totalCount in *; unfold_world_all; zbool; note_lengths;
  rewrite ?length_app, ?length_rev in *; cbn [length] in *; lia.

(** *** Capacity accounting *)

Section Capacity.

Variable v : Variant.
Variable cfg : PoolConfig.

Lemma totalCount_addSession w :
  totalCount w ≤ size cfg → totalCount (addSession cfg w) ≤ size cfg.
Proof. intros H. unfold addSession. repeat case_match; count. Qed.

Lemma totalCount_replenish w :
  totalCount w ≤ size cfg → totalCount (replenish cfg w) ≤ size cfg.
Proof.
  intros H. unfold replenish. cbn zeta. case_match; [assumption|].
  apply totalCount_addSession. assumption.
Qed.

Lemma totalCount_giveToWaiterOrPush r w :
  totalCount (giveToWaiterOrPush cfg r w) ≤ totalCount w + 1.
Proof. unfold giveToWaiterOrPush. repeat case_match; count. Qed.

Lemma totalCount_waitOrThrow c w :
  totalCount (waitOrThrow cfg c w) = totalCount w.
Proof. unfold waitOrThrow. case_match; count. Qed.

Lemma totalCount_init w :
  totalCount w ≤ size cfg → totalCount (init cfg w) ≤ size cfg.
Proof.
  intros H. unfold init. cbn zeta.
  change (totalCount (Nat.iter (Z.to_nat (size cfg)) (addSession cfg) w) ≤ size cfg).
  induction (Z.to_nat (size cfg)) as [|n IH]; simpl; [assumption|].
  apply totalCount_addSession. exact IH.
Qed.

Lemma totalCount_acquire w :
  totalCount w ≤ size cfg → totalCount (acquire v cfg w) ≤ size cfg.
Proof.
  intros H. unfold acquire. cbn zeta.
  destruct (popUsable v cfg _ _ _) as [ds hit] eqn:E.
  apply popUsable_spec in E as [_ Hhit].
  destruct hit as [[r rest]|].
  - destruct Hhit as [Hst _]. apply rev_eq_app_cons in Hst.
    unfold_world_all. unfold totalCount in *. unfold_world_all.
    rewrite Hst in H. rewrite length_app in H. cbn [length] in H.
    note_lengths. rewrite length_rev in *. lia.
  - case_match.
    + count.
    + rewrite totalCount_waitOrThrow. count.
Qed.

Lemma totalCount_release r error w :
  r ∈ inUse w →
  totalCount w ≤ size cfg → totalCount (release v cfg r error w) ≤ size cfg.
Proof.
  intros Hr H. pose proof (length_set_delete_lt r (inUse w) Hr) as Hd.
  unfold release. cbn zeta. case_match.
  - apply totalCount_replenish. count.
  - etransitivity; [apply totalCount_giveToWaiterOrPush|]. destruct v; count.
Qed.

Lemma totalCount_shutdown w :
  0 ≤ size cfg → totalCount w ≤ size cfg → totalCount (shutdown w) ≤ size cfg.
Proof. intros H0 H. unfold shutdown. cbn zeta. case_match; count. Qed.

Lemma totalCount_addSession_created i k w :
  totalCount w ≤ size cfg →
  totalCount (addSession_created v cfg i k w) ≤ size cfg.
Proof.
  intros H. unfold addSession_created.
  destruct (createSession v cfg k (now w)) as [es [e|s]].
  - repeat case_match; count.
  - cbn zeta. case_match; [count|]. case_match; [count|].
    match goal with
    | |- context [giveToWaiterOrPush cfg ?r ?w0] =>
        pose proof (totalCount_giveToWaiterOrPush r w0) as Hg;
        set (w1 := giveToWaiterOrPush cfg r w0) in *
    end.
    assert (Hw0 : totalCount w1 - 1 ≤ size cfg) by (revert Hg; count).
    clearbody w1. case_match; count.
Qed.

Lemma totalCount_acquire_created i c k w :
  totalCount w ≤ size cfg →
  totalCount (acquire_created v cfg i c k w) ≤ size cfg.
Proof.
  intros H. unfold acquire_created.
  destruct (createSession v cfg k (now w)) as [es [e|s]]; cbn zeta;
    repeat case_match; count.
Qed.

Lemma totalCount_remove_stale l w :
  totalCount w ≤ size cfg →
  totalCount
    (fold_left
       (λ w r, if decide (r ∈ available w)
               then emit (teardown (heap w) r)
                      (with_available (remove_first r (available w)) w)
               else w) l w) ≤ size cfg.
Proof.
  revert w. induction l as [|r l IH]; simpl; intros w H; [assumption|].
  apply IH. case_match; count.
Qed.

Lemma totalCount_disconnected r w :
  totalCount w ≤ size cfg → totalCount (disconnected cfg r w) ≤ size cfg.
Proof.
  intros H. unfold disconnected. case_match; [|assumption]. cbn zeta.
  case_match; [apply totalCount_replenish|]; count.
Qed.

Lemma totalCount_fire i w :
  totalCount w ≤ size cfg → totalCount (fire cfg i w) ≤ size cfg.
Proof.
  intros H. unfold fire.
  repeat case_match; try assumption; apply totalCount_addSession; count.
Qed.

Lemma totalCount_init_settled w :
  totalCount (init_settled cfg w) = totalCount w.
Proof. unfold init_settled. repeat case_match; reflexivity. Qed.

End Capacity.

(** *** No replacement in flight *)

Section NoReplacement.

Variable v : Variant.
Variable cfg : PoolConfig.

(** Close a goal [no_replacement cfg w'] once [w'] is an explicit update of a
    world that satisfies it. *)
Ltac frame :=
  match goal with
  | H : no_replacement cfg _ |- no_replacement cfg _ =>
      destruct H as [Hts Htm]; split; unfold_world;
      [ repeat first [ apply Forall_insert | apply Forall_app_2
                     | apply Forall_cons_2 | apply Forall_nil_2 ];
        first [ assumption | intros ?; discriminate ]
      | first [ assumption | intros ?; discriminate ] ]
  end.

Lemma no_replacement_addSession w :
  no_replacement cfg w → no_replacement cfg (addSession cfg w).
Proof. intros H. unfold addSession. repeat case_match; try assumption; frame. Qed.

Lemma no_replacement_replenish w :
  no_replacement cfg w → no_replacement cfg (replenish cfg w).
Proof.
  intros H. unfold replenish. cbn zeta. case_match; [assumption|].
  apply no_replacement_addSession. assumption.
Qed.

Lemma no_replacement_giveToWaiterOrPush r w :
  no_replacement cfg w → no_replacement cfg (giveToWaiterOrPush cfg r w).
Proof. intros H. unfold giveToWaiterOrPush. repeat case_match; frame. Qed.

Lemma no_replacement_waitOrThrow c w :
  no_replacement cfg w → no_replacement cfg (waitOrThrow cfg c w).
Proof. intros H. unfold waitOrThrow. case_match; frame. Qed.

Lemma no_replacement_init w :
  no_replacement cfg w → no_replacement cfg (init cfg w).
Proof.
  intros H. unfold init. cbn zeta.
  assert (Hi : no_replacement cfg (Nat.iter (Z.to_nat (size cfg)) (addSession cfg) w)).
  { induction (Z.to_nat (size cfg)) as [|n IH]; simpl; [assumption|].
    apply no_replacement_addSession. exact IH. }
  frame.
Qed.

Lemma no_replacement_init_settled w :
  no_replacement cfg w → no_replacement cfg (init_settled cfg w).
Proof.
  intros H. unfold init_settled.
  destruct (warmup w); [|assumption].
  destruct (_ && _); [|assumption]. cbn zeta.
  destruct (enableHealthCheck cfg) eqn:Hh; [|frame].
  destruct (healthCheckTimer (with_warmup None w)) eqn:Ht.
  - frame.
  - destruct H as [Hts _]. split; [exact Hts|]. intros _. exact Hh.
Qed.

Lemma no_replacement_acquire w :
  no_replacement cfg w → no_replacement cfg (acquire v cfg w).
Proof.
  intros H. unfold acquire. cbn zeta.
  destruct (popUsable v cfg _ _ _) as [ds [[r rest]|]]; [frame|].
  case_match; [frame|]. apply no_replacement_waitOrThrow. frame.
Qed.

Lemma no_replacement_release r error w :
  no_replacement cfg w → no_replacement cfg (release v cfg r error w).
Proof.
  intros H. unfold release. cbn zeta. case_match.
  - apply no_replacement_replenish. frame.
  - apply no_replacement_giveToWaiterOrPush. destruct v; frame.
Qed.

Lemma no_replacement_shutdown w :
  no_replacement cfg w → no_replacement cfg (shutdown w).
Proof. intros H. unfold shutdown. cbn zeta. case_match; frame. Qed.

Lemma no_replacement_addSession_created i k w :
  no_replacement cfg w → no_replacement cfg (addSession_created v cfg i k w).
Proof.
  intros H. unfold addSession_created.
  destruct (createSession v cfg k (now w)) as [es [e|s]]; cbn zeta.
  - repeat case_match; frame.
  - case_match; [frame|]. case_match; [frame|].
    match goal with
    | |- context [giveToWaiterOrPush cfg ?r ?w0] =>
        assert (Hg : no_replacement cfg (giveToWaiterOrPush cfg r w0))
          by (apply no_replacement_giveToWaiterOrPush; frame);
        set (w1 := giveToWaiterOrPush cfg r w0) in *
    end.
    clearbody w1. clear H. case_match; frame.
Qed.

Lemma no_replacement_acquire_created i c k w :
  no_replacement cfg w → no_replacement cfg (acquire_created v cfg i c k w).
Proof.
  intros H. unfold acquire_created.
  destruct (createSession v cfg k (now w)) as [es [e|s]]; cbn zeta;
    repeat case_match; frame.
Qed.

Lemma no_replacement_replaceSession_created i old k w :
  no_replacement cfg w → no_replacement cfg (replaceSession_created v cfg i old k w).
Proof.
  intros H. unfold replaceSession_created.
  destruct (createSession v cfg k (now w)) as [es [e|s]]; cbn zeta;
    repeat case_match; frame.
Qed.

Lemma no_replacement_remove_stale l w :
  no_replacement cfg w →
  no_replacement cfg
    (fold_left
       (λ w r, if decide (r ∈ available w)
               then emit (teardown (heap w) r)
                      (with_available (remove_first r (available w)) w)
               else w) l w).
Proof.
  revert w. induction l as [|r l IH]; simpl; intros w H; [assumption|].
  apply IH. case_match; [frame|assumption].
Qed.

Lemma no_replacement_healthTimer w :
  v = Base ∨ enableHealthCheck cfg = false →
  no_replacement cfg w → no_replacement cfg (healthTimer v cfg w).
Proof.
  intros Hcfg H. unfold healthTimer.
  destruct (healthCheckTimer w) eqn:Ht; [|assumption].
  destruct (closed w); [assumption|].
  destruct Hcfg as [->|Hoff].
  - unfold performHealthCheck. cbn zeta.
    apply no_replacement_replenish, no_replacement_remove_stale. assumption.
  - destruct H as [_ Htm]. rewrite (Htm Ht) in Hoff. discriminate.
Qed.

Lemma no_replacement_disconnected r w :
  no_replacement cfg w → no_replacement cfg (disconnected cfg r w).
Proof.
  intros H. unfold disconnected. case_match; [|assumption]. cbn zeta.
  case_match; [apply no_replacement_replenish|]; frame.
Qed.

Lemma no_replacement_fire i w :
  no_replacement cfg w → no_replacement cfg (fire cfg i w).
Proof.
  intros H. unfold fire.
  repeat case_match; try assumption; apply no_replacement_addSession; frame.
Qed.

Lemma no_replacement_step ev w :
  v = Base ∨ enableHealthCheck cfg = false →
  no_replacement cfg w → no_replacement cfg (step v cfg ev w).
Proof.
  intros Hcfg H. destruct ev; simpl.
  - apply no_replacement_init; assumption.
  - apply no_replacement_init_settled; assumption.
  - apply no_replacement_acquire; assumption.
  - case_match; [apply no_replacement_release|]; assumption.
  - apply no_replacement_shutdown; assumption.
  - repeat case_match; try assumption.
    + apply no_replacement_acquire_created; assumption.
    + apply no_replacement_addSession_created; assumption.
    + apply no_replacement_replaceSession_created; assumption.
  - repeat case_match; try assumption.
    + unfold acquire_closed. 
      assert (Hw := no_replacement_waitOrThrow c w H).
      revert Hw. generalize (waitOrThrow cfg c w). intros w1 Hw. frame.
    + unfold addSession_closed. frame.
  - apply no_replacement_fire; assumption.
  - apply no_replacement_healthTimer; assumption.
  - apply no_replacement_disconnected; assumption.
  - frame.
Qed.

Lemma capacity_step ev w :
  0 ≤ size cfg →
  v = Base ∨ enableHealthCheck cfg = false →
  no_replacement cfg w →
  permitted w ev →
  totalCount w ≤ size cfg → totalCount (step v cfg ev w) ≤ size cfg.
Proof.
  intros H0 Hcfg Hnr Hev H. destruct ev; simpl in *.
  - apply totalCount_init; assumption.
  - rewrite totalCount_init_settled; assumption.
  - apply totalCount_acquire; assumption.
  - case_match; [apply totalCount_release|]; assumption.
  - apply totalCount_shutdown; assumption.
  - destruct (tasks w !! i) as [t|] eqn:Ht; [|assumption].
    destruct t; try assumption.
    + apply totalCount_acquire_created; assumption.
    + apply totalCount_addSession_created; assumption.
    + destruct Hnr as [Hts _]. rewrite Forall_lookup in Hts.
      exfalso. exact (Hts _ _ Ht old eq_refl).
  - repeat case_match; try assumption.
    + unfold acquire_closed.
      pose proof (totalCount_waitOrThrow cfg c w) as Hw.
      revert Hw. generalize (waitOrThrow cfg c w). intros w1 Hw. count.
    + unfold addSession_closed. count.
  - apply totalCount_fire; assumption.
  - unfold healthTimer.
    destruct (healthCheckTimer w) eqn:Ht; [|assumption].
    destruct (closed w); [assumption|].
    destruct Hcfg as [->|Hoff].
    + unfold performHealthCheck. cbn zeta.
      apply totalCount_replenish, totalCount_remove_stale; assumption.
    + destruct Hnr as [_ Htm]. rewrite (Htm Ht) in Hoff. discriminate.
  - apply totalCount_disconnected; assumption.
  - count.
Qed.

(** Every run that follows the borrow protocol keeps the pool within its
    configured size, provided no health-check replacement can be in flight. *)
Lemma capacity_run evs w :
  0 ≤ size cfg →
  v = Base ∨ enableHealthCheck cfg = false →
  no_replacement cfg w → totalCount w ≤ size cfg →
  follows_protocol v cfg evs w →
  totalCount (run v cfg evs w) ≤ size cfg.
Proof.
  intros H0 Hcfg Hnr Hw Hp.
  cut (no_replacement cfg (run v cfg evs w) ∧ totalCount (run v cfg evs w) ≤ size cfg);
    [tauto|].
  revert Hp.
  apply (run_invariant_protocol v cfg
           (λ w, no_replacement cfg w ∧ totalCount w ≤ size cfg)); [|tauto].
  intros ev w0 [Hn Ht] Hev. split.
  - apply no_replacement_step; assumption.
  - apply capacity_step; assumption.
Qed.

End NoReplacement.

(** C1, the code at the failing input: in the Enhanced variant with the
    health check on, a client that only calls [acquire()] ends, with no call
    suspended and no callback scheduled, with one available and one in-use
    session in a pool of size 1. [replaceSession] does not count its
    creation in [creating] and pushes the replacement although the session
    it replaces has already left [available]. *)
Theorem capacity_exceeded_by_replacement :
  follows_protocol Enhanced agingConfig replacementRace newPool ∧
  quiescent (run Enhanced agingConfig replacementRace newPool) = true ∧
  available (run Enhanced agingConfig replacementRace newPool) = [2%nat] ∧
  inUse (run Enhanced agingConfig replacementRace newPool) = [1%nat] ∧
  totalCount (run Enhanced agingConfig replacementRace newPool) = 2 ∧
  size agingConfig = 1.
Proof. vm_compute. repeat split. Qed.

(** Releasing the same session twice pushes it twice: the borrow protocol
    is needed for the capacity bound. *)
Lemma capacity_exceeded_by_double_release :
  quiescent (run Base (defaultConfig 1) doubleRelease newPool) = true ∧
  available (run Base (defaultConfig 1) doubleRelease newPool) = [0%nat; 0%nat] ∧
  totalCount (run Base (defaultConfig 1) doubleRelease newPool) = 2.
Proof. vm_compute. repeat split. Qed.

(** The capacity bound where no replacement can be in flight: in every run
    in which clients release only sessions that are in the in-use set, with a
    non-negative configured size, in the Base variant or with the health
    check disabled, [available.length + inUse.size + creating] is at most
    [size] after every atomic step, hence at every quiescent point. *)
Theorem capacity_invariant v cfg evs :
  0 ≤ size cfg →
  v = Base ∨ enableHealthCheck cfg = false →
  follows_protocol v cfg evs newPool →
  totalCount (run v cfg evs newPool) ≤ size cfg.
Proof.
  intros H0 Hcfg Hp. apply capacity_run; try assumption.
  split; [constructor|discriminate].
Qed.

Lemma capacity_invariant_witness :
  0 ≤ size (defaultConfig 2) ∧
  (Base = Base ∨ enableHealthCheck (defaultConfig 2) = false) ∧
  follows_protocol Base (defaultConfig 2) borrowAndReturn newPool ∧
  totalCount (run Base (defaultConfig 2) borrowAndReturn newPool) ≤ size (defaultConfig 2).
Proof.
  assert (H0 : 0 ≤ size (defaultConfig 2)) by (simpl; lia).
  assert (Hc : Base = Base ∨ enableHealthCheck (defaultConfig 2) = false)
    by (left; reflexivity).
  assert (Hp : follows_protocol Base (defaultConfig 2) borrowAndReturn newPool)
    by (vm_compute; repeat split; repeat constructor).
  exact (conj H0 (conj Hc (conj Hp
           (capacity_invariant Base (defaultConfig 2) borrowAndReturn H0 Hc Hp)))).
Defined.

(** *** The wait queue *)

Lemma handoffs_app t1 t2 : handoffs (t1 ++ t2) = handoffs t1 ++ handoffs t2.
Proof. apply omap_app. Qed.

Lemma enqueues_app t1 t2 : enqueues (t1 ++ t2) = enqueues t1 ++ enqueues t2.
Proof. apply omap_app. Qed.

Lemma teardown_silent h r :
  handoffs (teardown h r) = [] ∧ enqueues (teardown h r) = [].
Proof. unfold teardown. destruct (h !! r); split; reflexivity. Qed.

Lemma teardowns_silent h l :
  handoffs (flat_map (teardown h) l) = [] ∧ enqueues (flat_map (teardown h) l) = [].
Proof.
  induction l as [|r l [IH1 IH2]]; simpl; [split; reflexivity|].
  rewrite handoffs_app, enqueues_app, IH1, IH2.
  destruct (teardown_silent h r) as [-> ->]. split; reflexivity.
Qed.

Lemma createSession_silent v cfg k t :
  handoffs (fst (createSession v cfg k t)) = [] ∧
  enqueues (fst (createSession v cfg k t)) = [].
Proof.
  unfold createSession. repeat case_match; simplify_eq; simpl; split; reflexivity.
Qed.

Lemma handoffs_rejections e q :
  handoffs (map (λ c, WaiterRejected c e) q) = q ∧
  enqueues (map (λ c, WaiterRejected c e) q) = [].
Proof. induction q as [|c q [IH1 IH2]]; simpl; [auto|]. rewrite IH1. auto. Qed.

(** Close a goal [fifo w'] once [w'] is an explicit update of a world [w]
    with [fifo w]. *)
Ltac queue :=
  unfold fifo in *; unfold_world_all;
  rewrite ?handoffs_app, ?enqueues_app;
  repeat match goal with
  | |- context [handoffs (teardown ?h ?r)] =>
      destruct (teardown_silent h r) as [-> ->]
  | |- context [handoffs (flat_map (teardown ?h) ?l)] =>
      destruct (teardowns_silent h l) as [-> ->]
  | |- context [handoffs (map (λ c, WaiterRejected c ?e) ?q)] =>
      destruct (handoffs_rejections e q) as [-> ->]
  end;
  cbn [handoffs enqueues omap list_omap option_bind mbind];
  rewrite ?app_nil_r;
  try match goal with Hq : waitQueue _ = _ |- _ => rewrite Hq in * end;
  try match goal with
  | H : handoffs ?t ++ _ = enqueues ?t |- _ => rewrite <- H; clear H
  end;
  rewrite <- ?app_assoc; try reflexivity.

Section Fifo.

Variable v : Variant.
Variable cfg : PoolConfig.

Lemma fifo_addSession w : fifo w → fifo (addSession cfg w).
Proof. intros H. unfold addSession. repeat case_match; queue. Qed.

Lemma fifo_replenish w : fifo w → fifo (replenish cfg w).
Proof.
  intros H. unfold replenish. cbn zeta. case_match; [assumption|].
  apply fifo_addSession. assumption.
Qed.

Lemma fifo_giveToWaiterOrPush r w : fifo w → fifo (giveToWaiterOrPush cfg r w).
Proof. intros H. unfold giveToWaiterOrPush. repeat case_match; queue. Qed.

Lemma fifo_waitOrThrow c w : fifo w → fifo (waitOrThrow cfg c w).
Proof. intros H. unfold waitOrThrow. case_match; queue. Qed.

Lemma fifo_init w : fifo w → fifo (init cfg w).
Proof.
  intros H. unfold init. cbn zeta.
  assert (Hi : fifo (Nat.iter (Z.to_nat (size cfg)) (addSession cfg) w)).
  { induction (Z.to_nat (size cfg)) as [|n IH]; simpl; [assumption|].
    apply fifo_addSession. exact IH. }
  revert Hi. generalize (Nat.iter (Z.to_nat (size cfg)) (addSession cfg) w).
  intros w1 Hi. queue.
Qed.

Lemma fifo_init_settled w : fifo w → fifo (init_settled cfg w).
Proof. intros H. unfold init_settled. repeat case_match; queue. Qed.

Lemma fifo_acquire w : fifo w → fifo (acquire v cfg w).
Proof.
  intros H. unfold acquire. cbn zeta.
  destruct (popUsable v cfg _ _ _) as [ds [[r rest]|]]; [queue|].
  case_match; [queue|]. apply fifo_waitOrThrow. queue.
Qed.

Lemma fifo_release r error w : fifo w → fifo (release v cfg r error w).
Proof.
  intros H. unfold release. cbn zeta. case_match.
  - apply fifo_replenish. queue.
  - apply fifo_giveToWaiterOrPush. destruct v; queue.
Qed.

Lemma fifo_shutdown w : fifo w → fifo (shutdown w).
Proof. intros H. unfold shutdown. cbn zeta. case_match; queue. Qed.

Lemma fifo_addSession_created i k w :
  fifo w → fifo (addSession_created v cfg i k w).
Proof.
  intros H. unfold addSession_created.
  pose proof (createSession_silent v cfg k (now w)) as [Hs1 Hs2].
  destruct (createSession v cfg k (now w)) as [es [e|s]]; cbn zeta;
    simpl in Hs1, Hs2.
  - repeat case_match; queue; rewrite ?Hs1, ?Hs2, ?app_nil_r; reflexivity.
  - case_match; [queue; rewrite ?Hs1, ?Hs2, ?app_nil_r; reflexivity|].
    case_match; [queue; rewrite ?Hs1, ?Hs2, ?app_nil_r; reflexivity|].
    match goal with
    | |- context [giveToWaiterOrPush cfg ?r ?w0] =>
        assert (Hg : fifo (giveToWaiterOrPush cfg r w0))
          by (apply fifo_giveToWaiterOrPush; queue;
              rewrite ?Hs1, ?Hs2, ?app_nil_r; reflexivity);
        set (w1 := giveToWaiterOrPush cfg r w0) in *
    end.
    clearbody w1. clear H. case_match; queue.
Qed.

Lemma fifo_acquire_created i c k w :
  fifo w → fifo (acquire_created v cfg i c k w).
Proof.
  intros H. unfold acquire_created.
  pose proof (createSession_silent v cfg k (now w)) as [Hs1 Hs2].
  destruct (createSession v cfg k (now w)) as [es [e|s]]; cbn zeta;
    simpl in Hs1, Hs2;
    repeat case_match; queue; rewrite ?Hs1, ?Hs2, ?app_nil_r; reflexivity.
Qed.

Lemma fifo_replaceSession_created i old k w :
  fifo w → fifo (replaceSession_created v cfg i old k w).
Proof.
  intros H. unfold replaceSession_created.
  pose proof (createSession_silent v cfg k (now w)) as [Hs1 Hs2].
  destruct (createSession v cfg k (now w)) as [es [e|s]]; cbn zeta;
    simpl in Hs1, Hs2;
    repeat case_match; queue; rewrite ?Hs1, ?Hs2, ?app_nil_r; reflexivity.
Qed.

Lemma fifo_remove_stale l w :
  fifo w →
  fifo (fold_left
          (λ w r, if decide (r ∈ available w)
                  then emit (teardown (heap w) r)
                         (with_available (remove_first r (available w)) w)
                  else w) l w).
Proof.
  revert w. induction l as [|r l IH]; simpl; intros w H; [assumption|].
  apply IH. case_match; [queue|assumption].
Qed.

Lemma fifo_replace_stale l w :
  fifo w → fifo (fold_left (λ w old, replaceSession old w) l w).
Proof.
  revert w. induction l as [|r l IH]; simpl; intros w H; [assumption|].
  apply IH. unfold replaceSession. case_match; [assumption|queue].
Qed.

Lemma fifo_healthTimer w : fifo w → fifo (healthTimer v cfg w).
Proof.
  intros H. unfold healthTimer. repeat case_match; try assumption.
  unfold performHealthCheck. cbn zeta. destruct v; apply fifo_replenish.
  - apply fifo_remove_stale. assumption.
  - apply fifo_replace_stale. assumption.
Qed.

Lemma fifo_disconnected r w : fifo w → fifo (disconnected cfg r w).
Proof.
  intros H. unfold disconnected. case_match; [|assumption]. cbn zeta.
  case_match; [apply fifo_replenish|]; queue.
Qed.

Lemma fifo_fire i w : fifo w → fifo (fire cfg i w).
Proof.
  intros H. unfold fire.
  repeat case_match; try assumption; apply fifo_addSession; queue.
Qed.

Lemma fifo_step ev w : fifo w → fifo (step v cfg ev w).
Proof.
  intros H. destruct ev; simpl.
  - apply fifo_init; assumption.
  - apply fifo_init_settled; assumption.
  - apply fifo_acquire; assumption.
  - case_match; [apply fifo_release|]; assumption.
  - apply fifo_shutdown; assumption.
  - repeat case_match; try assumption.
    + apply fifo_acquire_created; assumption.
    + apply fifo_addSession_created; assumption.
    + apply fifo_replaceSession_created; assumption.
  - repeat case_match; try assumption.
    unfold acquire_closed.
    assert (Hw := fifo_waitOrThrow c w H).
    revert Hw. generalize (waitOrThrow cfg c w). intros w1 Hw. queue.
  - apply fifo_fire; assumption.
  - apply fifo_healthTimer; assumption.
  - apply fifo_disconnected; assumption.
  - queue.
Qed.

(** In every run, the callers handed off so far followed by the callers
    still queued are the callers parked, in the order they were parked. *)
Lemma fifo_run evs : fifo (run v cfg evs newPool).
Proof. apply run_invariant; [intros; apply fifo_step; assumption|reflexivity]. Qed.

End Fifo.

(** *** Which sessions the pool holds *)

Lemma elem_of_set_add x r s : x ∈ set_add r s ↔ x ∈ s ∨ x = r.
Proof.
  unfold set_add. destruct (decide (r ∈ s)) as [Hin|Hout].
  - split; [auto|]. intros [?| ->]; assumption.
  - rewrite elem_of_app, list_elem_of_singleton. reflexivity.
Qed.

Lemma elem_of_set_delete x r s : x ∈ set_delete r s ↔ x ∈ s ∧ x ≠ r.
Proof. unfold set_delete. rewrite list_elem_of_filter. tauto. Qed.

Lemma remove_first_sublist r a : remove_first r a `sublist_of` a.
Proof.
  induction a as [|x a IH]; simpl; [constructor|].
  destruct (decide (x = r)).
  - apply sublist_cons. reflexivity.
  - apply sublist_skip. exact IH.
Qed.

Lemma set_delete_sublist r s : set_delete r s `sublist_of` s.
Proof. apply sublist_filter. Qed.

Lemma elem_of_remove_first x r a : x ∈ remove_first r a → x ∈ a.
Proof. intros H. eapply elem_of_sublist; [exact H|apply remove_first_sublist]. Qed.

Lemma elem_of_rev (x : nat) l : x ∈ rev l ↔ x ∈ l.
Proof. rewrite !list_elem_of_In. symmetry. apply in_rev. Qed.

Ltac mem :=
  repeat match goal with
  | H : _ ∈ _ ++ _ |- _ => apply (proj1 (elem_of_app _ _ _)) in H as [H|H]
  | H : _ ∈ _ :: _ |- _ => apply (proj1 (elem_of_cons _ _ _)) in H as [H|H]
  | H : _ ∈ [] |- _ => apply elem_of_nil in H; contradiction
  | H : _ ∈ rev _ |- _ => apply (proj1 (elem_of_rev _ _)) in H
  | H : _ ∈ set_add _ _ |- _ => apply (proj1 (elem_of_set_add _ _ _)) in H as [H|H]
  | H : _ ∈ set_delete _ _ |- _ => apply (proj1 (elem_of_set_delete _ _ _)) in H as [H ?]
  | H : _ ∈ remove_first _ _ |- _ => apply elem_of_remove_first in H
  end.

(** Close a goal [extends rel w w'] once [w'] is an explicit update of [w]. *)
Ltac held :=
  unfold extends, owned in *; unfold_world_all;
  rewrite ?length_alter, ?length_app; cbn [length];
  split; [lia|];
  let x := fresh "x" in let Hx := fresh "Hx" in
  intros x Hx; mem; subst;
  rewrite ?elem_of_app, ?elem_of_cons, ?elem_of_rev;
  first [ tauto | right; left; lia | right; right; repeat constructor ].

Lemma extends_refl rel w : extends rel w w.
Proof. split; [lia|]. intros x Hx. left. assumption. Qed.

Lemma extends_trans rel w1 w2 w3 :
  extends rel w1 w2 → extends rel w2 w3 → extends rel w1 w3.
Proof.
  intros [Hl1 H1] [Hl2 H2]. split; [lia|].
  intros x Hx. destruct (H2 x Hx) as [Hin|[Hfresh|Hrel]].
  - destruct (H1 x Hin) as [?|[?|?]]; [tauto|right; left; lia|tauto].
  - right. left. lia.
  - tauto.
Qed.

Section Held.

Variable v : Variant.
Variable cfg : PoolConfig.

Lemma extends_addSession rel w : extends rel w (addSession cfg w).
Proof. unfold addSession. repeat case_match; held. Qed.

Lemma extends_replenish rel w : extends rel w (replenish cfg w).
Proof.
  unfold replenish. cbn zeta. case_match;
    [apply extends_refl|apply extends_addSession].
Qed.

Lemma extends_giveToWaiterOrPush r w :
  extends [r] w (giveToWaiterOrPush cfg r w).
Proof. unfold giveToWaiterOrPush. repeat case_match; held. Qed.

Lemma extends_waitOrThrow rel c w : extends rel w (waitOrThrow cfg c w).
Proof. unfold waitOrThrow. case_match; held. Qed.

Lemma extends_init rel w : extends rel w (init cfg w).
Proof.
  unfold init. cbn zeta.
  assert (Hi : extends rel w (Nat.iter (Z.to_nat (size cfg)) (addSession cfg) w)).
  { induction (Z.to_nat (size cfg)) as [|n IH]; simpl; [apply extends_refl|].
    eapply extends_trans; [exact IH|apply extends_addSession]. }
  revert Hi. generalize (Nat.iter (Z.to_nat (size cfg)) (addSession cfg) w).
  intros w1 Hi. exact Hi.
Qed.

Lemma extends_init_settled rel w : extends rel w (init_settled cfg w).
Proof. unfold init_settled. repeat case_match; held. Qed.

Lemma extends_acquire rel w : extends rel w (acquire v cfg w).
Proof.
  unfold acquire. cbn zeta.
  destruct (popUsable v cfg _ _ _) as [ds hit] eqn:E.
  apply popUsable_spec in E as [_ Hhit].
  destruct hit as [[r rest]|].
  - destruct Hhit as [Hst _]. apply rev_eq_app_cons in Hst.
    unfold_world_all. unfold extends, owned. unfold_world. rewrite Hst.
    rewrite length_alter. split; [lia|].
    intros x Hx. mem; subst; rewrite !elem_of_app, ?elem_of_cons, ?elem_of_rev; tauto.
  - case_match.
    + held.
    + eapply extends_trans; [|apply extends_waitOrThrow]. held.
Qed.

Lemma extends_release r error w : extends [r] w (release v cfg r error w).
Proof.
  unfold release. cbn zeta. case_match.
  - eapply extends_trans; [|apply extends_replenish]. held.
  - eapply extends_trans; [|apply extends_giveToWaiterOrPush]. destruct v; held.
Qed.

Lemma extends_shutdown rel w : extends rel w (shutdown w).
Proof. unfold shutdown. cbn zeta. case_match; held. Qed.

Lemma extends_addSession_created rel i k w :
  extends rel w (addSession_created v cfg i k w).
Proof.
  unfold addSession_created, giveToWaiterOrPush.
  destruct (createSession v cfg k (now w)) as [es [e|s]]; cbn zeta;
    repeat case_match; held.
Qed.

Lemma extends_acquire_created rel i c k w :
  extends rel w (acquire_created v cfg i c k w).
Proof.
  unfold acquire_created.
  destruct (createSession v cfg k (now w)) as [es [e|s]]; cbn zeta;
    repeat case_match; held.
Qed.

Lemma extends_replaceSession_created rel i old k w :
  extends rel w (replaceSession_created v cfg i old k w).
Proof.
  unfold replaceSession_created.
  destruct (createSession v cfg k (now w)) as [es [e|s]]; cbn zeta;
    repeat case_match; held.
Qed.

Lemma extends_remove_stale rel l w :
  extends rel w
    (fold_left
       (λ w r, if decide (r ∈ available w)
               then emit (teardown (heap w) r)
                      (with_available (remove_first r (available w)) w)
               else w) l w).
Proof.
  revert w. induction l as [|r l IH]; simpl; intros w; [apply extends_refl|].
  eapply extends_trans; [|apply IH]. case_match; held.
Qed.

Lemma extends_replace_stale rel l w :
  extends rel w (fold_left (λ w old, replaceSession old w) l w).
Proof.
  revert w. induction l as [|r l IH]; simpl; intros w; [apply extends_refl|].
  eapply extends_trans; [|apply IH]. unfold replaceSession. case_match; held.
Qed.

Lemma extends_healthTimer rel w : extends rel w (healthTimer v cfg w).
Proof.
  unfold healthTimer. repeat case_match; try apply extends_refl.
  unfold performHealthCheck. cbn zeta.
  destruct v; (eapply extends_trans; [|apply extends_replenish]).
  - apply extends_remove_stale.
  - apply extends_replace_stale.
Qed.

Lemma extends_disconnected rel r w : extends rel w (disconnected cfg r w).
Proof.
  unfold disconnected. case_match; [|apply extends_refl]. cbn zeta.
  case_match; [eapply extends_trans; [|apply extends_replenish]|]; held.
Qed.

Lemma extends_fire rel i w : extends rel w (fire cfg i w).
Proof.
  unfold fire. repeat case_match; try apply extends_refl;
    (eapply extends_trans; [|apply extends_addSession]); held.
Qed.

Lemma extends_step ev w :
  extends (match ev with
           | Release r _ => match heap w !! r with Some _ => [r] | None => [] end
           | _ => []
           end) w (step v cfg ev w).
Proof.
  destruct ev; simpl.
  - apply extends_init.
  - apply extends_init_settled.
  - apply extends_acquire.
  - case_match; [apply extends_release|apply extends_refl].
  - apply extends_shutdown.
  - repeat case_match; try apply extends_refl.
    + apply extends_acquire_created.
    + apply extends_addSession_created.
    + apply extends_replaceSession_created.
  - repeat case_match; try apply extends_refl.
    + unfold acquire_closed, waitOrThrow. case_match; held.
    + unfold addSession_closed. held.
  - apply extends_fire.
  - apply extends_healthTimer.
  - apply extends_disconnected.
  - held.
Qed.

Lemma allocated_step ev w : allocated w → allocated (step v cfg ev w).
Proof.
  intros H. destruct (extends_step ev w) as [Hl Hx].
  unfold allocated in *. rewrite Forall_forall in *. intros x Hin.
  destruct (Hx x Hin) as [Hold|[Hnew|Hrel]].
  - specialize (H x Hold). lia.
  - lia.
  - destruct ev; try (apply elem_of_nil in Hrel; contradiction).
    destruct (heap w !! r) eqn:Hr; [|apply elem_of_nil in Hrel; contradiction].
    apply list_elem_of_singleton in Hrel as ->.
    apply lookup_lt_Some in Hr. lia.
Qed.

Lemma allocated_run evs : allocated (run v cfg evs newPool).
Proof.
  apply run_invariant; [intros; apply allocated_step; assumption|].
  constructor.
Qed.

(** A session that is not held stays out of both sets as long as nobody
    releases it. *)
Lemma absent_step ev w r :
  (r < length (heap w))%nat → r ∉ owned w →
  (∀ e, ev ≠ Release r e) →
  (r < length (heap (step v cfg ev w)))%nat ∧ r ∉ owned (step v cfg ev w).
Proof.
  intros Hr Hout Hev. destruct (extends_step ev w) as [Hl Hx].
  split; [lia|]. intros Hin.
  destruct (Hx r Hin) as [Hold|[Hnew|Hrel]]; [contradiction|lia|].
  destruct ev; try (apply elem_of_nil in Hrel; contradiction).
  destruct (heap w !! r0); [|apply elem_of_nil in Hrel; contradiction].
  apply list_elem_of_singleton in Hrel as ->. exact (Hev error eq_refl).
Qed.

Lemma absent_run evs w r :
  (r < length (heap w))%nat → r ∉ owned w →
  (∀ e, Release r e ∉ evs) →
  (r < length (heap (run v cfg evs w)))%nat ∧ r ∉ owned (run v cfg evs w).
Proof.
  revert w. induction evs as [|ev evs IH]; simpl; intros w Hr Hout Hev; [auto|].
  destruct (absent_step ev w r Hr Hout) as [Hr' Hout'].
  { intros e ->. apply (Hev e). constructor. }
  apply IH; [assumption..|]. intros e He. apply (Hev e). constructor. exact He.
Qed.

End Held.

(** *** No session is held twice *)

Lemma nodup_sub (a s a' s' : list nat) :
  NoDup (a ++ s) → a' `sublist_of` a → s' `sublist_of` s → NoDup (a' ++ s').
Proof.
  intros H Ha Hs. eapply sublist_NoDup; [exact H|]. apply sublist_app; assumption.
Qed.

Lemma nodup_push (a s : list nat) r :
  NoDup (a ++ s) → r ∉ a ++ s → NoDup ((a ++ [r]) ++ s).
Proof.
  intros H Hr.
  assert (Hp : (a ++ [r]) ++ s ≡ₚ r :: a ++ s) by solve_Permutation.
  rewrite Hp. apply NoDup_cons. split; assumption.
Qed.

Lemma nodup_set_add (a s : list nat) r :
  NoDup (a ++ s) → r ∉ a → NoDup (a ++ set_add r s).
Proof.
  intros H Hr. unfold set_add. destruct (decide (r ∈ s)) as [Hin|Hout]; [assumption|].
  assert (Hp : a ++ s ++ [r] ≡ₚ r :: a ++ s) by solve_Permutation.
  rewrite Hp. apply NoDup_cons. split; [|assumption].
  rewrite elem_of_app. tauto.
Qed.

Lemma fresh_not_owned w : allocated w → length (heap w) ∉ owned w.
Proof.
  unfold allocated. rewrite Forall_forall. intros H Hin.
  specialize (H _ Hin). lia.
Qed.

Create HintDb held.
#[local] Hint Resolve remove_first_sublist set_delete_sublist sublist_nil_l : held.
#[local] Hint Extern 1 (_ `sublist_of` _) => reflexivity : held.

(** Close a goal [NoDup (owned w')] when [w'] only dropped sessions of [w]. *)
Ltac dropped :=
  unfold owned in *; unfold_world_all;
  solve [ assumption
        | eapply nodup_sub; [eassumption|auto with held..] ].

Section Ownership.

Variable v : Variant.
Variable cfg : PoolConfig.

Lemma owned_addSession w : owned (addSession cfg w) = owned w.
Proof. unfold addSession. repeat case_match; reflexivity. Qed.

Lemma owned_replenish w : owned (replenish cfg w) = owned w.
Proof.
  unfold replenish. cbn zeta. case_match; [reflexivity|apply owned_addSession].
Qed.

Lemma owned_waitOrThrow c w : owned (waitOrThrow cfg c w) = owned w.
Proof. unfold waitOrThrow. case_match; reflexivity. Qed.

Lemma owned_init w : owned (init cfg w) = owned w.
Proof.
  unfold init. cbn zeta.
  change (owned (Nat.iter (Z.to_nat (size cfg)) (addSession cfg) w) = owned w).
  induction (Z.to_nat (size cfg)) as [|n IH]; simpl; [reflexivity|].
  rewrite owned_addSession. exact IH.
Qed.

Lemma owned_init_settled w : owned (init_settled cfg w) = owned w.
Proof. unfold init_settled. repeat case_match; reflexivity. Qed.

Lemma owned_fire i w : owned (fire cfg i w) = owned w.
Proof.
  unfold fire. repeat case_match; try reflexivity; rewrite owned_addSession;
    reflexivity.
Qed.

Lemma nodup_giveToWaiterOrPush r w :
  NoDup (owned w) → r ∉ owned w → NoDup (owned (giveToWaiterOrPush cfg r w)).
Proof.
  intros H Hr. unfold giveToWaiterOrPush.
  repeat case_match; unfold owned in *; unfold_world;
    first [ apply nodup_push; assumption
          | apply nodup_set_add; [assumption|];
            rewrite elem_of_app in Hr; tauto ].
Qed.

Lemma nodup_acquire w : NoDup (owned w) → NoDup (owned (acquire v cfg w)).
Proof.
  intros H. unfold acquire. cbn zeta.
  destruct (popUsable v cfg _ _ _) as [ds hit] eqn:E.
  apply popUsable_spec in E as [_ Hhit].
  destruct hit as [[r rest]|].
  - destruct Hhit as [Hst _]. apply rev_eq_app_cons in Hst.
    unfold owned in *. unfold_world_all. rewrite Hst in H.
    assert (Hp : (rev rest ++ r :: rev ds) ++ inUse w
                 ≡ₚ r :: rev ds ++ rev rest ++ inUse w) by solve_Permutation.
    rewrite Hp in H. apply NoDup_cons in H as [Hr H].
    apply NoDup_app in H as (_ & _ & H).
    apply nodup_set_add; [assumption|].
    intros Hin. apply Hr. rewrite !elem_of_app. tauto.
  - case_match; [dropped|]. rewrite owned_waitOrThrow. dropped.
Qed.

Lemma nodup_release r error w :
  r ∉ available w → NoDup (owned w) → NoDup (owned (release v cfg r error w)).
Proof.
  intros Hr H. unfold release. cbn zeta.
  assert (Hd : NoDup (available w ++ set_delete r (inUse w))) by dropped.
  assert (Hout : r ∉ available w ++ set_delete r (inUse w)).
  { rewrite elem_of_app, elem_of_set_delete. intros [Ha|[_ Hne]]; [|congruence].
    exact (Hr Ha). }
  case_match.
  - rewrite owned_replenish. exact Hd.
  - apply nodup_giveToWaiterOrPush; destruct v; assumption.
Qed.

Lemma nodup_shutdown w : NoDup (owned (shutdown w)).
Proof. unfold shutdown. cbn zeta. case_match; constructor. Qed.

Lemma nodup_addSession_created i k w :
  ownership w → NoDup (owned (addSession_created v cfg i k w)).
Proof.
  intros [H Ha]. apply fresh_not_owned in Ha. unfold addSession_created.
  destruct (createSession v cfg k (now w)) as [es [e|s]]; cbn zeta.
  - repeat case_match; dropped.
  - case_match; [dropped|]. case_match; [dropped|].
    match goal with
    | |- context [giveToWaiterOrPush cfg ?r ?w0] =>
        assert (Hg : NoDup (owned (giveToWaiterOrPush cfg r w0)))
          by (apply nodup_giveToWaiterOrPush; assumption);
        set (w1 := giveToWaiterOrPush cfg r w0) in *
    end.
    clearbody w1. case_match; exact Hg.
Qed.

Lemma nodup_acquire_created i c k w :
  ownership w → NoDup (owned (acquire_created v cfg i c k w)).
Proof.
  intros [H Ha]. apply fresh_not_owned in Ha. unfold acquire_created.
  destruct (createSession v cfg k (now w)) as [es [e|s]]; cbn zeta;
    repeat case_match; try dropped.
  unfold owned in *. unfold_world_all.
  apply nodup_set_add; [assumption|]. rewrite elem_of_app in Ha. tauto.
Qed.

Lemma nodup_replaceSession_created i old k w :
  ownership w → NoDup (owned (replaceSession_created v cfg i old k w)).
Proof.
  intros [H Ha]. apply fresh_not_owned in Ha. unfold replaceSession_created.
  destruct (createSession v cfg k (now w)) as [es [e|s]]; cbn zeta;
    repeat case_match; try dropped.
  unfold owned in *. unfold_world_all.
  apply nodup_push; [dropped|].
  intros Hin. apply Ha. mem; rewrite elem_of_app; tauto.
Qed.

Lemma nodup_remove_stale l w :
  NoDup (owned w) →
  NoDup (owned
    (fold_left
       (λ w r, if decide (r ∈ available w)
               then emit (teardown (heap w) r)
                      (with_available (remove_first r (available w)) w)
               else w) l w)).
Proof.
  revert w. induction l as [|r l IH]; simpl; intros w H; [assumption|].
  apply IH. case_match; dropped.
Qed.

Lemma owned_replace_stale l w :
  owned (fold_left (λ w old, replaceSession old w) l w) = owned w.
Proof.
  revert w. induction l as [|r l IH]; simpl; intros w; [reflexivity|].
  rewrite IH. unfold replaceSession. case_match; reflexivity.
Qed.

Lemma nodup_healthTimer w :
  NoDup (owned w) → NoDup (owned (healthTimer v cfg w)).
Proof.
  intros H. unfold healthTimer. repeat case_match; try assumption.
  unfold performHealthCheck. cbn zeta. destruct v; rewrite owned_replenish.
  - apply nodup_remove_stale. assumption.
  - rewrite owned_replace_stale. assumption.
Qed.

Lemma nodup_disconnected r w :
  NoDup (owned w) → NoDup (owned (disconnected cfg r w)).
Proof.
  intros H. unfold disconnected. case_match; [|assumption]. cbn zeta.
  case_match; [rewrite owned_replenish|]; dropped.
Qed.

(** A step keeps the sets duplicate-free as long as a released session is
    not in [available]. *)
Lemma ownership_step_held ev w :
  ownership w →
  (∀ r e, ev = Release r e → r ∉ available w) →
  ownership (step v cfg ev w).
Proof.
  intros Ho Hev. split; [|apply allocated_step; apply Ho].
  pose proof Ho as [H Ha]. destruct ev; simpl in *.
  - rewrite owned_init. assumption.
  - rewrite owned_init_settled. assumption.
  - apply nodup_acquire. assumption.
  - case_match; [apply nodup_release; [eapply Hev; reflexivity|]|]; assumption.
  - apply nodup_shutdown.
  - repeat case_match; try assumption.
    + apply nodup_acquire_created; assumption.
    + apply nodup_addSession_created; assumption.
    + apply nodup_replaceSession_created; assumption.
  - repeat case_match; try assumption.
    unfold acquire_closed.
    change (NoDup (owned (waitOrThrow cfg c w))).
    rewrite owned_waitOrThrow. assumption.
  - rewrite owned_fire. assumption.
  - apply nodup_healthTimer. assumption.
  - apply nodup_disconnected. assumption.
  - assumption.
Qed.

Lemma ownership_step ev w :
  ownership w → permitted w ev → ownership (step v cfg ev w).
Proof.
  intros Ho Hev. apply ownership_step_held; [exact Ho|].
  intros r e ->. simpl in Hev. destruct Ho as [H _].
  unfold owned in H. apply NoDup_app in H as (_ & Hdisj & _).
  intros Ha. exact (Hdisj r Ha Hev).
Qed.

(** In every run that follows the borrow protocol, no session is held twice
    and every held session is an object of the heap. *)
Lemma ownership_run evs :
  follows_protocol v cfg evs newPool → ownership (run v cfg evs newPool).
Proof.
  apply run_invariant_protocol; [intros; apply ownership_step; assumption|].
  split; constructor.
Qed.

End Ownership.

(** *** Shutdown *)

Lemma closes_app t1 t2 : closes (t1 ++ t2) = closes t1 ++ closes t2.
Proof. apply omap_app. Qed.

Lemma stops_app t1 t2 : stops (t1 ++ t2) = stops t1 ++ stops t2.
Proof. apply omap_app. Qed.

Lemma closes_teardowns h l :
  Forall (λ r, (r < length h)%nat) l →
  closes (flat_map (teardown h) l) = l ∧
  length (stops (flat_map (teardown h) l)) = length l.
Proof.
  induction 1 as [|r l Hr _ [IH1 IH2]]; simpl; [auto|].
  rewrite closes_app, stops_app, length_app, IH1, IH2.
  apply lookup_lt_is_Some in Hr as [s Hs].
  unfold teardown. rewrite Hs. simpl. auto.
Qed.


Lemma shutdown_trace w :
  trace (shutdown w) =
    trace w ++ map (λ c, WaiterRejected c ErrShuttingDown) (waitQueue w)
            ++ flat_map (teardown (heap w)) (owned w).
Proof.
  unfold shutdown, owned. cbn zeta. unfold_world.
  destruct (healthCheckTimer w); unfold_world; rewrite <- app_assoc; reflexivity.
Qed.

Lemma world_eq w1 w2 :
  available w1 = available w2 → inUse w1 = inUse w2 →
  creating w1 = creating w2 → closed w1 = closed w2 →
  healthCheckTimer w1 = healthCheckTimer w2 → waitQueue w1 = waitQueue w2 →
  heap w1 = heap w2 → now w1 = now w2 → tasks w1 = tasks w2 →
  warmup w1 = warmup w2 → calls w1 = calls w2 → trace w1 = trace w2 →
  w1 = w2.
Proof. destruct w1, w2; simpl; intros; subst; reflexivity. Qed.


Lemma follows_protocol_app v cfg evs1 evs2 w :
  follows_protocol v cfg (evs1 ++ evs2) w ↔
  follows_protocol v cfg evs1 w ∧ follows_protocol v cfg evs2 (run v cfg evs1 w).
Proof.
  revert w. induction evs1 as [|ev evs1 IH]; simpl; intros w; [tauto|].
  rewrite IH. tauto.
Qed.

(** Under the borrow protocol a session that is not held is never held
    again: nobody is in a position to release it. *)
Lemma absent_run_protocol v cfg evs w r :
  (r < length (heap w))%nat → r ∉ owned w →
  follows_protocol v cfg evs w →
  r ∉ owned (run v cfg evs w).
Proof.
  revert w. induction evs as [|ev evs IH]; simpl; intros w Hr Hout Hp; [exact Hout|].
  destruct Hp as [Hev Hp].
  destruct (absent_step v cfg ev w r Hr Hout) as [Hr' Hout'].
  { intros e ->. simpl in Hev. apply Hout. unfold owned.
    rewrite elem_of_app. right. exact Hev. }
  apply IH; assumption.
Qed.


(** *** Suspended calls *)

Lemma keeps_refl i w : keeps i w w.
Proof. intros t Ht. exact Ht. Qed.

Lemma keeps_trans i w1 w2 w3 : keeps i w1 w2 → keeps i w2 w3 → keeps i w1 w3.
Proof. intros H1 H2 t Ht. auto. Qed.

(** Close a goal [keeps i w w'] once [w'] is an explicit update of [w] that
    settles no task, or only a task other than [i]. *)
Ltac kept :=
  unfold keeps; unfold_world_all;
  let t := fresh "t" in let Ht := fresh "Ht" in
  intros t Ht;
  repeat first [ rewrite list_lookup_insert_ne by congruence
               | apply lookup_app_l_Some ];
  exact Ht.

Section Suspended.

Variable v : Variant.
Variable cfg : PoolConfig.

Lemma keeps_addSession i w : keeps i w (addSession cfg w).
Proof. unfold addSession. repeat case_match; kept. Qed.

Lemma keeps_replenish i w : keeps i w (replenish cfg w).
Proof.
  unfold replenish. cbn zeta. case_match; [apply keeps_refl|apply keeps_addSession].
Qed.

Lemma keeps_giveToWaiterOrPush i r w : keeps i w (giveToWaiterOrPush cfg r w).
Proof. unfold giveToWaiterOrPush. repeat case_match; kept. Qed.

Lemma keeps_waitOrThrow i c w : keeps i w (waitOrThrow cfg c w).
Proof. unfold waitOrThrow. case_match; kept. Qed.

Lemma keeps_init i w : keeps i w (init cfg w).
Proof.
  unfold init. cbn zeta.
  assert (Hi : keeps i w (Nat.iter (Z.to_nat (size cfg)) (addSession cfg) w)).
  { induction (Z.to_nat (size cfg)) as [|n IH]; simpl; [apply keeps_refl|].
    eapply keeps_trans; [exact IH|apply keeps_addSession]. }
  revert Hi. generalize (Nat.iter (Z.to_nat (size cfg)) (addSession cfg) w).
  intros w1 Hi. exact Hi.
Qed.

Lemma keeps_init_settled i w : keeps i w (init_settled cfg w).
Proof. unfold init_settled. repeat case_match; kept. Qed.

Lemma keeps_acquire i w : keeps i w (acquire v cfg w).
Proof.
  unfold acquire. cbn zeta.
  destruct (popUsable v cfg _ _ _) as [ds [[r rest]|]]; [kept|].
  case_match; [kept|].
  eapply keeps_trans; [|apply keeps_waitOrThrow]. kept.
Qed.

Lemma keeps_release i r error w : keeps i w (release v cfg r error w).
Proof.
  unfold release. cbn zeta. case_match.
  - eapply keeps_trans; [|apply keeps_replenish]. kept.
  - eapply keeps_trans; [|apply keeps_giveToWaiterOrPush]. destruct v; kept.
Qed.

Lemma keeps_shutdown i w : keeps i w (shutdown w).
Proof. unfold shutdown. cbn zeta. case_match; kept. Qed.

Lemma keeps_addSession_created i j k w :
  i ≠ j → keeps i w (addSession_created v cfg j k w).
Proof.
  intros Hij. unfold addSession_created, giveToWaiterOrPush.
  destruct (createSession v cfg k (now w)) as [es [e|s]]; cbn zeta;
    repeat case_match; kept.
Qed.

Lemma keeps_acquire_created i j c k w :
  i ≠ j → keeps i w (acquire_created v cfg j c k w).
Proof.
  intros Hij. unfold acquire_created.
  destruct (createSession v cfg k (now w)) as [es [e|s]]; cbn zeta;
    repeat case_match; kept.
Qed.

Lemma keeps_replaceSession_created i j old k w :
  i ≠ j → keeps i w (replaceSession_created v cfg j old k w).
Proof.
  intros Hij. unfold replaceSession_created.
  destruct (createSession v cfg k (now w)) as [es [e|s]]; cbn zeta;
    repeat case_match; kept.
Qed.

Lemma keeps_remove_stale i l w :
  keeps i w
    (fold_left
       (λ w r, if decide (r ∈ available w)
               then emit (teardown (heap w) r)
                      (with_available (remove_first r (available w)) w)
               else w) l w).
Proof.
  revert w. induction l as [|r l IH]; simpl; intros w; [apply keeps_refl|].
  eapply keeps_trans; [|apply IH]. case_match; kept.
Qed.

Lemma keeps_replace_stale i l w :
  keeps i w (fold_left (λ w old, replaceSession old w) l w).
Proof.
  revert w. induction l as [|r l IH]; simpl; intros w; [apply keeps_refl|].
  eapply keeps_trans; [|apply IH]. unfold replaceSession. case_match; kept.
Qed.

Lemma keeps_healthTimer i w : keeps i w (healthTimer v cfg w).
Proof.
  unfold healthTimer. repeat case_match; try apply keeps_refl.
  unfold performHealthCheck. cbn zeta.
  destruct v; (eapply keeps_trans; [|apply keeps_replenish]).
  - apply keeps_remove_stale.
  - apply keeps_replace_stale.
Qed.

Lemma keeps_disconnected i r w : keeps i w (disconnected cfg r w).
Proof.
  unfold disconnected. case_match; [|apply keeps_refl]. cbn zeta.
  case_match; [eapply keeps_trans; [|apply keeps_replenish]|]; kept.
Qed.

Lemma keeps_fire i j w : i ≠ j → keeps i w (fire cfg j w).
Proof.
  intros Hij. unfold fire. repeat case_match; try apply keeps_refl;
    (eapply keeps_trans; [|apply keeps_addSession]); kept.
Qed.

(** A call waiting for its [closeSession] stays suspended until that close
    settles. *)
Lemma awaiting_close_step ev w i c :
  tasks w !! i = Some (AcquireAwaitClose c) →
  ev ≠ CloseSettled i →
  tasks (step v cfg ev w) !! i = Some (AcquireAwaitClose c).
Proof.
  intros Ht Hev. destruct ev; simpl.
  - apply keeps_init, Ht.
  - apply keeps_init_settled, Ht.
  - apply keeps_acquire, Ht.
  - case_match; [apply keeps_release|]; exact Ht.
  - apply keeps_shutdown, Ht.
  - destruct (decide (i0 = i)) as [->|Hne]; [rewrite Ht; exact Ht|].
    repeat case_match; try exact Ht.
    + apply keeps_acquire_created; [congruence|exact Ht].
    + apply keeps_addSession_created; [congruence|exact Ht].
    + apply keeps_replaceSession_created; [congruence|exact Ht].
  - assert (Hne : i ≠ i0) by congruence.
    repeat case_match; try exact Ht.
    + cut (keeps i w (acquire_closed cfg i0 c0 w)); [intros Hk; apply Hk, Ht|].
      unfold acquire_closed, waitOrThrow. case_match; kept.
    + cut (keeps i w (addSession_closed i0 w)); [intros Hk; apply Hk, Ht|].
      unfold addSession_closed. kept.
  - destruct (decide (i0 = i)) as [->|Hne].
    + unfold fire. rewrite Ht. exact Ht.
    + apply keeps_fire; [congruence|exact Ht].
  - apply keeps_healthTimer, Ht.
  - apply keeps_disconnected, Ht.
  - exact Ht.
Qed.

Lemma awaiting_close_run evs w i c :
  tasks w !! i = Some (AcquireAwaitClose c) →
  CloseSettled i ∉ evs →
  tasks (run v cfg evs w) !! i = Some (AcquireAwaitClose c).
Proof.
  revert w. induction evs as [|ev evs IH]; simpl; intros w Ht Hev; [exact Ht|].
  apply IH.
  - apply awaiting_close_step; [exact Ht|]. intros ->. apply Hev. constructor.
  - intros Hin. apply Hev. constructor. exact Hin.
Qed.

End Suspended.

(** *** On-demand creation that lands over capacity *)

(** C10. When the on-demand creation of [acquire()] settles with a session
    and [totalCount] exceeds [size], the session is closed and stopped, the
    two sets are left as they are, [creating] is decremented and the caller
    stays suspended on the close. Whatever happens until the close settles
    (nobody can release a session nobody received), the session is in
    neither set, and when the close settles the caller is pushed at the end
    of the wait queue if it is enabled and is thrown the pool-exhausted error
    otherwise. *)
Theorem over_capacity_after_on_demand_create v cfg w i c k es s evs :
  allocated w →
  tasks w !! i = Some (AcquireAwaitCreate c) →
  createSession v cfg k (now w) = (es, inr s) →
  size cfg < totalCount w →
  (∀ e, Release (length (heap w)) e ∉ evs) →
  CloseSettled i ∉ evs →
  let r := length (heap w) in
  let w1 := step v cfg (CreateSettled i k) w in
  let w2 := run v cfg evs w1 in
  let w3 := step v cfg (CloseSettled i) w2 in
  heap w1 !! r = Some s ∧
  trace w1 = trace w ++ es ++ [BrowserClose r; SdkStop (sessionId s)] ∧
  available w1 = available w ∧ inUse w1 = inUse w ∧
  creating w1 = creating w - 1 ∧
  tasks w1 !! i = Some (AcquireAwaitClose c) ∧
  (r ∉ owned w1) ∧ (r ∉ owned w2) ∧ (r ∉ owned w3) ∧
  (if enableWaitQueue cfg
   then waitQueue w3 = waitQueue w2 ++ [c] ∧
        trace w3 = trace w2 ++ [Enqueued c]
   else waitQueue w3 = waitQueue w2 ∧
        trace w3 = trace w2 ++ [Threw c ErrPoolExhausted]).
Proof.
  intros Hal Ht Hcs Hover Hrel Hclose. cbn zeta.
  pose proof (fresh_not_owned w Hal) as Hfresh.
  assert (Hlt : (i < length (tasks w))%nat) by (eapply lookup_lt_Some; exact Ht).
  assert (Hw1 : step v cfg (CreateSettled i k) w =
                become i (AcquireAwaitClose c)
                  (emit (teardown (heap w ++ [s]) (length (heap w)))
                     (with_creating (creating w - 1)
                        (with_heap (heap w ++ [s]) (emit es w))))).
  { simpl. rewrite Ht. unfold acquire_created. rewrite Hcs. cbn zeta.
    destruct (Z.gtb_spec (totalCount (with_heap (heap (emit es w) ++ [s]) (emit es w)))
                (size cfg)) as [_|Hle]; [reflexivity|].
    exfalso. revert Hle Hover. unfold totalCount. unfold_world. lia. }
  rewrite Hw1. clear Hw1.
  set (w1 := become i (AcquireAwaitClose c) _).
  assert (Hheap : heap w1 !! length (heap w) = Some s).
  { unfold w1. unfold_world. apply list_lookup_middle. reflexivity. }
  assert (Htask : tasks w1 !! i = Some (AcquireAwaitClose c)).
  { unfold w1. unfold_world. apply list_lookup_insert_eq. exact Hlt. }
  assert (Hout1 : length (heap w) ∉ owned w1) by exact Hfresh.
  assert (Hlen1 : (length (heap w) < length (heap w1))%nat).
  { unfold w1. unfold_world. rewrite length_app. simpl. lia. }
  destruct (absent_run v cfg evs w1 _ Hlen1 Hout1 Hrel) as [_ Hout2].
  pose proof (awaiting_close_run v cfg evs w1 i c Htask Hclose) as Htask2.
  set (w2 := run v cfg evs w1) in *.
  split_and!; try assumption.
  - unfold w1. unfold_world. unfold teardown.
    rewrite list_lookup_middle by reflexivity. simpl.
    rewrite <- app_assoc. reflexivity.
  - reflexivity.
  - reflexivity.
  - reflexivity.
  - simpl. rewrite Htask2. unfold acquire_closed.
    change (length (heap w) ∉ owned (waitOrThrow cfg c w2)).
    rewrite owned_waitOrThrow. exact Hout2.
  - simpl. rewrite Htask2. unfold acquire_closed, waitOrThrow.
    destruct (enableWaitQueue cfg); unfold_world; split; reflexivity.
Qed.

Lemma over_capacity_after_on_demand_create_witness :
  allocated (run Enhanced agingConfig overCapacityRace newPool) ∧
  tasks (run Enhanced agingConfig overCapacityRace newPool) !! 2%nat
    = Some (AcquireAwaitCreate 0) ∧
  size agingConfig < totalCount (run Enhanced agingConfig overCapacityRace newPool) ∧
  trace (step Enhanced agingConfig (CloseSettled 2)
           (run Enhanced agingConfig [Tick 5]
              (step Enhanced agingConfig (CreateSettled 2 (provisioned "b"))
                 (run Enhanced agingConfig overCapacityRace newPool))))
    = trace (run Enhanced agingConfig [Tick 5]
               (step Enhanced agingConfig (CreateSettled 2 (provisioned "b"))
                  (run Enhanced agingConfig overCapacityRace newPool)))
        ++ [Enqueued 0%nat].
Proof.
  assert (Hal : allocated (run Enhanced agingConfig overCapacityRace newPool))
    by (vm_compute; repeat constructor).
  assert (Ht : tasks (run Enhanced agingConfig overCapacityRace newPool) !! 2%nat
               = Some (AcquireAwaitCreate 0)) by (vm_compute; reflexivity).
  assert (Hcs : createSession Enhanced agingConfig (provisioned "b")
                  (now (run Enhanced agingConfig overCapacityRace newPool))
                = ([ConnectOverCDP "ws://cdp"],
                   inr (mkSession "b" "ws://cdp" plainBrowser 2000 0 (Some 2000)
                          None None))) by (vm_compute; reflexivity).
  assert (Hover : size agingConfig
                  < totalCount (run Enhanced agingConfig overCapacityRace newPool))
    by (vm_compute; reflexivity).
  assert (Hrel : ∀ e, Release (length (heap (run Enhanced agingConfig overCapacityRace newPool))) e
                      ∉ [Tick 5]).
  { intros e He. apply list_elem_of_singleton in He. discriminate. }
  assert (Hclose : CloseSettled 2 ∉ [Tick 5]).
  { intros He. apply list_elem_of_singleton in He. discriminate. }
  pose proof (over_capacity_after_on_demand_create Enhanced agingConfig _ 2 0
                (provisioned "b") _ _ [Tick 5] Hal Ht Hcs Hover Hrel Hclose) as H.
  cbn zeta in H.
  exact (conj Hal (conj Ht (conj Hover
          (proj2 (proj2 (proj2 (proj2 (proj2 (proj2 (proj2 (proj2 (proj2 (proj2 H))))))))))))).
Defined.

(** *** A closed pool *)

Lemma shutdown_rejects_every_waiter w :
  closed (shutdown w) = true ∧ waitQueue (shutdown w) = [] ∧
  ∀ c, c ∈ waitQueue w → WaiterRejected c ErrShuttingDown ∈ trace (shutdown w).
Proof.
  split_and!.
  - unfold shutdown. cbn zeta. unfold_world. destruct (healthCheckTimer w); reflexivity.
  - unfold shutdown. cbn zeta. unfold_world. destruct (healthCheckTimer w); reflexivity.
  - intros c Hc. rewrite shutdown_trace, !elem_of_app. right. left.
    apply list_elem_of_fmap. exists c. auto.
Qed.

Lemma closed_pool_background_creates_nothing v cfg w old :
  closed w = true →
  addSession cfg w = w ∧ replenish cfg w = w ∧ replaceSession old w = w ∧
  healthTimer v cfg w = w.
Proof.
  intros Hc. unfold replenish, addSession, replaceSession, healthTimer.
  cbn zeta. rewrite Hc. split_and!; try reflexivity; repeat case_match; reflexivity.
Qed.

(** [acquire()] never reads the [closed] flag. *)
Lemma acquire_ignores_closed v cfg b w :
  acquire v cfg (with_closed b w) = with_closed b (acquire v cfg w).
Proof.
  unfold acquire. cbn zeta. unfold_world.
  destruct (popUsable v cfg (now w) (heap w) (rev (available w))) as [ds [[r rest]|]].
  - apply world_eq; reflexivity.
  - unfold totalCount, waitOrThrow. unfold_world.
    repeat case_match; apply world_eq; reflexivity.
Qed.

(** C3, the code at the failing input: after [shutdown()] has set [closed],
    a first [acquire()] provisions a new remote session and returns it, and
    a second one is parked in the wait queue; neither is failed with the
    shutting-down error. *)
Theorem acquire_after_shutdown_creates_session :
  closed (run Base (defaultConfig 1) [Shutdown] newPool) = true ∧
  trace (run Base (defaultConfig 1) acquireAfterShutdown newPool)
    = [SdkCreate; ConnectOverCDP "ws://cdp"; Returned 0%nat 0%nat; Enqueued 1%nat] ∧
  trace (run Enhanced (defaultConfig 1) acquireAfterShutdown newPool)
    = [SdkCreate; ConnectOverCDP "ws://cdp"; Returned 0%nat 0%nat; Enqueued 1%nat] ∧
  closed (run Base (defaultConfig 1) acquireAfterShutdown newPool) = true ∧
  inUse (run Base (defaultConfig 1) acquireAfterShutdown newPool) = [0%nat] ∧
  waitQueue (run Base (defaultConfig 1) acquireAfterShutdown newPool) = [1%nat].
Proof. vm_compute. repeat split. Qed.

(** *** The health sweep *)

(** C4 fails as stated: the Base health sweep removes and closes the stale
    session at once; [available] drops from one session to none while the
    replenishing creation is only in flight. *)
Lemma base_health_check_retires_first :
  available (run Base agingConfig agedPool newPool) = [0%nat] ∧
  available (run Base agingConfig staleSweep newPool) = [] ∧
  tasks (run Base agingConfig staleSweep newPool) = [Done; AddAwaitCreate] ∧
  closes (trace (run Base agingConfig staleSweep newPool)) = [0%nat] ∧
  creating (run Base agingConfig staleSweep newPool) = 1.
Proof. vm_compute. repeat split. Qed.

Lemma replace_stale_spec l w :
  closed w = false →
  let w' := fold_left (λ w old, replaceSession old w) l w in
  available w' = available w ∧ inUse w' = inUse w ∧ creating w' = creating w ∧
  closed w' = false ∧
  tasks w' = tasks w ++ map ReplaceAwaitCreate l ∧
  trace w' = trace w ++ map (λ _, SdkCreate) l.
Proof.
  revert w. induction l as [|old l IH]; intros w Hc; cbn zeta.
  - simpl. rewrite !app_nil_r. split_and!; auto.
  - simpl.
    assert (Hr : replaceSession old w = createSession_call (ReplaceAwaitCreate old) w)
      by (unfold replaceSession; rewrite Hc; reflexivity).
    rewrite Hr.
    destruct (IH (createSession_call (ReplaceAwaitCreate old) w) Hc)
      as (Ha & Hi & Hcr & Hcl & Ht & Htr).
    rewrite Ha, Hi, Hcr, Hcl, Ht, Htr. unfold_world.
    rewrite <- !app_assoc. split_and!; auto.
Qed.

Lemma closes_creates {A} (l : list A) : closes (map (λ _, SdkCreate) l) = [].
Proof. induction l; simpl; auto. Qed.

Lemma enhanced_sweep_spec cfg w :
  closed w = false →
  let stale := filter (λ r, usable Enhanced cfg w r = false) (available w) in
  let w' := performHealthCheck Enhanced cfg w in
  available w' = available w ∧ inUse w' = inUse w ∧
  ∃ rest, tasks w' = tasks w ++ map ReplaceAwaitCreate stale ++ rest ∧
          trace w' = trace w ++ map (λ _, SdkCreate) stale
                             ++ map (λ _, SdkCreate) rest.
Proof.
  intros Hc. cbn zeta. unfold performHealthCheck. cbn zeta.
  destruct (replace_stale_spec
              (filter (λ r, usable Enhanced cfg w r = false) (available w)) w Hc)
    as (Ha & Hi & _ & Hcl & Hts & Htr). cbn zeta in *.
  revert Ha Hi Hcl Hts Htr.
  generalize (fold_left (λ w old, replaceSession old w)
                (filter (λ r, usable Enhanced cfg w r = false) (available w)) w).
  intros w2 Ha Hi Hcl Hts Htr.
  unfold replenish, addSession. cbn zeta. rewrite Hcl.
  repeat case_match; unfold_world; rewrite ?Ha, ?Hi, ?Hts, ?Htr;
    (split; [reflexivity|]; split; [reflexivity|]);
    [exists []|exists []|exists [AddAwaitCreate]];
    simpl; rewrite ?app_nil_r, <- ?app_assoc; split; reflexivity.
Qed.

Lemma remove_first_absent r a : r ∉ a → remove_first r a = a.
Proof.
  induction a as [|x a IH]; simpl; intros Hr; [reflexivity|].
  apply not_elem_of_cons in Hr as [Hne Hr].
  destruct (decide (x = r)); [congruence|]. rewrite IH by assumption. reflexivity.
Qed.

Lemma replacement_failure_evicts cfg w0 i old k es e :
  tasks w0 !! i = Some (ReplaceAwaitCreate old) →
  createSession Enhanced cfg k (now w0) = (es, inl e) →
  available (step Enhanced cfg (CreateSettled i k) w0)
    = remove_first old (available w0) ∧
  heap (step Enhanced cfg (CreateSettled i k) w0) = heap w0.
Proof.
  intros Ht Hcs. simpl. rewrite Ht. unfold replaceSession_created. rewrite Hcs.
  cbn zeta. case_match; unfold_world; split; try reflexivity.
  symmetry. apply remove_first_absent. assumption.
Qed.

(** C4 (amended). In the Enhanced variant a health sweep on an open pool
    leaves [available] and [inUse] as they are, closes nothing, and starts
    one [createSession] per unusable available session. When such a creation
    succeeds, the old session is removed from [available] (if it is still
    there), the new one is pushed and the old one is closed: [available]
    does not get shorter. When it fails, the old session is removed and no
    session is admitted. *)
Theorem replace_before_retire cfg w w0 i old k :
  closed w = false →
  tasks w0 !! i = Some (ReplaceAwaitCreate old) →
  let stale := filter (λ r, usable Enhanced cfg w r = false) (available w) in
  let w' := performHealthCheck Enhanced cfg w in
  let w1 := step Enhanced cfg (CreateSettled i k) w0 in
  (* the sweep retires nothing and starts one creation per stale session *)
  available w' = available w ∧ inUse w' = inUse w ∧
  closes (trace w') = closes (trace w) ∧
  (∃ rest, tasks w' = tasks w ++ map ReplaceAwaitCreate stale ++ rest ∧
           trace w' = trace w ++ map (λ _, SdkCreate) stale
                              ++ map (λ _, SdkCreate) rest) ∧
  match createSession Enhanced cfg k (now w0) with
  | (es, inr s) =>
      (* a replacement that succeeds takes the place of the old session *)
      available w1 = remove_first old (available w0) ++ [length (heap w0)] ∧
      heap w1 !! length (heap w0) = Some (attachHandler cfg s) ∧
      (length (available w0) ≤ length (available w1))%nat ∧
      trace w1 = trace w0 ++ es ++ teardown (heap w1) old
  | (es, inl e) =>
      (* a replacement that fails admits nothing *)
      available w1 = remove_first old (available w0) ∧
      heap w1 = heap w0
  end.
Proof.
  intros Hc Ht. cbn zeta.
  destruct (enhanced_sweep_spec cfg w Hc) as (Ha & Hi & rest & Hts & Htr).
  cbn zeta in *. split_and!.
  - exact Ha.
  - exact Hi.
  - rewrite Htr, !closes_app, !closes_creates, !app_nil_r. reflexivity.
  - exists rest. split; assumption.
  - destruct (createSession Enhanced cfg k (now w0)) as [es [e|s]] eqn:Hcs.
    + exact (replacement_failure_evicts cfg w0 i old k es e Ht Hcs).
    + assert (Hw1 : step Enhanced cfg (CreateSettled i k) w0 =
        become i Done
          (emit (teardown (heap w0 ++ [attachHandler cfg s]) old)
             (with_available (remove_first old (available w0) ++ [length (heap w0)])
                (with_heap (heap w0 ++ [attachHandler cfg s]) (emit es w0))))).
      { simpl. rewrite Ht. unfold replaceSession_created. rewrite Hcs. reflexivity. }
      rewrite Hw1. clear Hw1. split_and!.
      * reflexivity.
      * unfold_world. apply list_lookup_middle. reflexivity.
      * unfold_world. rewrite length_app. simpl.
        pose proof (length_remove_first_le old (available w0)).
        clear -Ht. induction (available w0) as [|x a IH]; simpl; [lia|].
        destruct (decide (x = old)); simpl; lia.
      * unfold_world. rewrite <- app_assoc. reflexivity.
Qed.

Lemma replace_before_retire_witness :
  closed (run Enhanced agingConfig agedPool newPool) = false ∧
  tasks (run Enhanced agingConfig staleSweep newPool) !! 1%nat
    = Some (ReplaceAwaitCreate 0) ∧
  available (performHealthCheck Enhanced agingConfig
               (run Enhanced agingConfig agedPool newPool))
    = available (run Enhanced agingConfig agedPool newPool).
Proof.
  assert (Hc : closed (run Enhanced agingConfig agedPool newPool) = false)
    by (vm_compute; reflexivity).
  assert (Ht : tasks (run Enhanced agingConfig staleSweep newPool) !! 1%nat
               = Some (ReplaceAwaitCreate 0)) by (vm_compute; reflexivity).
  exact (conj Hc (conj Ht
          (proj1 (replace_before_retire agingConfig _ _ 1 0 (provisioned "c")
                    Hc Ht)))).
Defined.

(** *** Concrete runs *)


(** C6 fails as stated: in the Base variant a usable session released at
    time 10 goes back to [available] with no last-used timestamp. *)
Lemma base_release_refreshes_no_timestamp :
  usable Base (defaultConfig 2) (run Base (defaultConfig 2) borrowed newPool) 1 = true ∧
  inUse (run Base (defaultConfig 2) borrowed newPool) = [1%nat] ∧
  now (run Base (defaultConfig 2) borrowAndReturn newPool) = 10 ∧
  available (run Base (defaultConfig 2) borrowAndReturn newPool) = [0%nat; 1%nat] ∧
  lastUsedAt <$> heap (run Base (defaultConfig 2) borrowAndReturn newPool) !! 1%nat
    = Some None ∧
  lastUsedAt <$> heap (run Enhanced (defaultConfig 2) borrowAndReturn newPool) !! 1%nat
    = Some (Some 10).
Proof. vm_compute. repeat split. Qed.

Lemma release_usable_session_witness :
  heap (run Enhanced (defaultConfig 2) borrowed newPool) !! 1%nat
    = Some (mkSession "b" "ws://cdp" (mkBrowser true true true None None)
              0 1 (Some 0) None None) ∧
  usable Enhanced (defaultConfig 2)
    (run Enhanced (defaultConfig 2) borrowed newPool) 1 = true ∧
  heap (release Enhanced (defaultConfig 2) 1 false
          (run Enhanced (defaultConfig 2) borrowed newPool)) !! 1%nat
    = Some (mkSession "b" "ws://cdp" (mkBrowser true true true None None)
              0 1 (Some 10) None None).
Proof.
  assert (Hs : heap (run Enhanced (defaultConfig 2) borrowed newPool) !! 1%nat
               = Some (mkSession "b" "ws://cdp" (mkBrowser true true true None None)
                         0 1 (Some 0) None None)) by (vm_compute; reflexivity).
  assert (Hu : usable Enhanced (defaultConfig 2)
                 (run Enhanced (defaultConfig 2) borrowed newPool) 1 = true)
    by (vm_compute; reflexivity).
  pose proof (release_usable_session Enhanced (defaultConfig 2) _ 1 _ Hs Hu) as H.
  cbn zeta in H.
  assert (Hq : waitQueue (run Enhanced (defaultConfig 2) borrowed newPool) = [])
    by (vm_compute; reflexivity).
  rewrite Hq in H. 
  exact (conj Hs (conj Hu (proj1 (proj2 (proj2 (proj2 (proj2 H))))))).
Defined.

Lemma acquire_fails_when_exhausted_witness :
  enableWaitQueue noQueueConfig = false ∧
  Forall (λ r, usable Base noQueueConfig (run Base noQueueConfig saturated newPool) r = false)
         (available (run Base noQueueConfig saturated newPool)) ∧
  size noQueueConfig
    < Z.of_nat (length (inUse (run Base noQueueConfig saturated newPool)))
      + creating (run Base noQueueConfig saturated newPool) + 1 ∧
  tasks (acquire Base noQueueConfig (run Base noQueueConfig saturated newPool))
    = tasks (run Base noQueueConfig saturated newPool).
Proof.
  assert (Hq : enableWaitQueue noQueueConfig = false) by reflexivity.
  assert (Hall : Forall (λ r, usable Base noQueueConfig
                                (run Base noQueueConfig saturated newPool) r = false)
                        (available (run Base noQueueConfig saturated newPool))).
  { assert (Ha : available (run Base noQueueConfig saturated newPool) = [])
      by (vm_compute; reflexivity).
    rewrite Ha. constructor. }
  assert (Hcap : size noQueueConfig
                 < Z.of_nat (length (inUse (run Base noQueueConfig saturated newPool)))
                   + creating (run Base noQueueConfig saturated newPool) + 1)
    by (vm_compute; reflexivity).
  pose proof (acquire_fails_when_exhausted Base noQueueConfig _ Hq Hall Hcap) as H.
  cbn zeta in H.
  exact (conj Hq (conj Hall (conj Hcap (proj1 (proj2 H))))).
Defined.

(** ** Further properties of the pool *)

(** *** Background creation: guards *)

Lemma addSession_unfold cfg w :
  addSession cfg w =
    (if closed w || (size cfg <=? totalCount w)
     then w
     else createSession_call AddAwaitCreate (with_creating (creating w + 1) w)).
Proof.
  unfold addSession. destruct (closed w); [reflexivity|]. cbn [orb]. cbn zeta.
  destruct (Z.leb_spec (size cfg) (totalCount w)) as [Hle|Hgt];
    destruct (Z.gtb_spec (totalCount (with_creating (creating w + 1) w)) (size cfg))
      as [Hc|Hc]; try reflexivity.
  - apply world_eq; unfold_world; try reflexivity. lia.
  - exfalso. revert Hc Hle. unfold totalCount. unfold_world. lia.
  - exfalso. revert Hc Hgt. unfold totalCount. unfold_world. lia.
Qed.

Lemma replenish_addSession cfg w : replenish cfg w = addSession cfg w.
Proof.
  unfold replenish. cbn zeta.
  destruct (Z.leb_spec (size cfg - totalCount w) 0) as [Hle|Hgt]; [|reflexivity].
  rewrite addSession_unfold. destruct (Z.leb_spec (size cfg) (totalCount w)); [|lia].
  rewrite orb_true_r. reflexivity.
Qed.

(** X1. [addSession()] starts a creation exactly when the pool is open and
    [totalCount] is below [size]; otherwise it returns the pool as it found
    it ([creating] is put back). [replenish()] is then the same function:
    its own deficit test decides nothing that this guard would not. *)
Theorem addSession_guard cfg w :
  addSession cfg w =
    (if closed w || (size cfg <=? totalCount w)
     then w
     else createSession_call AddAwaitCreate (with_creating (creating w + 1) w)) ∧
  replenish cfg w = addSession cfg w.
Proof. split; [apply addSession_unfold|apply replenish_addSession]. Qed.

(** *** Release of a session that is retired *)

(** X2. [release(session, error)] with the error flag, or of a session that
    is no longer usable: the session leaves the in-use set, is closed and
    stopped, and is not pushed back; no waiter is served; one replacement
    creation is started exactly when the pool is open and then below
    [size]. *)
Theorem release_retires_session v cfg w r s error :
  heap w !! r = Some s →
  error = true ∨ usable v cfg w r = false →
  let w' := release v cfg r error w in
  let starts := negb (closed w) &&
                (Z.of_nat (length (available w))
                 + Z.of_nat (length (set_delete r (inUse w)))
                 + creating w <? size cfg) in
  inUse w' = set_delete r (inUse w) ∧
  available w' = available w ∧
  waitQueue w' = waitQueue w ∧
  heap w' = heap w ∧
  creating w' = (if starts then creating w + 1 else creating w) ∧
  tasks w' = tasks w ++ (if starts then [AddAwaitCreate] else []) ∧
  closes (trace w') = closes (trace w) ++ [r] ∧
  stops (trace w') = stops (trace w) ++ [sessionId s] ∧
  handoffs (trace w') = handoffs (trace w).
Proof.
  intros Hs Hcase. cbn zeta. unfold release. cbn zeta.
  change (usable v cfg (with_inUse (set_delete r (inUse w)) w) r)
    with (usable v cfg w r).
  assert (Hcond : error || negb (usable v cfg w r) = true).
  { destruct Hcase as [->| ->]; [reflexivity|apply orb_true_r]. }
  rewrite Hcond.
  rewrite replenish_addSession, addSession_unfold. unfold totalCount, teardown. unfold_world. rewrite Hs. simpl.
  destruct (closed w); cbn [orb negb andb].
  - unfold_world. rewrite closes_app, stops_app, handoffs_app, !app_nil_r.
    split_and!; reflexivity.
  - destruct (Z.leb_spec (size cfg)
      (Z.of_nat (length (available w)) + Z.of_nat (length (set_delete r (inUse w)))
       + creating w)) as [Hle|Hgt].
    + destruct (Z.ltb_spec (Z.of_nat (length (available w))
         + Z.of_nat (length (set_delete r (inUse w))) + creating w) (size cfg)); [lia|].
      unfold_world. rewrite closes_app, stops_app, handoffs_app, !app_nil_r.
      split_and!; reflexivity.
    + destruct (Z.ltb_spec (Z.of_nat (length (available w))
         + Z.of_nat (length (set_delete r (inUse w))) + creating w) (size cfg)); [|lia].
      unfold_world. rewrite !closes_app, !stops_app, !handoffs_app. simpl.
      rewrite !app_nil_r. split_and!; reflexivity.
Qed.

Lemma release_retires_session_witness :
  heap (run Base singleUseConfig warmAcquire newPool) !! 0%nat
    = Some (mkSession "a" "ws://cdp" (mkBrowser true true true None None)
              0 1 None None None) ∧
  usable Base singleUseConfig (run Base singleUseConfig warmAcquire newPool) 0 = false ∧
  available (release Base singleUseConfig 0 false
               (run Base singleUseConfig warmAcquire newPool))
    = available (run Base singleUseConfig warmAcquire newPool).
Proof.
  assert (Hs : heap (run Base singleUseConfig warmAcquire newPool) !! 0%nat
    = Some (mkSession "a" "ws://cdp" (mkBrowser true true true None None)
              0 1 None None None)) by (vm_compute; reflexivity).
  assert (Hu : usable Base singleUseConfig
                 (run Base singleUseConfig warmAcquire newPool) 0 = false)
    by (vm_compute; reflexivity).
  exact (conj Hs (conj Hu
          (proj1 (proj2 (release_retires_session Base singleUseConfig _ 0 _ false
                           Hs (or_intror Hu)))))).
Defined.

(** *** Outcomes of a creation *)

Lemma acquire_miss_with_room v cfg w :
  Forall (λ r, usable v cfg w r = false) (available w) →
  Z.of_nat (length (inUse w)) + creating w + 1 ≤ size cfg →
  acquire v cfg w
  = createSession_call (AcquireAwaitCreate (calls w))
      (with_creating (creating w + 1)
         (with_available []
            (emit (flat_map (teardown (heap w)) (rev (available w)))
               (with_calls (S (calls w)) w)))).
Proof.
  intros Hall Hroom. unfold acquire. cbn zeta.
  change (now (with_calls (S (calls w)) w)) with (now w).
  change (heap (with_calls (S (calls w)) w)) with (heap w).
  change (available (with_calls (S (calls w)) w)) with (available w).
  rewrite (popUsable_none v cfg (now w) (heap w) (rev (available w)))
    by (apply Forall_rev; exact Hall).
  unfold totalCount. unfold_world. cbn [length].
  match goal with
  | |- context [?a <=? ?b] => destruct (Z.leb_spec a b) as [Hle|Hgt]
  end; [reflexivity|]. exfalso. revert Hgt. lia.
Qed.

(** X3. An [acquire()] that has to create on demand and whose creation
    fails leaves the pool's accounting as it found it: the error is thrown
    to that caller, [creating] is back at its value, no session enters a
    set, the caller is not parked in the wait queue, and no retry is
    scheduled. *)
Theorem failed_on_demand_acquire_restores_pool v cfg w k es e :
  Forall (λ r, usable v cfg w r = false) (available w) →
  Z.of_nat (length (inUse w)) + creating w + 1 ≤ size cfg →
  createSession v cfg k (now w) = (es, inl e) →
  let w' := run v cfg [Acquire; CreateSettled (length (tasks w)) k] w in
  creating w' = creating w ∧
  inUse w' = inUse w ∧ waitQueue w' = waitQueue w ∧ heap w' = heap w ∧
  available w' = [] ∧
  tasks w' = tasks w ++ [Done] ∧
  closes (trace w')
  = closes (trace w) ++ closes (flat_map (teardown (heap w)) (rev (available w))) ∧
  enqueues (trace w') = enqueues (trace w) ∧
  last (trace w') = Some (Threw (calls w) e).
Proof.
  intros Hall Hroom Hcs. cbn zeta. cbn [run fold_left step].
  rewrite (acquire_miss_with_room v cfg w Hall Hroom). unfold_world.
  rewrite lookup_app_r by lia.
  replace (length (tasks w) - length (tasks w))%nat with 0%nat by lia.
  cbn [lookup list_lookup]. unfold acquire_created. unfold_world.
  rewrite Hcs. unfold_world.
  rewrite insert_app_r_alt by lia.
  replace (length (tasks w) - length (tasks w))%nat with 0%nat by lia.
  cbn [insert list_insert].
  pose proof (createSession_silent v cfg k (now w)) as [_ Hq].
  assert (Hcl : closes (createSession v cfg k (now w)).1 = []).
  { unfold createSession. repeat case_match; simplify_eq; reflexivity. }
  rewrite Hcs in Hq, Hcl. simpl in Hq, Hcl.
  rewrite !closes_app, !enqueues_app, Hq, Hcl, (proj2 (teardowns_silent _ _)).
  simpl. rewrite !app_nil_r, last_snoc.
  split_and!; try reflexivity. lia.
Qed.

Lemma failed_on_demand_acquire_restores_pool_witness :
  Forall (λ r, usable Base (defaultConfig 1) newPool r = false) (available newPool) ∧
  Z.of_nat (length (inUse newPool)) + creating newPool + 1 ≤ size (defaultConfig 1) ∧
  creating (run Base (defaultConfig 1)
              [Acquire; CreateSettled (length (tasks newPool)) (unreachable "s-1")]
              newPool)
  = creating newPool.
Proof.
  assert (Hall : Forall (λ r, usable Base (defaultConfig 1) newPool r = false)
                   (available newPool)) by constructor.
  assert (Hroom : Z.of_nat (length (inUse newPool)) + creating newPool + 1
                  ≤ size (defaultConfig 1)) by (vm_compute; discriminate).
  assert (Hcs : createSession Base (defaultConfig 1) (unreachable "s-1") (now newPool)
                = ([ConnectOverCDP "ws://cdp"],
                   inl (ErrCollaborator "connect ECONNREFUSED")))
    by (vm_compute; reflexivity).
  exact (conj Hall (conj Hroom
          (proj1 (failed_on_demand_acquire_restores_pool Base (defaultConfig 1)
                    newPool (unreachable "s-1") _ _ Hall Hroom Hcs)))).
Defined.

(** X4. When a background creation ([addSession]) fails: the
    longest-waiting caller, if the wait queue is enabled and not empty, is
    rejected with that error; [creating] is decremented; a retry after
    5000 ms is scheduled exactly when the pool is open and [totalCount],
    which still counts the failed creation, is below [size]. So when the
    creations in flight fill the pool ([creating >= size], as after [init()]
    of a pool whose sets are empty) the first failure schedules no retry. *)
Theorem background_failure cfg v w i k es e :
  tasks w !! i = Some AddAwaitCreate →
  createSession v cfg k (now w) = (es, inl e) →
  let w' := step v cfg (CreateSettled i k) w in
  let retry := negb (closed w) && (totalCount w <? size cfg) in
  creating w' = creating w - 1 ∧
  available w' = available w ∧ inUse w' = inUse w ∧ heap w' = heap w ∧
  tasks w' = <[i := Done]> (tasks w ++ (if retry then [Retry (now w + 5000)] else [])) ∧
  (match enableWaitQueue cfg, waitQueue w with
   | true, c :: q => waitQueue w' = q ∧ trace w' = trace w ++ es ++ [WaiterRejected c e]
   | _, _ => waitQueue w' = waitQueue w ∧ trace w' = trace w ++ es
   end) ∧
  (size cfg ≤ creating w → retry = false).
Proof.
  intros Ht Hcs. cbn zeta. simpl. rewrite Ht. unfold addSession_created.
  rewrite Hcs. cbn zeta.
  change (waitQueue (emit es w)) with (waitQueue w).
  assert (Hfull : size cfg ≤ creating w →
                  negb (closed w) && (totalCount w <? size cfg) = false).
  { intros Hfull. apply andb_false_iff. right. apply Z.ltb_ge.
    unfold totalCount. lia. }
  revert Hfull. unfold totalCount.
  destruct (enableWaitQueue cfg), (waitQueue w) as [|c q] eqn:Hq; unfold_world;
    destruct (negb (closed w) &&
              (Z.of_nat (length (available w)) + Z.of_nat (length (inUse w))
               + creating w <? size cfg));
    unfold_world; rewrite ?app_nil_r, <- ?app_assoc, ?Hq; intros Hfull;
    split_and!; try reflexivity; exact Hfull.
Qed.

Lemma background_failure_witness :
  tasks (run Base (defaultConfig 1) [Init] newPool) !! 0%nat = Some AddAwaitCreate ∧
  (size (defaultConfig 1) ≤ creating (run Base (defaultConfig 1) [Init] newPool) →
   negb (closed (run Base (defaultConfig 1) [Init] newPool)) &&
   (totalCount (run Base (defaultConfig 1) [Init] newPool) <? size (defaultConfig 1))
   = false).
Proof.
  assert (Ht : tasks (run Base (defaultConfig 1) [Init] newPool) !! 0%nat
               = Some AddAwaitCreate) by (vm_compute; reflexivity).
  assert (Hcs : createSession Base (defaultConfig 1) (unreachable "s-1")
                  (now (run Base (defaultConfig 1) [Init] newPool))
                = ([ConnectOverCDP "ws://cdp"],
                   inl (ErrCollaborator "connect ECONNREFUSED")))
    by (vm_compute; reflexivity).
  exact (conj Ht
          (proj2 (proj2 (proj2 (proj2 (proj2 (proj2
             (background_failure (defaultConfig 1) Base _ 0
                (unreachable "s-1") _ _ Ht Hcs)))))))).
Defined.

(** X5. When a background creation ([addSession]) succeeds on an open pool
    within capacity: the new session, with the disconnect listener attached
    when handling is enabled, is handed to the longest-waiting caller (use
    count 1, in the in-use set) if the wait queue is enabled and not empty,
    and is pushed on [available] otherwise; [creating] is decremented; the
    "continue filling" callback is scheduled exactly when
    [totalCount + 1 < size] for the [totalCount] read before the session was
    admitted, which still counts this creation: with exactly one more slot
    to fill, nothing is scheduled. *)
Theorem background_success cfg v w i k es s :
  tasks w !! i = Some AddAwaitCreate →
  createSession v cfg k (now w) = (es, inr s) →
  closed w = false → totalCount w ≤ size cfg → allocated w →
  let r := length (heap w) in
  let w' := step v cfg (CreateSettled i k) w in
  let more := totalCount w + 1 <? size cfg in
  creating w' = creating w - 1 ∧
  tasks w' = <[i := Done]> (tasks w ++ (if more then [Immediate] else [])) ∧
  (match enableWaitQueue cfg, waitQueue w with
   | true, c :: q =>
       waitQueue w' = q ∧ inUse w' = inUse w ++ [r] ∧ available w' = available w ∧
       heap w' = heap w ++ [with_useCount (useCount s + 1) (attachHandler cfg s)] ∧
       trace w' = trace w ++ es ++ [WaiterResolved c r]
   | _, _ =>
       waitQueue w' = waitQueue w ∧ inUse w' = inUse w ∧
       available w' = available w ++ [r] ∧
       heap w' = heap w ++ [attachHandler cfg s] ∧
       trace w' = trace w ++ es
   end).
Proof.
  intros Ht Hcs Hopen Hcap Halloc. cbn zeta. simpl. rewrite Ht.
  unfold addSession_created. rewrite Hcs. cbn zeta.
  pose proof (fresh_not_owned w Halloc) as Hfresh.
  unfold owned in Hfresh. apply not_elem_of_app in Hfresh as [_ Hfresh].
  change (closed (with_heap (heap (emit es w) ++ [attachHandler cfg s]) (emit es w)))
    with (closed w).
  rewrite Hopen.
  change (totalCount (with_heap (heap (emit es w) ++ [attachHandler cfg s]) (emit es w)))
    with (totalCount w).
  destruct (Z.gtb_spec (totalCount w) (size cfg)) as [Hgt|_]; [lia|].
  unfold giveToWaiterOrPush.
  change (waitQueue (with_heap (heap (emit es w) ++ [attachHandler cfg s]) (emit es w)))
    with (waitQueue w).
  revert Hcap. unfold totalCount.
  destruct (enableWaitQueue cfg), (waitQueue w) as [|c q] eqn:Hq; unfold_world;
    rewrite ?(set_add_fresh _ _ Hfresh), ?length_app, ?Hopen, ?andb_true_r;
    cbn [length]; intros Hcap;
    replace (Z.of_nat (length (available w) + 1)) with (Z.of_nat (length (available w)) + 1)
      by lia;
    replace (Z.of_nat (length (inUse w) + 1)) with (Z.of_nat (length (inUse w)) + 1)
      by lia;
    match goal with
    | |- context [?a + 1 + ?b + ?c <? ?d] =>
        replace (a + 1 + b + c) with (a + b + c + 1) by lia
    | |- context [?a + (?b + 1) + ?c <? ?d] =>
        replace (a + (b + 1) + c) with (a + b + c + 1) by lia
    end;
    destruct (_ <? size cfg); unfold_world;
    rewrite ?app_nil_r, <- ?app_assoc, ?Hq; split_and!; try reflexivity;
    rewrite alter_app_r_alt by (simpl; lia);
    replace (length (heap w) - length (heap w))%nat with 0%nat by lia;
    simpl; unfold attachHandler; destruct (_ && _); reflexivity.
Qed.

Lemma background_success_witness :
  tasks (run Base (defaultConfig 2) [Init] newPool) !! 0%nat = Some AddAwaitCreate ∧
  closed (run Base (defaultConfig 2) [Init] newPool) = false ∧
  totalCount (run Base (defaultConfig 2) [Init] newPool) ≤ size (defaultConfig 2) ∧
  creating (step Base (defaultConfig 2) (CreateSettled 0 (provisioned "a"))
              (run Base (defaultConfig 2) [Init] newPool))
  = creating (run Base (defaultConfig 2) [Init] newPool) - 1.
Proof.
  assert (Ht : tasks (run Base (defaultConfig 2) [Init] newPool) !! 0%nat
               = Some AddAwaitCreate) by (vm_compute; reflexivity).
  assert (Hcs : createSession Base (defaultConfig 2) (provisioned "a")
                  (now (run Base (defaultConfig 2) [Init] newPool))
                = ([ConnectOverCDP "ws://cdp"],
                   inr (mkSession "a" "ws://cdp" plainBrowser 0 0 None None None)))
    by (vm_compute; reflexivity).
  assert (Hopen : closed (run Base (defaultConfig 2) [Init] newPool) = false)
    by (vm_compute; reflexivity).
  assert (Hcap : totalCount (run Base (defaultConfig 2) [Init] newPool)
                 ≤ size (defaultConfig 2)) by (vm_compute; discriminate).
  assert (Halloc : allocated (run Base (defaultConfig 2) [Init] newPool))
    by (vm_compute; constructor).
  exact (conj Ht (conj Hopen (conj Hcap
          (proj1 (background_success (defaultConfig 2) Base _ 0
                    (provisioned "a") _ _ Ht Hcs Hopen Hcap Halloc))))).
Defined.

(** *** The disconnect listener *)

Lemma remove_first_nodup r a : NoDup a → r ∉ remove_first r a.
Proof.
  induction 1 as [|x a Hx Ha IH]; simpl; [apply not_elem_of_nil|].
  destruct (decide (x = r)) as [->|Hne]; [exact Hx|].
  rewrite not_elem_of_cons. split; [congruence|exact IH].
Qed.

Lemma lookup_alter_same (f : PooledSession → PooledSession) (r : nat)
    (h : list PooledSession) s :
  h !! r = Some s → alter f r h !! r = Some (f s).
Proof.
  intros H. rewrite list_lookup_alter, H. simpl.
  rewrite decide_True by reflexivity. reflexivity.
Qed.

(** X6. When the browser of a session that carries the pool's disconnect
    listener loses its connection, the session is removed from whichever
    set holds it (also from the in-use set, while a client still works with
    it), it is closed and stopped once, it is unusable from then on, and at
    most one replacement creation is started. *)
Theorem disconnect_evicts_session v cfg w r s :
  heap w !! r = Some s →
  listener (browser s) = true →
  NoDup (available w) →
  let w' := step v cfg (Disconnected r) w in
  available w' = remove_first r (available w) ∧
  inUse w' = set_delete r (inUse w) ∧
  (r ∉ owned w') ∧
  usable v cfg w' r = false ∧
  closes (trace w') = closes (trace w) ++ [r] ∧
  stops (trace w') = stops (trace w) ++ [sessionId s] ∧
  creating w ≤ creating w' ≤ creating w + 1.
Proof.
  intros Hs Hl Hnd. cbn zeta. simpl. unfold disconnected. rewrite Hs, Hl. cbn zeta.
  rewrite replenish_addSession, addSession_unfold.
  assert (Hout : r ∉ remove_first r (available w) ++ set_delete r (inUse w)).
  { rewrite not_elem_of_app. split;
      [apply remove_first_nodup; exact Hnd|apply not_elem_of_set_delete]. }
  unfold usable, owned, teardown. unfold_world.
  rewrite (lookup_alter_same _ _ _ _ Hs). simpl.
  destruct (closed w || _); unfold_world; rewrite ?(lookup_alter_same _ _ _ _ Hs); simpl;
    rewrite ?closes_app, ?stops_app, ?app_nil_r; simpl; rewrite ?app_nil_r;
    split_and!; try reflexivity; try exact Hout; try lia.
Qed.

Lemma disconnect_evicts_session_witness :
  heap (run Base (defaultConfig 1) warmAcquire newPool) !! 0%nat
    = Some (mkSession "a" "ws://cdp" (mkBrowser true true true None None)
              0 1 None None None) ∧
  NoDup (available (run Base (defaultConfig 1) warmAcquire newPool)) ∧
  inUse (step Base (defaultConfig 1) (Disconnected 0)
           (run Base (defaultConfig 1) warmAcquire newPool))
    = set_delete 0 (inUse (run Base (defaultConfig 1) warmAcquire newPool)).
Proof.
  assert (Hs : heap (run Base (defaultConfig 1) warmAcquire newPool) !! 0%nat
    = Some (mkSession "a" "ws://cdp" (mkBrowser true true true None None)
              0 1 None None None)) by (vm_compute; reflexivity).
  assert (Hnd : NoDup (available (run Base (defaultConfig 1) warmAcquire newPool)))
    by (vm_compute; constructor).
  exact (conj Hs (conj Hnd
          (proj1 (proj2 (disconnect_evicts_session Base (defaultConfig 1) _ 0 _
                           Hs eq_refl Hnd))))).
Defined.

(** X7. A session created on demand by [acquire()] gets no disconnect
    listener (only [addSession] and [replaceSession] attach one): when its
    browser loses the connection the pool does nothing. The session stays
    in the in-use set and keeps its slot, nothing is closed and no
    replacement is started, although the session is unusable. *)
Theorem on_demand_session_not_evicted v cfg w i c k es s :
  tasks w !! i = Some (AcquireAwaitCreate c) →
  createSession v cfg k (now w) = (es, inr s) →
  listener (browser s) = false →
  totalCount w ≤ size cfg →
  let r := length (heap w) in
  let w1 := step v cfg (CreateSettled i k) w in
  let w2 := step v cfg (Disconnected r) w1 in
  r ∈ inUse w1 ∧
  inUse w2 = inUse w1 ∧ available w2 = available w1 ∧
  creating w2 = creating w1 ∧ tasks w2 = tasks w1 ∧ trace w2 = trace w1 ∧
  usable v cfg w2 r = false.
Proof.
  intros Ht Hcs Hl Hcap. cbn zeta.
  assert (Hw1 : step v cfg (CreateSettled i k) w =
    become i Done
      (emit [Returned c (length (heap w))]
        (incrementUseCount (length (heap w))
          (with_inUse (set_add (length (heap w)) (inUse w))
            (with_creating (creating w - 1)
              (with_heap (heap w ++ [s]) (emit es w))))))).
  { simpl. rewrite Ht. unfold acquire_created. rewrite Hcs. cbn zeta.
    change (totalCount (with_heap (heap (emit es w) ++ [s]) (emit es w)))
      with (totalCount w).
    destruct (Z.gtb_spec (totalCount w) (size cfg)); [lia|]. reflexivity. }
  rewrite Hw1.
  assert (Hs1 : heap (become i Done
      (emit [Returned c (length (heap w))]
        (incrementUseCount (length (heap w))
          (with_inUse (set_add (length (heap w)) (inUse w))
            (with_creating (creating w - 1)
              (with_heap (heap w ++ [s]) (emit es w))))))) !! length (heap w)
      = Some (with_useCount (useCount s + 1) s)).
  { unfold_world.
    apply (lookup_alter_same (λ x, with_useCount (useCount x + 1) x)).
    rewrite lookup_app_r by lia.
    replace (length (heap w) - length (heap w))%nat with 0%nat by lia. reflexivity. }
  split.
  { unfold_world. apply elem_of_set_add. right. reflexivity. }
  simpl. unfold disconnected. rewrite Hs1.
  change (listener (browser (with_useCount (useCount s + 1) s)))
    with (listener (browser s)).
  rewrite Hl. cbn zeta. unfold usable.
  cbn [available inUse creating tasks trace heap now with_heap].
  rewrite (lookup_alter_same _ _ _ _ Hs1). simpl.
  split_and!; reflexivity.
Qed.

Lemma on_demand_session_not_evicted_witness :
  tasks (run Base (defaultConfig 1) [Acquire] newPool) !! 0%nat
    = Some (AcquireAwaitCreate 0) ∧
  totalCount (run Base (defaultConfig 1) [Acquire] newPool) ≤ size (defaultConfig 1) ∧
  (length (heap (run Base (defaultConfig 1) [Acquire] newPool)) ∈
   inUse (step Base (defaultConfig 1) (CreateSettled 0 (provisioned "a"))
            (run Base (defaultConfig 1) [Acquire] newPool))).
Proof.
  assert (Ht : tasks (run Base (defaultConfig 1) [Acquire] newPool) !! 0%nat
               = Some (AcquireAwaitCreate 0)) by (vm_compute; reflexivity).
  assert (Hcs : createSession Base (defaultConfig 1) (provisioned "a")
                  (now (run Base (defaultConfig 1) [Acquire] newPool))
                = ([ConnectOverCDP "ws://cdp"],
                   inr (mkSession "a" "ws://cdp" plainBrowser 0 0 None None None)))
    by (vm_compute; reflexivity).
  assert (Hcap : totalCount (run Base (defaultConfig 1) [Acquire] newPool)
                 ≤ size (defaultConfig 1)) by (vm_compute; discriminate).
  exact (conj Ht (conj Hcap
          (proj1 (on_demand_session_not_evicted Base (defaultConfig 1) _ 0 0
                    (provisioned "a") _ _ Ht Hcs eq_refl Hcap)))).
Defined.

(** *** What [createSession] cleans up *)

(** X8. [createSession()] stops the session it provisioned in exactly one
    case: the enhanced build, a usable [cdpUrl], and a failed CDP
    connection. A failure after the connection was made ([newContext()] or
    [newPage()] rejecting) leaves the provisioned session running, and in
    no case does [createSession] close a browser connection. *)
Theorem createSession_cleanup v cfg k t :
  (∀ sid, SdkStop sid ∈ (createSession v cfg k t).1 ↔
     v = Enhanced ∧
     ∃ u u' e, create_result k = inr (sid, u) ∧ truthy u = Some u' ∧
               connect_result k = inl e) ∧
  (∀ r, BrowserClose r ∉ (createSession v cfg k t).1).
Proof.
  unfold createSession. split.
  - intros sid. split.
    + intros Hin. repeat case_match; simplify_eq; simpl in Hin;
        repeat (apply elem_of_cons in Hin as [Hin|Hin]; [try discriminate|]);
        try (apply elem_of_app in Hin as [Hin|Hin]);
        repeat (apply elem_of_cons in Hin as [Hin|Hin]; [try discriminate|]);
        try (apply elem_of_nil in Hin; contradiction).
      all: simplify_eq; split; [reflexivity|eauto 6].
    + intros [-> (u & u' & e & -> & -> & ->)]. simpl.
      apply elem_of_cons. right. apply elem_of_cons. left. reflexivity.
  - intros r Hin. repeat case_match; simplify_eq; simpl in Hin;
      repeat (apply elem_of_cons in Hin as [Hin|Hin]; [try discriminate|]);
      try (apply elem_of_app in Hin as [Hin|Hin]);
      repeat (apply elem_of_cons in Hin as [Hin|Hin]; [try discriminate|]);
      try (apply elem_of_nil in Hin; contradiction).
Qed.

(** *** Warm-up *)

Lemma iter_addSession cfg n w :
  closed w = false →
  let k := Nat.min n (Z.to_nat (size cfg - totalCount w)) in
  let w' := Nat.iter n (addSession cfg) w in
  available w' = available w ∧ inUse w' = inUse w ∧ closed w' = false ∧
  creating w' = creating w + Z.of_nat k ∧
  tasks w' = tasks w ++ replicate k AddAwaitCreate ∧
  trace w' = trace w ++ replicate k SdkCreate ∧
  heap w' = heap w ∧ waitQueue w' = waitQueue w ∧ now w' = now w.
Proof.
  intros Hopen. cbn zeta.
  remember (totalCount w) as T eqn:HT.
  induction n as [|n IH].
  - simpl. rewrite !app_nil_r. split_and!; try reflexivity; [assumption|lia].
  - change (Nat.iter (S n) (addSession cfg) w)
      with (addSession cfg (Nat.iter n (addSession cfg) w)).
    destruct IH as (Ha & Hi & Hc & Hcr & Ht & Htr & Hh & Hq & Hn).
    rewrite addSession_unfold, Hc. cbn [orb].
    assert (Htot : totalCount (Nat.iter n (addSession cfg) w)
                   = T + Z.of_nat (Nat.min n (Z.to_nat (size cfg - T)))).
    { unfold totalCount in *. rewrite Ha, Hi, Hcr. lia. }
    destruct (Z.leb_spec (size cfg) (totalCount (Nat.iter n (addSession cfg) w)))
      as [Hfull|Hfree].
    + replace (Nat.min (S n) (Z.to_nat (size cfg - T)))
        with (Nat.min n (Z.to_nat (size cfg - T))) by lia.
      split_and!; assumption.
    + replace (Nat.min (S n) (Z.to_nat (size cfg - T)))
        with (S (Nat.min n (Z.to_nat (size cfg - T)))) by lia.
      unfold_world. rewrite Ha, Hi, Hc, Hcr, Ht, Htr, Hh, Hq, Hn.
      cbn [replicate]. rewrite !replicate_cons_app, <- !app_assoc.
      split_and!; try reflexivity. lia.
Qed.

(** X9. [init()] on an open pool starts one creation for every free slot,
    all at once, and admits nothing by itself: with [k = size - totalCount]
    free slots ([size] of them on a new pool), [creating] grows by [k],
    [sdk.browser.session.create()] is called [k] times, and the warm-up
    waits on exactly those [k] calls. *)
Theorem init_starts_one_creation_per_free_slot cfg w :
  closed w = false → 0 ≤ totalCount w →
  let k := Z.to_nat (size cfg - totalCount w) in
  let w' := init cfg w in
  creating w' = creating w + Z.of_nat k ∧
  tasks w' = tasks w ++ replicate k AddAwaitCreate ∧
  trace w' = trace w ++ replicate k SdkCreate ∧
  warmup w' = Some (seq (length (tasks w)) k) ∧
  available w' = available w ∧ inUse w' = inUse w.
Proof.
  intros Hopen Hpos. cbn zeta. unfold init. cbn zeta. unfold_world.
  destruct (iter_addSession cfg (Z.to_nat (size cfg)) w Hopen)
    as (Ha & Hi & _ & Hcr & Ht & Htr & _). cbn zeta in *.
  replace (Nat.min (Z.to_nat (size cfg)) (Z.to_nat (size cfg - totalCount w)))
    with (Z.to_nat (size cfg - totalCount w)) in * by lia.
  rewrite Ha, Hi, Hcr, Ht, Htr, length_app, length_replicate.
  replace (length (tasks w) + Z.to_nat (size cfg - totalCount w) - length (tasks w))%nat
    with (Z.to_nat (size cfg - totalCount w)) by lia.
  split_and!; reflexivity.
Qed.

Lemma init_starts_one_creation_per_free_slot_witness :
  closed newPool = false ∧ 0 ≤ totalCount newPool ∧
  creating (init (defaultConfig 3) newPool) = creating newPool + Z.of_nat 3.
Proof.
  assert (Hopen : closed newPool = false) by reflexivity.
  assert (Hpos : 0 ≤ totalCount newPool) by (vm_compute; discriminate).
  exact (conj Hopen (conj Hpos
          (proj1 (init_starts_one_creation_per_free_slot (defaultConfig 3) newPool
                    Hopen Hpos)))).
Defined.

(** X25. After [init()] of a new pool of size [n >= 1] the first warm-up
    creation to fail is not retried: all [n] creations are counted in
    [creating] when it fails, so the retry test [totalCount < size] is
    false. Nothing is scheduled in its place, and a pool of size 1 is left
    empty with no call in flight. *)
Theorem first_warmup_failure_is_not_retried v cfg i k es e :
  (i < Z.to_nat (size cfg))%nat →
  createSession v cfg k 0 = (es, inl e) →
  let w' := run v cfg [Init; CreateSettled i k] newPool in
  tasks w' = <[i := Done]> (replicate (Z.to_nat (size cfg)) AddAwaitCreate) ∧
  creating w' = size cfg - 1 ∧
  available w' = [] ∧ inUse w' = [] ∧
  (size cfg = 1 → quiescent w' = true ∧ totalCount w' = 0).
Proof.
  intros Hi Hcs. cbn zeta. cbn [run fold_left step].
  assert (Hinit : available (init cfg newPool) = [] ∧ inUse (init cfg newPool) = [] ∧
                  closed (init cfg newPool) = false ∧
                  creating (init cfg newPool) = size cfg ∧
                  tasks (init cfg newPool)
                  = replicate (Z.to_nat (size cfg)) AddAwaitCreate ∧
                  waitQueue (init cfg newPool) = [] ∧ now (init cfg newPool) = 0).
  { destruct (iter_addSession cfg (Z.to_nat (size cfg)) newPool eq_refl)
      as (Ha & Hin & Hc & Hcr & Ht & _ & _ & Hq & Hn). cbn zeta in *.
    change (totalCount newPool) with 0 in *.
    replace (Nat.min (Z.to_nat (size cfg)) (Z.to_nat (size cfg - 0)))
      with (Z.to_nat (size cfg)) in * by lia.
    unfold init. cbn zeta. unfold_world.
    rewrite Ha, Hin, Hc, Hcr, Ht, Hq, Hn. simpl. split_and!; try reflexivity. lia. }
  destruct Hinit as (Ha & Hin & Hc & Hcr & Ht & Hq & Hn).
  revert Ha Hin Hc Hcr Ht Hq Hn. generalize (init cfg newPool).
  intros w1 Ha Hin Hc Hcr Ht Hq Hn.
  rewrite Ht, lookup_replicate_2 by exact Hi.
  unfold addSession_created. rewrite Hn, Hcs. cbn zeta.
  change (waitQueue (emit es w1)) with (waitQueue w1). rewrite Hq.
  assert (Hsame : (if enableWaitQueue cfg then emit es w1 else emit es w1)
                  = emit es w1) by (destruct (enableWaitQueue cfg); reflexivity).
  rewrite Hsame. unfold totalCount. unfold_world. rewrite ?Ha, ?Hin, ?Hcr, ?Hc, ?Ht.
  cbn [length negb andb].
  match goal with
  | |- context [?a <? ?b] => destruct (Z.ltb_spec a b) as [Hlt|Hge]
  end; [exfalso; revert Hlt; simpl; lia|].
  unfold_world. rewrite ?Ha, ?Hin, ?Hcr, ?Ht.
  split_and!; try reflexivity.
  intros H1. rewrite H1 in *. destruct i; [|simpl in Hi; lia].
  unfold quiescent, totalCount. unfold_world. rewrite ?Ha, ?Hin, ?Ht.
  split; reflexivity.
Qed.

Lemma first_warmup_failure_is_not_retried_witness :
  (0 < Z.to_nat (size (defaultConfig 2)))%nat ∧
  creating (run Base (defaultConfig 2) [Init; CreateSettled 0 (unreachable "a")] newPool)
  = size (defaultConfig 2) - 1.
Proof.
  assert (Hi : (0 < Z.to_nat (size (defaultConfig 2)))%nat) by (vm_compute; lia).
  assert (Hcs : createSession Base (defaultConfig 2) (unreachable "a") 0
                = ([ConnectOverCDP "ws://cdp"],
                   inl (ErrCollaborator "connect ECONNREFUSED")))
    by (vm_compute; reflexivity).
  exact (conj Hi
          (proj1 (proj2 (first_warmup_failure_is_not_retried Base (defaultConfig 2) 0
                           (unreachable "a") _ _ Hi Hcs)))).
Defined.

(** *** The Base health sweep *)

Lemma remove_first_filter (P : nat → bool) r a :
  P r = false → NoDup a →
  filter (λ x, P x = true) (remove_first r a) = filter (λ x, P x = true) a.
Proof.
  intros Hr. induction 1 as [|x a Hx Ha IH]; simpl; [reflexivity|].
  destruct (decide (x = r)) as [->|Hne].
  - rewrite filter_cons, decide_False by (rewrite Hr; discriminate). reflexivity.
  - rewrite !filter_cons. destruct (decide (P x = true)); rewrite IH; reflexivity.
Qed.

Lemma base_sweep_loop (P : nat → bool) (h : list PooledSession) stale w :
  heap w = h → NoDup (available w) → NoDup stale →
  Forall (λ r, r ∈ available w ∧ P r = false) stale →
  let w' := fold_left
              (λ w r, if decide (r ∈ available w)
                      then emit (teardown (heap w) r)
                             (with_available (remove_first r (available w)) w)
                      else w) stale w in
  filter (λ x, P x = true) (available w') = filter (λ x, P x = true) (available w) ∧
  (∀ r, r ∈ available w' ↔ r ∈ available w ∧ r ∉ stale) ∧
  NoDup (available w') ∧
  trace w' = trace w ++ flat_map (teardown h) stale ∧
  inUse w' = inUse w ∧ creating w' = creating w ∧ closed w' = closed w ∧
  tasks w' = tasks w ∧ heap w' = h.
Proof.
  intros Hh. revert w Hh. induction stale as [|r stale IH]; intros w Hh Hnd Hst Hall;
    cbn zeta.
  - simpl. rewrite app_nil_r. split_and!; try reflexivity; try assumption.
    intros r. rewrite elem_of_nil. tauto.
  - cbn [fold_left]. apply Forall_cons in Hall as [[Hin Hr] Hall].
    apply NoDup_cons in Hst as [Hrs Hst].
    rewrite decide_True by exact Hin.
    assert (Hmem : ∀ x, x ∈ remove_first r (available w) ↔ x ∈ available w ∧ x ≠ r).
    { intros x. split.
      - intros Hx. split; [eapply elem_of_remove_first; exact Hx|].
        intros ->. revert Hx. apply remove_first_nodup. exact Hnd.
      - intros [Hx Hne]. clear -Hx Hne. induction (available w) as [|y a IHa];
          [apply elem_of_nil in Hx; contradiction|]. simpl.
        destruct (decide (y = r)) as [->|Hy].
        + apply elem_of_cons in Hx as [->|Hx]; [contradiction|exact Hx].
        + apply elem_of_cons in Hx as [->|Hx]; [left|right; auto]. }
    destruct (IH (emit (teardown (heap w) r)
                    (with_available (remove_first r (available w)) w)))
      as (Hf & Hm & Hn & Htr & Hi & Hcr & Hcl & Hts & Hhp).
    + exact Hh.
    + unfold_world. eapply sublist_NoDup; [exact Hnd|apply remove_first_sublist].
    + exact Hst.
    + unfold_world. rewrite Forall_forall in *. intros x Hx.
      destruct (Hall x Hx) as [Hxa Hxp]. split; [|exact Hxp].
      apply Hmem. split; [exact Hxa|]. intros ->. contradiction.
    + cbn zeta in *. revert Hf Hm Hn Htr Hi Hcr Hcl Hts Hhp. unfold_world.
      intros Hf Hm Hn Htr Hi Hcr Hcl Hts Hhp.
      split_and!; try assumption.
      * rewrite Hf. apply (remove_first_filter P r _ Hr Hnd).
      * intros x. rewrite Hm, Hmem, not_elem_of_cons. tauto.
      * rewrite Htr, Hh. cbn [flat_map]. rewrite <- app_assoc. reflexivity.
Qed.

Lemma filter_all (P : nat → bool) l :
  Forall (λ x, P x = true) l → filter (λ x, P x = true) l = l.
Proof.
  induction 1 as [|x l Hx _ IH]; [reflexivity|].
  rewrite filter_cons, decide_True by exact Hx. rewrite IH. reflexivity.
Qed.

(** X10. The Base health sweep keeps exactly the usable sessions of
    [available], in their order; every stale one is removed and closed
    once, in the order of the stack; the in-use set is not examined; and
    however many sessions were retired, at most one creation is started. *)
Theorem base_sweep_retires_stale cfg w :
  NoDup (available w) → allocated w →
  let stale := filter (λ r, usable Base cfg w r = false) (available w) in
  let w' := performHealthCheck Base cfg w in
  available w' = filter (λ r, usable Base cfg w r = true) (available w) ∧
  inUse w' = inUse w ∧
  closes (trace w') = closes (trace w) ++ stale ∧
  creating w ≤ creating w' ≤ creating w + 1.
Proof.
  intros Hnd Halloc. cbn zeta. unfold performHealthCheck. cbn zeta.
  destruct (base_sweep_loop (usable Base cfg w) (heap w)
              (filter (λ r, usable Base cfg w r = false) (available w)) w)
    as (Hf & Hm & Hn & Htr & Hi & Hcr & Hcl & Hts & Hhp).
  { reflexivity. }
  { exact Hnd. }
  { apply NoDup_filter. exact Hnd. }
  { rewrite Forall_forall. intros r Hr. apply list_elem_of_filter in Hr. tauto. }
  cbn zeta in *. revert Hf Hm Hn Htr Hi Hcr Hcl Hts Hhp.
  generalize (fold_left
                (λ w0 r, if decide (r ∈ available w0)
                         then emit (teardown (heap w0) r)
                                (with_available (remove_first r (available w0)) w0)
                         else w0)
                (filter (λ r, usable Base cfg w r = false) (available w)) w).
  intros w1 Hf Hm Hn Htr Hi Hcr Hcl Hts Hhp.
  assert (Hav : available w1
                = filter (λ r, usable Base cfg w r = true) (available w)).
  { rewrite <- Hf. symmetry. apply filter_all. rewrite Forall_forall. intros r Hr.
    apply Hm in Hr as [Hr Hout]. destruct (usable Base cfg w r) eqn:Hu; [reflexivity|].
    exfalso. apply Hout. apply list_elem_of_filter. auto. }
  assert (Hcloses : closes (trace w1)
            = closes (trace w)
              ++ filter (λ r, usable Base cfg w r = false) (available w)).
  { rewrite Htr, closes_app. f_equal. apply closes_teardowns.
    unfold allocated, owned in Halloc. rewrite Forall_forall in *. intros r Hr.
    apply list_elem_of_filter in Hr as [_ Hr]. apply Halloc. apply elem_of_app. auto. }
  rewrite replenish_addSession, addSession_unfold.
  destruct (closed w1 || (size cfg <=? totalCount w1)); unfold_world;
    rewrite ?closes_app, ?Hcloses, ?Hav, ?Hi, ?Hcr; simpl; rewrite ?app_nil_r;
    split_and!; try reflexivity; lia.
Qed.

Lemma base_sweep_retires_stale_witness :
  NoDup (available (run Base agingConfig agedPool newPool)) ∧
  allocated (run Base agingConfig agedPool newPool) ∧
  available (performHealthCheck Base agingConfig (run Base agingConfig agedPool newPool))
  = filter (λ r, usable Base agingConfig (run Base agingConfig agedPool newPool) r = true)
      (available (run Base agingConfig agedPool newPool)).
Proof.
  assert (Hnd : NoDup (available (run Base agingConfig agedPool newPool)))
    by (vm_compute; repeat constructor; intros H; inversion H).
  assert (Halloc : allocated (run Base agingConfig agedPool newPool))
    by (vm_compute; repeat constructor).
  exact (conj Hnd (conj Halloc
          (proj1 (base_sweep_retires_stale agingConfig _ Hnd Halloc)))).
Defined.

(** *** Creations that settle late *)

Lemma closes_createSession v cfg k t : closes (createSession v cfg k t).1 = [].
Proof. unfold createSession. repeat case_match; simplify_eq; reflexivity. Qed.

(** X11. A background creation ([addSession]) that succeeds after the pool
    was shut down, or after the pool has gone over capacity, is not
    admitted: the new session is closed and stopped, both sets and the wait
    queue are left alone (no waiter is served), and its slot in [creating]
    is given back only when the close has settled. *)
Theorem late_background_creation_is_closed v cfg w i k es s :
  tasks w !! i = Some AddAwaitCreate →
  createSession v cfg k (now w) = (es, inr s) →
  closed w = true ∨ size cfg < totalCount w →
  let r := length (heap w) in
  let w1 := step v cfg (CreateSettled i k) w in
  let w2 := step v cfg (CloseSettled i) w1 in
  available w1 = available w ∧ inUse w1 = inUse w ∧ waitQueue w1 = waitQueue w ∧
  closes (trace w1) = closes (trace w) ++ [r] ∧
  creating w1 = creating w ∧ tasks w1 = <[i := AddAwaitClose]> (tasks w) ∧
  available w2 = available w ∧ inUse w2 = inUse w ∧ waitQueue w2 = waitQueue w ∧
  closes (trace w2) = closes (trace w) ++ [r] ∧
  stops (trace w2) = stops (trace w) ++ [sessionId s] ∧
  handoffs (trace w2) = handoffs (trace w) ∧
  creating w2 = creating w - 1 ∧ tasks w2 = <[i := Done]> (tasks w).
Proof.
  intros Ht Hcs Hcase. cbn zeta.
  assert (Hw1 : step v cfg (CreateSettled i k) w =
    become i AddAwaitClose
      (emit [BrowserClose (length (heap w)); SdkStop (sessionId s)]
         (with_heap (heap w ++ [attachHandler cfg s]) (emit es w)))).
  { simpl. rewrite Ht. unfold addSession_created. rewrite Hcs. cbn zeta.
    change (closed (with_heap (heap (emit es w) ++ [attachHandler cfg s]) (emit es w)))
      with (closed w).
    change (totalCount (with_heap (heap (emit es w) ++ [attachHandler cfg s])
                          (emit es w)))
      with (totalCount w).
    assert (Htd : teardown (heap (with_heap (heap (emit es w) ++ [attachHandler cfg s])
                                    (emit es w)))
                    (length (heap (emit es w)))
                  = [BrowserClose (length (heap w)); SdkStop (sessionId s)]).
    { unfold teardown. unfold_world. rewrite lookup_app_r by lia.
      replace (length (heap w) - length (heap w))%nat with 0%nat by lia. simpl.
      unfold attachHandler. destruct (_ && _); reflexivity. }
    rewrite Htd.
    destruct Hcase as [Hc|Hover].
    - rewrite Hc. reflexivity.
    - destruct (closed w); [reflexivity|].
      destruct (Z.gtb_spec (totalCount w) (size cfg)); [reflexivity|lia]. }
  rewrite Hw1.
  assert (Hi : (i < length (tasks w))%nat) by (eapply lookup_lt_Some; exact Ht).
  cbn [step]. unfold_world. rewrite list_lookup_insert_eq by exact Hi.
  unfold addSession_closed. unfold_world.
  assert (Hes : closes es = [] ∧ stops es = [] ∧ handoffs es = []).
  { pose proof (closes_createSession v cfg k (now w)) as Hc.
    pose proof (createSession_silent v cfg k (now w)) as [Hh _].
    rewrite Hcs in Hc, Hh. simpl in Hc, Hh. split_and!; try assumption.
    clear -Hcs. unfold createSession in Hcs.
    repeat case_match; simplify_eq; reflexivity. }
  destruct Hes as (Hc & Hst & Hh).
  rewrite list_insert_insert_eq, !closes_app, !stops_app, !handoffs_app, Hc, Hst, Hh.
  simpl. rewrite !app_nil_r. split_and!; reflexivity.
Qed.

Lemma late_background_creation_is_closed_witness :
  tasks (run Base (defaultConfig 1) [Init; Shutdown] newPool) !! 0%nat
    = Some AddAwaitCreate ∧
  closes (trace (step Base (defaultConfig 1) (CreateSettled 0 (provisioned "a"))
                   (run Base (defaultConfig 1) [Init; Shutdown] newPool)))
  = closes (trace (run Base (defaultConfig 1) [Init; Shutdown] newPool))
      ++ [length (heap (run Base (defaultConfig 1) [Init; Shutdown] newPool))].
Proof.
  assert (Ht : tasks (run Base (defaultConfig 1) [Init; Shutdown] newPool) !! 0%nat
               = Some AddAwaitCreate) by (vm_compute; reflexivity).
  assert (Hcs : createSession Base (defaultConfig 1) (provisioned "a")
                  (now (run Base (defaultConfig 1) [Init; Shutdown] newPool))
                = ([ConnectOverCDP "ws://cdp"],
                   inr (mkSession "a" "ws://cdp" plainBrowser 0 0 None None None)))
    by (vm_compute; reflexivity).
  assert (Hc : closed (run Base (defaultConfig 1) [Init; Shutdown] newPool) = true)
    by (vm_compute; reflexivity).
  exact (conj Ht
          (proj1 (proj2 (proj2 (proj2
             (late_background_creation_is_closed Base (defaultConfig 1) _ 0
                (provisioned "a") _ _ Ht Hcs (or_introl Hc))))))).
Defined.

(** X12. [replaceSession] looks at [closed] only before it starts the
    creation: a replacement that succeeds after [shutdown()] is pushed on
    [available] of the closed pool; only the old session is closed. *)
Theorem late_replacement_is_admitted cfg w i old so k es s :
  tasks w !! i = Some (ReplaceAwaitCreate old) →
  heap w !! old = Some so →
  createSession Enhanced cfg k (now w) = (es, inr s) →
  closed w = true →
  let r := length (heap w) in
  let w' := step Enhanced cfg (CreateSettled i k) w in
  closed w' = true ∧
  available w' = remove_first old (available w) ++ [r] ∧
  heap w' !! r = Some (attachHandler cfg s) ∧
  closes (trace w') = closes (trace w) ++ [old] ∧ old ≠ r ∧
  tasks w' = <[i := Done]> (tasks w).
Proof.
  intros Ht Hold Hcs Hc. cbn zeta. simpl. rewrite Ht.
  unfold replaceSession_created. rewrite Hcs. cbn zeta. unfold_world.
  pose proof (lookup_lt_Some _ _ _ Hold) as Hlt.
  pose proof (closes_createSession Enhanced cfg k (now w)) as Hes.
  rewrite Hcs in Hes. simpl in Hes.
  split_and!; try reflexivity; try assumption.
  - rewrite lookup_app_r by lia.
    replace (length (heap w) - length (heap w))%nat with 0%nat by lia. reflexivity.
  - unfold teardown. rewrite lookup_app_l by exact Hlt. rewrite Hold. simpl.
    rewrite !closes_app, Hes, app_nil_r. reflexivity.
  - lia.
Qed.

Lemma late_replacement_is_admitted_witness :
  tasks (run Enhanced agingConfig (staleSweep ++ [Shutdown]) newPool) !! 1%nat
    = Some (ReplaceAwaitCreate 0) ∧
  closed (run Enhanced agingConfig (staleSweep ++ [Shutdown]) newPool) = true ∧
  available (step Enhanced agingConfig (CreateSettled 1 (provisioned "b"))
               (run Enhanced agingConfig (staleSweep ++ [Shutdown]) newPool))
  = remove_first 0
      (available (run Enhanced agingConfig (staleSweep ++ [Shutdown]) newPool))
    ++ [length (heap (run Enhanced agingConfig (staleSweep ++ [Shutdown]) newPool))].
Proof.
  assert (Ht : tasks (run Enhanced agingConfig (staleSweep ++ [Shutdown]) newPool)
                 !! 1%nat = Some (ReplaceAwaitCreate 0)) by (vm_compute; reflexivity).
  assert (Hold : heap (run Enhanced agingConfig (staleSweep ++ [Shutdown]) newPool)
                   !! 0%nat
                 = Some (mkSession "a" "ws://cdp" (mkBrowser true true true None None)
                           0 0 (Some 0) None None)) by (vm_compute; reflexivity).
  assert (Hcs : createSession Enhanced agingConfig (provisioned "b")
                  (now (run Enhanced agingConfig (staleSweep ++ [Shutdown]) newPool))
                = ([ConnectOverCDP "ws://cdp"],
                   inr (mkSession "b" "ws://cdp" plainBrowser 2000 0 (Some 2000)
                          None None)))
    by (vm_compute; reflexivity).
  assert (Hc : closed (run Enhanced agingConfig (staleSweep ++ [Shutdown]) newPool)
               = true) by (vm_compute; reflexivity).
  exact (conj Ht (conj Hc
          (proj1 (proj2 (late_replacement_is_admitted agingConfig _ 1 0 _
                           (provisioned "b") _ _ Ht Hold Hcs Hc))))).
Defined.

(** *** The idle clock *)

Lemma release_unusable v cfg w r error :
  usable v cfg w r = false →
  release v cfg r error w
  = replenish cfg (emit (teardown (heap w) r) (with_inUse (set_delete r (inUse w)) w)).
Proof.
  intros Hu. unfold release. cbn zeta.
  change (usable v cfg (with_inUse (set_delete r (inUse w)) w) r)
    with (usable v cfg w r).
  rewrite Hu, orb_true_r. reflexivity.
Qed.

Lemma set_delete_set_add r s : r ∉ s → set_delete r (set_add r s) = s.
Proof.
  intros Hr. rewrite set_add_fresh by exact Hr. unfold set_delete.
  rewrite filter_app, filter_cons, decide_False, filter_nil, app_nil_r by tauto.
  clear -Hr. induction s as [|x s IH]; [reflexivity|].
  apply not_elem_of_cons in Hr as [Hne Hr].
  rewrite filter_cons, decide_True by congruence. rewrite IH by exact Hr. reflexivity.
Qed.

(** X13. In the enhanced build the idle clock of a session keeps running
    while a client holds it: [acquire()] does not touch [lastUsedAt], so a
    session that is handed out and released [dt] ms later, with
    [now + dt - lastUsedAt > maxIdleMs], is closed on release instead of
    going back to [available], whatever its use count and age. *)
Theorem idle_clock_runs_while_in_use cfg w a r s l dt :
  available w = a ++ [r] → heap w !! r = Some s → lastUsedAt s = Some l →
  usable Enhanced cfg w r = true → r ∉ inUse w →
  maxIdleMs cfg < now w + Z.of_nat dt - l →
  let w' := run Enhanced cfg [Acquire; Tick dt; Release r false] w in
  Returned (calls w) r ∈ trace w' ∧
  closes (trace w') = closes (trace w) ++ [r] ∧
  available w' = a ∧ inUse w' = inUse w.
Proof.
  intros Ha Hs Hl Hu Hr Hidle. cbn zeta.
  assert (Hacq : acquire Enhanced cfg w =
    emit [Returned (calls w) r]
      (incrementUseCount r
        (with_inUse (set_add r (inUse w))
          (with_available a (with_calls (S (calls w)) w))))).
  { unfold acquire. cbn zeta. unfold_world. rewrite Ha, rev_app_distr. simpl.
    unfold usable in Hu. rewrite Hu. simpl. unfold_world.
    rewrite ?rev_involutive, ?app_nil_r. apply world_eq; unfold_world; rewrite ?app_nil_r; reflexivity. }
  cbn [run fold_left step]. rewrite Hacq.
  set (w2 := with_now _ _).
  assert (Hs2 : heap w2 !! r = Some (with_useCount (useCount s + 1) s)).
  { unfold w2. unfold_world.
    apply (lookup_alter_same (λ x, with_useCount (useCount x + 1) x)). exact Hs. }
  rewrite Hs2.
  assert (Hu2 : usable Enhanced cfg w2 r = false).
  { unfold usable. rewrite Hs2. unfold w2. unfold_world. unfold isUsable.
    cbn [browser useCount createdAt lastUsedAt with_useCount]. rewrite Hl.
    repeat case_match; try reflexivity. zbool. lia. }
  rewrite (release_unusable _ _ _ _ _ Hu2), replenish_addSession, addSession_unfold.
  assert (Htr : trace w2 = trace w ++ [Returned (calls w) r]) by reflexivity.
  assert (Hav : available w2 = a) by reflexivity.
  assert (Hin : inUse w2 = set_add r (inUse w)) by reflexivity.
  clearbody w2. unfold teardown. rewrite Hs2.
  destruct (closed _ || _); unfold_world; rewrite Htr, Hav, Hin, set_delete_set_add
    by exact Hr; rewrite !closes_app; simpl; rewrite ?app_nil_r;
    (split_and!; try reflexivity);
    rewrite !elem_of_app, list_elem_of_singleton; auto.
Qed.

Lemma idle_clock_runs_while_in_use_witness :
  available (run Enhanced idleConfig warmPool newPool) = [] ++ [0%nat] ∧
  usable Enhanced idleConfig (run Enhanced idleConfig warmPool newPool) 0 = true ∧
  maxIdleMs idleConfig
    < now (run Enhanced idleConfig warmPool newPool) + Z.of_nat 200 - 0 ∧
  available (run Enhanced idleConfig [Acquire; Tick 200; Release 0 false]
               (run Enhanced idleConfig warmPool newPool)) = [].
Proof.
  assert (Ha : available (run Enhanced idleConfig warmPool newPool) = [] ++ [0%nat])
    by (vm_compute; reflexivity).
  assert (Hs : heap (run Enhanced idleConfig warmPool newPool) !! 0%nat
               = Some (mkSession "a" "ws://cdp" (mkBrowser true true true None None)
                         0 0 (Some 0) None None)) by (vm_compute; reflexivity).
  assert (Hu : usable Enhanced idleConfig (run Enhanced idleConfig warmPool newPool) 0
               = true) by (vm_compute; reflexivity).
  assert (Hr : 0%nat ∉ inUse (run Enhanced idleConfig warmPool newPool))
    by (vm_compute; intros H; inversion H).
  assert (Hidle : maxIdleMs idleConfig
                  < now (run Enhanced idleConfig warmPool newPool) + Z.of_nat 200 - 0)
    by (vm_compute; reflexivity).
  exact (conj Ha (conj Hu (conj Hidle
          (proj1 (proj2 (proj2
             (idle_clock_runs_while_in_use idleConfig _ [] 0 _ 0 200
                Ha Hs eq_refl Hu Hr Hidle))))))).
Defined.

(** *** The [closed] flag and the health timer *)

Section Flags.

Variable v : Variant.
Variable cfg : PoolConfig.

(** Close a goal [flags w' = flags w] once [w'] is an explicit update. *)
Ltac flag := repeat case_match; reflexivity.

Lemma flags_addSession w : flags (addSession cfg w) = flags w.
Proof. unfold addSession. flag. Qed.

Lemma flags_replenish w : flags (replenish cfg w) = flags w.
Proof. rewrite replenish_addSession. apply flags_addSession. Qed.

Lemma flags_giveToWaiterOrPush r w : flags (giveToWaiterOrPush cfg r w) = flags w.
Proof. unfold giveToWaiterOrPush. flag. Qed.

Lemma flags_waitOrThrow c w : flags (waitOrThrow cfg c w) = flags w.
Proof. unfold waitOrThrow. flag. Qed.

Lemma flags_init w : flags (init cfg w) = flags w.
Proof.
  unfold init. cbn zeta.
  change (flags (Nat.iter (Z.to_nat (size cfg)) (addSession cfg) w) = flags w).
  induction (Z.to_nat (size cfg)) as [|n IH]; [reflexivity|].
  change (Nat.iter (S n) (addSession cfg) w)
    with (addSession cfg (Nat.iter n (addSession cfg) w)).
  rewrite flags_addSession. exact IH.
Qed.

Lemma flags_acquire w : flags (acquire v cfg w) = flags w.
Proof.
  unfold acquire. cbn zeta.
  destruct (popUsable v cfg _ _ _) as [ds [[r rest]|]]; [reflexivity|].
  case_match; [reflexivity|]. rewrite flags_waitOrThrow. reflexivity.
Qed.

Lemma flags_release r error w : flags (release v cfg r error w) = flags w.
Proof.
  unfold release. cbn zeta. case_match.
  - rewrite flags_replenish. reflexivity.
  - rewrite flags_giveToWaiterOrPush. destruct v; reflexivity.
Qed.

Lemma flags_addSession_created i k w : flags (addSession_created v cfg i k w) = flags w.
Proof.
  unfold addSession_created.
  destruct (createSession v cfg k (now w)) as [es [e|s]]; cbn zeta.
  - flag.
  - case_match; [reflexivity|]. case_match; [reflexivity|].
    match goal with
    | |- context [giveToWaiterOrPush cfg ?r ?w0] =>
        pose proof (flags_giveToWaiterOrPush r w0) as Hg;
        set (w1 := giveToWaiterOrPush cfg r w0) in *
    end.
    clearbody w1. transitivity (flags w1); [flag|rewrite Hg; reflexivity].
Qed.

Lemma flags_acquire_created i c k w : flags (acquire_created v cfg i c k w) = flags w.
Proof.
  unfold acquire_created.
  destruct (createSession v cfg k (now w)) as [es [e|s]]; cbn zeta; flag.
Qed.

Lemma flags_replaceSession old w : flags (replaceSession old w) = flags w.
Proof. unfold replaceSession. flag. Qed.

Lemma flags_replaceSession_created i old k w :
  flags (replaceSession_created v cfg i old k w) = flags w.
Proof.
  unfold replaceSession_created.
  destruct (createSession v cfg k (now w)) as [es [e|s]]; cbn zeta; flag.
Qed.

Lemma flags_performHealthCheck w : flags (performHealthCheck v cfg w) = flags w.
Proof.
  unfold performHealthCheck. cbn zeta.
  generalize (filter (λ r, usable v cfg w r = false) (available w)). intros l.
  destruct v; rewrite flags_replenish; revert w;
    induction l as [|r l IH]; intros w; try reflexivity;
    cbn [fold_left]; rewrite IH.
  - flag.
  - apply flags_replaceSession.
Qed.

Lemma flags_healthTimer w : flags (healthTimer v cfg w) = flags w.
Proof.
  unfold healthTimer. repeat case_match; try reflexivity.
  apply flags_performHealthCheck.
Qed.

Lemma flags_disconnected r w : flags (disconnected cfg r w) = flags w.
Proof.
  unfold disconnected. repeat case_match; try reflexivity.
  cbn zeta. rewrite flags_replenish. reflexivity.
Qed.

Lemma flags_fire i w : flags (fire cfg i w) = flags w.
Proof.
  unfold fire. repeat case_match; try reflexivity; rewrite flags_addSession;
    reflexivity.
Qed.

Lemma flags_shutdown w : flags (shutdown w) = (true, false).
Proof.
  unfold shutdown, flags. cbn zeta. unfold_world.
  destruct (healthCheckTimer w) eqn:Ht; unfold_world; rewrite ?Ht; reflexivity.
Qed.

Lemma flags_init_settled w :
  closed (init_settled cfg w) = closed w ∧
  (healthCheckTimer (init_settled cfg w) = true →
   healthCheckTimer w = true ∨ (enableHealthCheck cfg = true ∧ 0 < size cfg)).
Proof.
  unfold init_settled.
  destruct (warmup w); [|auto].
  destruct (Z.ltb_spec 0 (size cfg)); cbn [andb]; [|auto].
  destruct (forallb _ _); [|auto]. cbn zeta.
  destruct (enableHealthCheck cfg); [|auto].
  unfold_world. destruct (healthCheckTimer w); auto.
Qed.

Lemma flags_step ev w :
  (closed (step v cfg ev w) = true ↔ closed w = true ∨ ev = Shutdown) ∧
  (healthCheckTimer (step v cfg ev w) = true →
   healthCheckTimer w = true ∨
   (ev = InitSettled ∧ enableHealthCheck cfg = true ∧ 0 < size cfg)).
Proof.
  assert (Hframe : ∀ w', ev ≠ Shutdown → flags w' = flags w →
            (closed w' = true ↔ closed w = true ∨ ev = Shutdown) ∧
            (healthCheckTimer w' = true →
             healthCheckTimer w = true ∨
             (ev = InitSettled ∧ enableHealthCheck cfg = true ∧ 0 < size cfg))).
  { intros w' Hev [= Hc Ht]. rewrite Hc, Ht. split; [|auto].
    split; [auto|]. intros [?|?]; [assumption|contradiction]. }
  destruct ev; cbn [step].
  - apply Hframe; [discriminate|]. apply flags_init.
  - destruct (flags_init_settled w) as [Hc Ht]. rewrite Hc. split.
    + split; [auto|]. intros [?|?]; [assumption|discriminate].
    + intros H. destruct (Ht H) as [?|[? ?]]; auto.
  - apply Hframe; [discriminate|]. apply flags_acquire.
  - apply Hframe; [discriminate|]. case_match; [apply flags_release|reflexivity].
  - assert (Hc : closed (shutdown w) = true)
      by exact (f_equal fst (flags_shutdown w)).
    assert (Ht : healthCheckTimer (shutdown w) = false)
      by exact (f_equal snd (flags_shutdown w)).
    rewrite Hc, Ht. split; [split; auto|discriminate].
  - apply Hframe; [discriminate|]. repeat case_match; try reflexivity;
      [apply flags_acquire_created|apply flags_addSession_created
      |apply flags_replaceSession_created].
  - apply Hframe; [discriminate|]. repeat case_match; try reflexivity.
    unfold acquire_closed.
    transitivity (flags (waitOrThrow cfg c w)); [reflexivity|apply flags_waitOrThrow].
  - apply Hframe; [discriminate|]. apply flags_fire.
  - apply Hframe; [discriminate|]. apply flags_healthTimer.
  - apply Hframe; [discriminate|]. apply flags_disconnected.
  - apply Hframe; [discriminate|]. reflexivity.
Qed.

(** [init()] reaches [startHealthCheck] only with every warm-up creation
    settled. *)
Lemma timer_init_settled w :
  healthCheckTimer (init_settled cfg w) = true →
  healthCheckTimer w = true ∨
  (enableHealthCheck cfg = true ∧ 0 < size cfg ∧
   ∃ ids, warmup w = Some ids ∧ Forall (λ i, tasks w !! i = Some Done) ids).
Proof.
  unfold init_settled.
  destruct (warmup w) as [ids|]; [|auto].
  destruct (Z.ltb_spec 0 (size cfg)); cbn [andb]; [|auto].
  destruct (forallb _ _) eqn:Hall; [|auto]. cbn zeta.
  destruct (enableHealthCheck cfg); [|auto].
  unfold_world. destruct (healthCheckTimer w); [auto|]. intros _. right.
  split_and!; [reflexivity|assumption|]. exists ids. split; [reflexivity|].
  rewrite forallb_forall in Hall. rewrite Forall_forall. intros i Hi.
  specialize (Hall i (proj1 (list_elem_of_In _ _) Hi)).
  unfold is_done in Hall. destruct (tasks w !! i) as [[]|]; try discriminate.
  reflexivity.
Qed.

(** Close a goal [warmup w' = warmup w] once [w'] is an explicit update. *)
Ltac warm := repeat case_match; reflexivity.

Lemma warmup_addSession w : warmup (addSession cfg w) = warmup w.
Proof. unfold addSession. warm. Qed.

Lemma warmup_replenish w : warmup (replenish cfg w) = warmup w.
Proof. rewrite replenish_addSession. apply warmup_addSession. Qed.

Lemma warmup_giveToWaiterOrPush r w : warmup (giveToWaiterOrPush cfg r w) = warmup w.
Proof. unfold giveToWaiterOrPush. warm. Qed.

Lemma warmup_waitOrThrow c w : warmup (waitOrThrow cfg c w) = warmup w.
Proof. unfold waitOrThrow. warm. Qed.

Lemma warmup_acquire w : warmup (acquire v cfg w) = warmup w.
Proof.
  unfold acquire. cbn zeta.
  destruct (popUsable v cfg _ _ _) as [ds [[r rest]|]]; [reflexivity|].
  case_match; [reflexivity|]. rewrite warmup_waitOrThrow. reflexivity.
Qed.

Lemma warmup_release r error w : warmup (release v cfg r error w) = warmup w.
Proof.
  unfold release. cbn zeta. case_match.
  - rewrite warmup_replenish. reflexivity.
  - rewrite warmup_giveToWaiterOrPush. destruct v; reflexivity.
Qed.

Lemma warmup_shutdown w : warmup (shutdown w) = warmup w.
Proof. unfold shutdown. cbn zeta. warm. Qed.

Lemma warmup_addSession_created i k w :
  warmup (addSession_created v cfg i k w) = warmup w.
Proof.
  unfold addSession_created.
  destruct (createSession v cfg k (now w)) as [es [e|s]]; cbn zeta.
  - warm.
  - case_match; [reflexivity|]. case_match; [reflexivity|].
    match goal with
    | |- context [giveToWaiterOrPush cfg ?r ?w0] =>
        pose proof (warmup_giveToWaiterOrPush r w0) as Hg;
        set (w1 := giveToWaiterOrPush cfg r w0) in *
    end.
    clearbody w1. transitivity (warmup w1); [warm|rewrite Hg; reflexivity].
Qed.

Lemma warmup_acquire_created i c k w :
  warmup (acquire_created v cfg i c k w) = warmup w.
Proof.
  unfold acquire_created.
  destruct (createSession v cfg k (now w)) as [es [e|s]]; cbn zeta; warm.
Qed.

Lemma warmup_replaceSession_created i old k w :
  warmup (replaceSession_created v cfg i old k w) = warmup w.
Proof.
  unfold replaceSession_created.
  destruct (createSession v cfg k (now w)) as [es [e|s]]; cbn zeta; warm.
Qed.

Lemma warmup_performHealthCheck w : warmup (performHealthCheck v cfg w) = warmup w.
Proof.
  unfold performHealthCheck. cbn zeta.
  generalize (filter (λ r, usable v cfg w r = false) (available w)). intros l.
  destruct v; rewrite warmup_replenish; revert w;
    induction l as [|r l IH]; intros w; try reflexivity;
    cbn [fold_left]; rewrite IH.
  - warm.
  - unfold replaceSession. warm.
Qed.

Lemma warmup_healthTimer w : warmup (healthTimer v cfg w) = warmup w.
Proof.
  unfold healthTimer. repeat case_match; try reflexivity.
  apply warmup_performHealthCheck.
Qed.

Lemma warmup_disconnected r w : warmup (disconnected cfg r w) = warmup w.
Proof.
  unfold disconnected. repeat case_match; try reflexivity.
  cbn zeta. rewrite warmup_replenish. reflexivity.
Qed.

Lemma warmup_fire i w : warmup (fire cfg i w) = warmup w.
Proof.
  unfold fire. repeat case_match; try reflexivity; rewrite warmup_addSession;
    reflexivity.
Qed.

Lemma warmup_init_settled w ids :
  warmup (init_settled cfg w) = Some ids → warmup w = Some ids.
Proof.
  unfold init_settled. destruct (warmup w) eqn:Hw; [|rewrite Hw; auto].
  destruct (_ && _); [|rewrite Hw; auto]. cbn zeta.
  repeat case_match; unfold_world; discriminate.
Qed.

(** The warm-up promises are those of an [init()] call. *)
Lemma warmup_step ev w ids :
  warmup (step v cfg ev w) = Some ids → ev = Init ∨ warmup w = Some ids.
Proof.
  destruct ev; cbn [step]; [auto|apply (λ H, or_intror (warmup_init_settled w ids H))|..];
    intros H; right; rewrite <- H; symmetry.
  - apply warmup_acquire.
  - case_match; [apply warmup_release|reflexivity].
  - apply warmup_shutdown.
  - repeat case_match; try reflexivity;
      [apply warmup_acquire_created|apply warmup_addSession_created
      |apply warmup_replaceSession_created].
  - repeat case_match; try reflexivity.
    unfold acquire_closed.
    transitivity (warmup (waitOrThrow cfg c w)); [reflexivity|apply warmup_waitOrThrow].
  - apply warmup_fire.
  - apply warmup_healthTimer.
  - apply warmup_disconnected.
  - reflexivity.
Qed.

Lemma warmup_run evs w ids :
  warmup (run v cfg evs w) = Some ids → Init ∈ evs ∨ warmup w = Some ids.
Proof.
  revert w. induction evs as [|ev evs IH]; intros w H; [auto|].
  simpl in H. destruct (IH _ H) as [Hin|Hw].
  - left. right. exact Hin.
  - destruct (warmup_step ev w ids Hw) as [->|?]; [left; left|right; assumption].
Qed.

(** When a step leaves the health timer running, it ran before and the step
    is not [shutdown()], or the step is [init()] completing its warm-up. *)
Lemma timer_step ev w :
  healthCheckTimer (step v cfg ev w) = true →
  (healthCheckTimer w = true ∧ ev ≠ Shutdown) ∨
  (ev = InitSettled ∧ enableHealthCheck cfg = true ∧ 0 < size cfg ∧
   ∃ ids, warmup w = Some ids ∧ Forall (λ i, tasks w !! i = Some Done) ids).
Proof.
  intros H.
  destruct ev;
    try (left; split; [|discriminate];
         destruct (proj2 (flags_step _ w) H) as [?|[? _]];
         [assumption|discriminate]).
  - destruct (timer_init_settled w H) as [?|?];
      [left; split; [assumption|discriminate]|].
    right. split; [reflexivity|assumption].
  - pose proof (f_equal snd (flags_shutdown w)) as Ht. simpl in *. congruence.
Qed.

Lemma timer_run evs w :
  healthCheckTimer (run v cfg evs w) = true →
  (healthCheckTimer w = true ∧ Shutdown ∉ evs) ∨
  (enableHealthCheck cfg = true ∧ 0 < size cfg ∧
   ∃ evs1 evs2 ids,
     evs = evs1 ++ InitSettled :: evs2 ∧
     warmup (run v cfg evs1 w) = Some ids ∧
     Forall (λ i, tasks (run v cfg evs1 w) !! i = Some Done) ids ∧
     Shutdown ∉ evs2).
Proof.
  revert w. induction evs as [|ev evs IH]; intros w Ht.
  { left. split; [exact Ht|apply not_elem_of_nil]. }
  simpl in Ht. destruct (IH _ Ht) as [[Hw Hno]|(He & Hs & evs1 & evs2 & ids & -> & ?)].
  - destruct (timer_step ev w Hw) as [[Hw' Hne]|(-> & He & Hs & ids & Hids & Hall)].
    + left. split; [exact Hw'|]. rewrite not_elem_of_cons. split; [congruence|exact Hno].
    + right. split_and!; try assumption.
      exists [], evs, ids. split_and!; try assumption. reflexivity.
  - right. split_and!; try assumption.
    exists (ev :: evs1), evs2, ids. split; [reflexivity|assumption].
Qed.

End Flags.


(** X14. The pool is closed by [shutdown()] and by nothing else, and no
    operation opens it again: in every run the [closed] flag is set exactly
    when [shutdown()] has been called. *)
Theorem closed_iff_shutdown_called v cfg evs :
  closed (run v cfg evs newPool) = true ↔ Shutdown ∈ evs.
Proof.
  cut (∀ w, closed (run v cfg evs w) = true ↔ closed w = true ∨ Shutdown ∈ evs).
  { intros H. rewrite H. simpl. split; [intros [?|?]; [discriminate|assumption]|auto]. }
  induction evs as [|ev evs IH]; intros w; simpl.
  - rewrite elem_of_nil. tauto.
  - rewrite IH, (proj1 (flags_step v cfg ev w)), elem_of_cons.
    split; [intros [[?|?]|?]|intros [?|[?|?]]]; auto.
Qed.

(** X15. The health timer runs only where the configuration enables it and
    the pool has a positive size, and only from the moment [init()] got
    past its warm-up: the run contains a completion of [init()] that found
    the warm-up promises of an [init()] call, every one of them settled, and
    no [shutdown()] came after it. (For a pool of size 0 or less the
    [Promise.race] of no promises does not settle.) *)
Theorem health_timer_guard v cfg evs :
  healthCheckTimer (run v cfg evs newPool) = true →
  enableHealthCheck cfg = true ∧ 0 < size cfg ∧
  ∃ evs1 evs2 ids,
    evs = evs1 ++ InitSettled :: evs2 ∧
    Init ∈ evs1 ∧
    warmup (run v cfg evs1 newPool) = Some ids ∧
    Forall (λ i, tasks (run v cfg evs1 newPool) !! i = Some Done) ids ∧
    Shutdown ∉ evs2.
Proof.
  intros Ht.
  destruct (timer_run v cfg evs newPool Ht)
    as [[Hw _]|(He & Hs & evs1 & evs2 & ids & -> & Hids & Hall & Hno)];
    [discriminate|].
  split_and!; try assumption. exists evs1, evs2, ids.
  split_and!; try assumption; [reflexivity|].
  destruct (warmup_run v cfg evs1 newPool ids Hids) as [?|?];
    [assumption|discriminate].
Qed.

Lemma health_timer_guard_witness :
  healthCheckTimer (run Base agingConfig agedPool newPool) = true ∧
  enableHealthCheck agingConfig = true.
Proof.
  assert (H : healthCheckTimer (run Base agingConfig agedPool newPool) = true)
    by (vm_compute; reflexivity).
  exact (conj H (proj1 (health_timer_guard Base agingConfig agedPool H))).
Defined.

(** *** What [creating] counts *)

Lemma pending_nil : pending [] = 0.
Proof. reflexivity. Qed.

Lemma pending_cons t l : pending (t :: l) = slot t + pending l.
Proof.
  unfold pending, slot. rewrite filter_cons.
  destruct (in_flight t).
  - rewrite decide_True by reflexivity. cbn [length]. lia.
  - rewrite decide_False by discriminate. lia.
Qed.

Lemma pending_app l1 l2 : pending (l1 ++ l2) = pending l1 + pending l2.
Proof.
  induction l1 as [|t l1 IH]; [reflexivity|].
  cbn [app]. rewrite !pending_cons, IH. lia.
Qed.

Lemma pending_insert l i t t' :
  l !! i = Some t → pending (<[i := t']> l) = pending l - slot t + slot t'.
Proof.
  revert i. induction l as [|x l IH]; intros i Hi; [discriminate|].
  destruct i as [|i]; simpl in *.
  - injection Hi as ->. rewrite !pending_cons. lia.
  - rewrite !pending_cons, (IH _ Hi). lia.
Qed.

Lemma pending_nonneg l : 0 ≤ pending l.
Proof. unfold pending. lia. Qed.

Lemma pending_quiescent w : quiescent w = true → pending (tasks w) = 0.
Proof.
  unfold quiescent. induction (tasks w) as [|t l IH]; [reflexivity|].
  cbn [forallb]. intros H. apply andb_true_iff in H as [Ht Hl].
  apply bool_decide_eq_true in Ht as ->. rewrite pending_cons, IH by exact Hl.
  reflexivity.
Qed.

Section Counted.

Variable v : Variant.
Variable cfg : PoolConfig.

(** Close a goal [counted w'] once [w'] is an explicit update of a world that
    satisfies it. *)
Ltac acct :=
  unfold counted in *; unfold_world_all;
  repeat match goal with
  | H : ?l !! ?i = Some ?t |- context [pending (<[?i := _]> (?l ++ _))] =>
      rewrite (pending_insert (l ++ _) i t)
        by (rewrite lookup_app_l; [exact H|eapply lookup_lt_Some; exact H])
  | H : ?l !! ?i = Some ?t |- context [pending (<[?i := _]> ?l)] =>
      rewrite (pending_insert l i t) by exact H
  end;
  rewrite ?pending_app, ?pending_cons, ?pending_nil; unfold slot; cbn [in_flight];
  lia.

Lemma counted_addSession w : counted w → counted (addSession cfg w).
Proof. intros H. unfold addSession. repeat case_match; acct. Qed.

Lemma counted_replenish w : counted w → counted (replenish cfg w).
Proof. rewrite replenish_addSession. apply counted_addSession. Qed.

Lemma counted_giveToWaiterOrPush r w :
  counted w → counted (giveToWaiterOrPush cfg r w).
Proof. intros H. unfold giveToWaiterOrPush. repeat case_match; acct. Qed.

Lemma counted_waitOrThrow c w : counted w → counted (waitOrThrow cfg c w).
Proof. intros H. unfold waitOrThrow. case_match; acct. Qed.

Lemma counted_init w : counted w → counted (init cfg w).
Proof.
  intros H. unfold init. cbn zeta.
  assert (Hi : counted (Nat.iter (Z.to_nat (size cfg)) (addSession cfg) w)).
  { induction (Z.to_nat (size cfg)) as [|n IH]; [assumption|].
    apply counted_addSession. exact IH. }
  acct.
Qed.

Lemma counted_init_settled w : counted w → counted (init_settled cfg w).
Proof. intros H. unfold init_settled. repeat case_match; acct. Qed.

Lemma counted_acquire w : counted w → counted (acquire v cfg w).
Proof.
  intros H. unfold acquire. cbn zeta.
  destruct (popUsable v cfg _ _ _) as [ds [[r rest]|]]; [acct|].
  case_match; [acct|]. apply counted_waitOrThrow. acct.
Qed.

Lemma counted_release r error w : counted w → counted (release v cfg r error w).
Proof.
  intros H. unfold release. cbn zeta. case_match.
  - apply counted_replenish. acct.
  - apply counted_giveToWaiterOrPush. destruct v; acct.
Qed.

Lemma counted_shutdown w : counted w → counted (shutdown w).
Proof. intros H. unfold shutdown. cbn zeta. case_match; acct. Qed.

Lemma counted_addSession_created i k w :
  tasks w !! i = Some AddAwaitCreate →
  counted w → counted (addSession_created v cfg i k w).
Proof.
  intros Hi H. unfold addSession_created.
  destruct (createSession v cfg k (now w)) as [es [e|s]]; cbn zeta.
  - repeat case_match; acct.
  - case_match; [acct|]. case_match; [acct|].
    match goal with
    | |- context [giveToWaiterOrPush cfg ?r ?w0] =>
        assert (Hg : counted (giveToWaiterOrPush cfg r w0))
          by (apply counted_giveToWaiterOrPush; acct);
        assert (Hgt : tasks (giveToWaiterOrPush cfg r w0) = tasks w)
          by (unfold giveToWaiterOrPush; repeat case_match; reflexivity);
        set (w1 := giveToWaiterOrPush cfg r w0) in *
    end.
    clearbody w1. rewrite <- Hgt in Hi. clear H. case_match; acct.
Qed.

Lemma counted_addSession_closed i w :
  tasks w !! i = Some AddAwaitClose → counted w → counted (addSession_closed i w).
Proof. intros Hi H. unfold addSession_closed. acct. Qed.

Lemma counted_acquire_created i c k w :
  tasks w !! i = Some (AcquireAwaitCreate c) →
  counted w → counted (acquire_created v cfg i c k w).
Proof.
  intros Hi H. unfold acquire_created.
  destruct (createSession v cfg k (now w)) as [es [e|s]]; cbn zeta;
    repeat case_match; acct.
Qed.

Lemma counted_acquire_closed i c w :
  tasks w !! i = Some (AcquireAwaitClose c) →
  counted w → counted (acquire_closed cfg i c w).
Proof.
  intros Hi H. unfold acquire_closed, waitOrThrow. case_match; acct.
Qed.

Lemma counted_replaceSession old w : counted w → counted (replaceSession old w).
Proof. intros H. unfold replaceSession. case_match; acct. Qed.

Lemma counted_replaceSession_created i old k w :
  tasks w !! i = Some (ReplaceAwaitCreate old) →
  counted w → counted (replaceSession_created v cfg i old k w).
Proof.
  intros Hi H. unfold replaceSession_created.
  destruct (createSession v cfg k (now w)) as [es [e|s]]; cbn zeta;
    repeat case_match; acct.
Qed.

Lemma counted_performHealthCheck w : counted w → counted (performHealthCheck v cfg w).
Proof.
  unfold performHealthCheck. cbn zeta.
  generalize (filter (λ r, usable v cfg w r = false) (available w)). intros l H.
  destruct v; apply counted_replenish; revert w H;
    induction l as [|r l IH]; intros w H; try assumption;
    cbn [fold_left]; apply IH.
  - case_match; acct.
  - apply counted_replaceSession. exact H.
Qed.

Lemma counted_healthTimer w : counted w → counted (healthTimer v cfg w).
Proof.
  intros H. unfold healthTimer. repeat case_match; try assumption.
  apply counted_performHealthCheck. exact H.
Qed.

Lemma counted_disconnected r w : counted w → counted (disconnected cfg r w).
Proof.
  intros H. unfold disconnected. repeat case_match; try assumption; cbn zeta.
  apply counted_replenish. acct.
Qed.

Lemma counted_fire i w : counted w → counted (fire cfg i w).
Proof.
  intros H. unfold fire. repeat case_match; try assumption;
    apply counted_addSession; acct.
Qed.

Lemma counted_step ev w : counted w → counted (step v cfg ev w).
Proof.
  intros H. destruct ev; cbn [step].
  - apply counted_init; assumption.
  - apply counted_init_settled; assumption.
  - apply counted_acquire; assumption.
  - case_match; [apply counted_release|]; assumption.
  - apply counted_shutdown; assumption.
  - repeat case_match; try assumption;
      [apply counted_acquire_created|apply counted_addSession_created
      |apply counted_replaceSession_created]; assumption.
  - repeat case_match; try assumption;
      [apply counted_acquire_closed|apply counted_addSession_closed]; assumption.
  - apply counted_fire; assumption.
  - apply counted_healthTimer; assumption.
  - apply counted_disconnected; assumption.
  - acct.
Qed.

Lemma counted_run evs : counted (run v cfg evs newPool).
Proof. apply run_invariant; [intros; apply counted_step; assumption|reflexivity]. Qed.

End Counted.

(** X16. In every run [creating] is the number of suspended calls that hold
    a creation slot: [acquire()] and [addSession()] calls waiting for their
    creation, and [addSession()] calls waiting for the close of a session
    they did not admit. It is never negative, and it is 0 whenever no call
    is suspended: every increment is undone on every path. Replacement
    creations started by the health sweep are not counted. *)
Theorem creating_counts_suspended_calls v cfg evs :
  let w := run v cfg evs newPool in
  creating w = pending (tasks w) ∧ 0 ≤ creating w ∧
  (quiescent w = true → creating w = 0).
Proof.
  cbn zeta. pose proof (counted_run v cfg evs) as H. unfold counted in H.
  rewrite H. split_and!; [reflexivity|apply pending_nonneg|apply pending_quiescent].
Qed.

(** X17. [stats()] in every run: [waiting] is the number of callers parked
    so far minus the number settled through their continuations,
    [creating] is the number of suspended calls holding a creation slot,
    and [total] is at least the number of sessions the pool holds. *)
Theorem stats_accounting v cfg evs :
  let w := run v cfg evs newPool in
  let st := stats cfg w in
  Stats.waiting st
    = Z.of_nat (length (enqueues (trace w))) - Z.of_nat (length (handoffs (trace w))) ∧
  Stats.creating st = pending (tasks w) ∧
  Stats.total st = Stats.available st + Stats.inUse st + Stats.creating st ∧
  Z.of_nat (length (owned w)) ≤ Stats.total st ∧
  Stats.maxSize st = size cfg.
Proof.
  cbn zeta. pose proof (counted_run v cfg evs) as Hc. unfold counted in Hc.
  pose proof (fifo_run v cfg evs) as Hf. unfold fifo in Hf.
  apply (f_equal (@length _)) in Hf. rewrite length_app in Hf.
  unfold stats, totalCount, owned. cbn [Stats.waiting Stats.creating Stats.total
    Stats.available Stats.inUse Stats.maxSize].
  rewrite length_app. pose proof (pending_nonneg (tasks (run v cfg evs newPool))).
  split_and!; try reflexivity; try assumption; lia.
Qed.

(** *** Hand-outs and [useCount] *)

Lemma handouts_nil r : handouts r [] = 0.
Proof. reflexivity. Qed.

Lemma handouts_cons r e t :
  handouts r (e :: t) = (if handed r e then 1 else 0) + handouts r t.
Proof.
  unfold handouts. rewrite filter_cons. destruct (handed r e).
  - rewrite decide_True by reflexivity. cbn [length]. lia.
  - rewrite decide_False by discriminate. lia.
Qed.

Lemma handouts_app r t1 t2 : handouts r (t1 ++ t2) = handouts r t1 + handouts r t2.
Proof.
  induction t1 as [|e t1 IH]; [reflexivity|].
  cbn [app]. rewrite !handouts_cons, IH. lia.
Qed.

Lemma handouts_teardown r h x : handouts r (teardown h x) = 0.
Proof. unfold teardown. destruct (h !! x); reflexivity. Qed.

Lemma handouts_teardowns r h l : handouts r (flat_map (teardown h) l) = 0.
Proof.
  induction l as [|x l IH]; [reflexivity|].
  cbn [flat_map]. rewrite handouts_app, handouts_teardown, IH. reflexivity.
Qed.

Lemma handouts_rejections r e (q : list caller) :
  handouts r (map (λ c, WaiterRejected c e) q) = 0.
Proof.
  induction q as [|c q IH]; [reflexivity|].
  cbn [map]. rewrite handouts_cons, IH. reflexivity.
Qed.

Lemma createSession_fresh v cfg k t es res :
  createSession v cfg k t = (es, res) →
  (∀ r, handouts r es = 0) ∧
  match res with inr s => useCount s = 0 | inl _ => True end.
Proof.
  unfold createSession. intros H.
  repeat case_match; simplify_eq; split; try exact I; try reflexivity;
    intros r; rewrite ?handouts_cons, ?handouts_app, ?handouts_cons;
    reflexivity.
Qed.

Lemma useCount_attachHandler cfg s : useCount (attachHandler cfg s) = useCount s.
Proof. unfold attachHandler. case_match; reflexivity. Qed.

Lemma useCountAt_alter_keep (f : PooledSession → PooledSession) i h r :
  (∀ s, useCount (f s) = useCount s) →
  useCountAt (alter f i h) r = useCountAt h r.
Proof.
  intros Hf. unfold useCountAt. rewrite list_lookup_alter.
  destruct (decide (i = r)) as [->|]; [|reflexivity].
  destruct (h !! r); simpl; [apply Hf|reflexivity].
Qed.

Lemma useCountAt_incr i h r :
  (i < length h)%nat →
  useCountAt (alter (λ s, with_useCount (useCount s + 1) s) i h) r
  = useCountAt h r + (if bool_decide (i = r) then 1 else 0).
Proof.
  intros Hi. unfold useCountAt. rewrite list_lookup_alter.
  case_bool_decide as Hir.
  - subst r. rewrite decide_True by reflexivity.
    destruct (lookup_lt_is_Some_2 h i Hi) as [s Hs]. rewrite Hs. reflexivity.
  - rewrite decide_False by exact Hir. destruct (h !! r); lia.
Qed.

Lemma useCountAt_snoc h s r :
  useCountAt (h ++ [s]) r
  = if bool_decide (r = length h) then useCount s else useCountAt h r.
Proof.
  unfold useCountAt. case_bool_decide as Hr.
  - subst r. rewrite lookup_app_r by lia.
    replace (length h - length h)%nat with 0%nat by lia. reflexivity.
  - destruct (decide (r < length h)%nat).
    + rewrite lookup_app_l by assumption. reflexivity.
    + rewrite !lookup_ge_None_2; [reflexivity|lia|rewrite length_app; simpl; lia].
Qed.

Lemma useCountAt_fresh h r : (length h ≤ r)%nat → useCountAt h r = 0.
Proof. intros H. unfold useCountAt. rewrite lookup_ge_None_2 by exact H. reflexivity. Qed.

Lemma isUsable_useCount v cfg t h r :
  isUsable v cfg t (h !! r) = true →
  (r < length h)%nat ∧ useCountAt h r < maxUses cfg.
Proof.
  unfold isUsable, useCountAt. destruct (h !! r) as [s|] eqn:Hs; [|discriminate].
  intros H. split; [eapply lookup_lt_Some; exact Hs|].
  destruct (negb _); [discriminate|].
  destruct (Z.geb_spec (useCount s) (maxUses cfg)); [discriminate|lia].
Qed.

Section Tally.

Variable v : Variant.
Variable cfg : PoolConfig.
Hypothesis maxUses_positive : 1 ≤ maxUses cfg.

(** Close a goal [tallied cfg w'] once [w'] is an explicit update of a world
    that satisfies it. *)
Ltac tally :=
  let r0 := fresh "r0" in
  let Hh := fresh "Hh" in
  let Hb := fresh "Hb" in
  match goal with
  | H : tallied cfg _ |- tallied cfg _ =>
      intros r0; destruct (H r0) as [Hh Hb]; revert Hh Hb
  end;
  unfold uses; unfold_world;
  repeat first
    [ rewrite handouts_app | rewrite handouts_cons | rewrite handouts_nil
    | rewrite handouts_teardown | rewrite handouts_teardowns
    | rewrite handouts_rejections
    | rewrite useCountAt_snoc
    | rewrite useCountAt_incr by (rewrite ?length_app; cbn [length]; lia)
    | rewrite useCountAt_alter_keep by (intros; reflexivity)
    | rewrite useCount_attachHandler ];
  cbn [handed];
  repeat match goal with
  | H : ∀ r, handouts r ?es = 0 |- context [handouts ?r0 ?es] => rewrite (H r0)
  end;
  intros Hh Hb;
  repeat case_bool_decide; subst;
  repeat match goal with
  | H : context [useCountAt ?h (length ?h)] |- _ =>
      rewrite (useCountAt_fresh h (length h)) in H by lia
  | |- context [useCountAt ?h (length ?h)] =>
      rewrite (useCountAt_fresh h (length h)) by lia
  end;
  try congruence; split; lia.

Lemma tallied_addSession w : tallied cfg w → tallied cfg (addSession cfg w).
Proof. intros H. unfold addSession. repeat case_match; tally. Qed.

Lemma tallied_replenish w : tallied cfg w → tallied cfg (replenish cfg w).
Proof. rewrite replenish_addSession. apply tallied_addSession. Qed.

Lemma tallied_giveToWaiterOrPush r w :
  (r < length (heap w))%nat → uses w r < maxUses cfg →
  tallied cfg w → tallied cfg (giveToWaiterOrPush cfg r w).
Proof.
  intros Hr Hu H. unfold giveToWaiterOrPush. unfold uses in Hu.
  repeat case_match; tally.
Qed.

Lemma tallied_waitOrThrow c w : tallied cfg w → tallied cfg (waitOrThrow cfg c w).
Proof. intros H. unfold waitOrThrow. case_match; tally. Qed.

Lemma tallied_init w : tallied cfg w → tallied cfg (init cfg w).
Proof.
  intros H. unfold init. cbn zeta.
  assert (Hi : tallied cfg (Nat.iter (Z.to_nat (size cfg)) (addSession cfg) w)).
  { induction (Z.to_nat (size cfg)) as [|n IH]; [assumption|].
    apply tallied_addSession. exact IH. }
  clear H. tally.
Qed.

Lemma tallied_init_settled w : tallied cfg w → tallied cfg (init_settled cfg w).
Proof. intros H. unfold init_settled. repeat case_match; tally. Qed.

Lemma tallied_acquire w : tallied cfg w → tallied cfg (acquire v cfg w).
Proof.
  intros H. unfold acquire. cbn zeta.
  destruct (popUsable v cfg _ _ _) as [ds [[r rest]|]] eqn:E.
  - apply popUsable_spec in E as [_ [_ Hr]].
    apply isUsable_useCount in Hr as [Hlt Hu]. revert Hlt Hu. unfold_world.
    intros Hlt Hu. tally.
  - case_match; [tally|]. apply tallied_waitOrThrow. tally.
Qed.

Lemma tallied_release r error w :
  (r < length (heap w))%nat →
  tallied cfg w → tallied cfg (release v cfg r error w).
Proof.
  intros Hr H. unfold release. cbn zeta.
  destruct (usable v cfg (with_inUse (set_delete r (inUse w)) w) r) eqn:Hu.
  - destruct error; cbn [orb negb].
    + apply tallied_replenish. tally.
    + unfold usable in Hu. apply isUsable_useCount in Hu as [_ Hu].
      revert Hu. unfold_world. intros Hu.
      apply tallied_giveToWaiterOrPush.
      * destruct v; unfold_world; rewrite ?length_alter; exact Hr.
      * unfold uses. destruct v; unfold_world;
          rewrite ?useCountAt_alter_keep by (intros; reflexivity); exact Hu.
      * destruct v; tally.
  - rewrite orb_true_r. apply tallied_replenish. tally.
Qed.

Lemma tallied_shutdown w : tallied cfg w → tallied cfg (shutdown w).
Proof. intros H. unfold shutdown. cbn zeta. case_match; tally. Qed.

Lemma tallied_addSession_created i k w :
  tallied cfg w → tallied cfg (addSession_created v cfg i k w).
Proof.
  intros H. unfold addSession_created.
  destruct (createSession v cfg k (now w)) as [es [e|s]] eqn:E;
    apply createSession_fresh in E as [Hes Hs]; cbn zeta.
  - repeat case_match; tally.
  - case_match; [tally|]. case_match; [tally|].
    match goal with
    | |- context [giveToWaiterOrPush cfg ?r ?w0] =>
        assert (Hg : tallied cfg (giveToWaiterOrPush cfg r w0))
    end.
    { apply tallied_giveToWaiterOrPush.
      - unfold_world. rewrite length_app. cbn [length]. lia.
      - unfold uses. unfold_world. rewrite useCountAt_snoc, useCount_attachHandler.
        rewrite bool_decide_eq_true_2 by reflexivity. lia.
      - tally. }
    revert Hg. generalize (giveToWaiterOrPush cfg (length (heap (emit es w)))
      (with_heap (heap (emit es w) ++ [attachHandler cfg s]) (emit es w))).
    clear H. intros w1 H. case_match; tally.
Qed.

Lemma tallied_addSession_closed i w :
  tallied cfg w → tallied cfg (addSession_closed i w).
Proof. intros H. unfold addSession_closed. tally. Qed.

Lemma tallied_acquire_created i c k w :
  tallied cfg w → tallied cfg (acquire_created v cfg i c k w).
Proof.
  intros H. unfold acquire_created.
  destruct (createSession v cfg k (now w)) as [es [e|s]] eqn:E;
    apply createSession_fresh in E as [Hes Hs]; cbn zeta;
    repeat case_match; tally.
Qed.

Lemma tallied_acquire_closed i c w :
  tallied cfg w → tallied cfg (acquire_closed cfg i c w).
Proof. intros H. unfold acquire_closed, waitOrThrow. case_match; tally. Qed.

Lemma tallied_replaceSession old w : tallied cfg w → tallied cfg (replaceSession old w).
Proof. intros H. unfold replaceSession. case_match; tally. Qed.

Lemma tallied_replaceSession_created i old k w :
  tallied cfg w → tallied cfg (replaceSession_created v cfg i old k w).
Proof.
  intros H. unfold replaceSession_created.
  destruct (createSession v cfg k (now w)) as [es [e|s]] eqn:E;
    apply createSession_fresh in E as [Hes Hs]; cbn zeta;
    repeat case_match; tally.
Qed.

Lemma tallied_performHealthCheck w :
  tallied cfg w → tallied cfg (performHealthCheck v cfg w).
Proof.
  unfold performHealthCheck. cbn zeta.
  generalize (filter (λ r, usable v cfg w r = false) (available w)). intros l H.
  destruct v; apply tallied_replenish; revert w H;
    induction l as [|r l IH]; intros w H; try assumption;
    cbn [fold_left]; apply IH.
  - case_match; tally.
  - apply tallied_replaceSession. exact H.
Qed.

Lemma tallied_healthTimer w : tallied cfg w → tallied cfg (healthTimer v cfg w).
Proof.
  intros H. unfold healthTimer. repeat case_match; try assumption.
  apply tallied_performHealthCheck. exact H.
Qed.

Lemma tallied_disconnected r w : tallied cfg w → tallied cfg (disconnected cfg r w).
Proof.
  intros H. unfold disconnected. destruct (heap w !! r); [|assumption]. cbn zeta.
  case_match; [apply tallied_replenish|]; tally.
Qed.

Lemma tallied_fire i w : tallied cfg w → tallied cfg (fire cfg i w).
Proof.
  intros H. unfold fire. repeat case_match; try assumption;
    apply tallied_addSession; tally.
Qed.

Lemma tallied_step ev w : tallied cfg w → tallied cfg (step v cfg ev w).
Proof.
  intros H. destruct ev; cbn [step].
  - apply tallied_init; assumption.
  - apply tallied_init_settled; assumption.
  - apply tallied_acquire; assumption.
  - destruct (heap w !! r) eqn:Hr; [|assumption].
    apply tallied_release; [eapply lookup_lt_Some; exact Hr|assumption].
  - apply tallied_shutdown; assumption.
  - repeat case_match; try assumption;
      [apply tallied_acquire_created|apply tallied_addSession_created
      |apply tallied_replaceSession_created]; assumption.
  - repeat case_match; try assumption.
    apply tallied_acquire_closed; assumption.
  - apply tallied_fire; assumption.
  - apply tallied_healthTimer; assumption.
  - apply tallied_disconnected; assumption.
  - tally.
Qed.

Lemma tallied_run evs : tallied cfg (run v cfg evs newPool).
Proof.
  apply run_invariant; [intros; apply tallied_step; assumption|].
  intros r. unfold uses, useCountAt. simpl. split; [reflexivity|lia].
Qed.

End Tally.

(** X18. In every run the [useCount] of a session is the number of times it
    was handed to a client, by a returning [acquire()] or through a waiter's
    [resolve], and with [maxUses >= 1] no session is handed out more than
    [maxUses] times. *)
Theorem handouts_within_maxUses v cfg evs r :
  1 ≤ maxUses cfg →
  let w := run v cfg evs newPool in
  handouts r (trace w) = uses w r ∧ handouts r (trace w) ≤ maxUses cfg.
Proof.
  intros Hm. cbn zeta. destruct (tallied_run v cfg Hm evs r) as [Hh Hb].
  rewrite Hh. split; [reflexivity|exact Hb].
Qed.

Lemma handouts_within_maxUses_witness :
  1 ≤ maxUses singleUseConfig ∧
  handouts 0 (trace (run Base singleUseConfig twoWaiters newPool))
  ≤ maxUses singleUseConfig.
Proof.
  assert (Hm : 1 ≤ maxUses singleUseConfig) by (vm_compute; discriminate).
  exact (conj Hm (proj2 (handouts_within_maxUses Base singleUseConfig twoWaiters 0 Hm))).
Defined.

(** *** [acquire()] without a usable session *)

(** X19. An [acquire()] that finds no usable session in [available] closes
    every session it popped and leaves [available] empty; what it does next
    depends on [inUse.size + creating + 1 <= size] alone (the discarded
    sessions do not count): with room it starts an on-demand creation and
    suspends; without room it parks the caller at the tail of the wait
    queue when the queue is enabled, and throws the pool-exhausted error
    otherwise, starting no creation in both cases. *)
Theorem acquire_without_usable_session v cfg w :
  Forall (λ r, usable v cfg w r = false) (available w) →
  let c := calls w in
  let w' := acquire v cfg w in
  available w' = [] ∧ inUse w' = inUse w ∧ heap w' = heap w ∧
  closes (trace w')
  = closes (trace w) ++ closes (flat_map (teardown (heap w)) (rev (available w))) ∧
  if Z.of_nat (length (inUse w)) + creating w + 1 <=? size cfg
  then creating w' = creating w + 1 ∧
       tasks w' = tasks w ++ [AcquireAwaitCreate c] ∧
       waitQueue w' = waitQueue w ∧
       enqueues (trace w') = enqueues (trace w)
  else creating w' = creating w ∧ tasks w' = tasks w ∧
       if enableWaitQueue cfg
       then waitQueue w' = waitQueue w ++ [c] ∧
            enqueues (trace w') = enqueues (trace w) ++ [c]
       else waitQueue w' = waitQueue w ∧
            last (trace w') = Some (Threw c ErrPoolExhausted).
Proof.
  intros Hall. cbn zeta. unfold acquire. cbn zeta.
  change (now (with_calls (S (calls w)) w)) with (now w).
  change (heap (with_calls (S (calls w)) w)) with (heap w).
  change (available (with_calls (S (calls w)) w)) with (available w).
  rewrite (popUsable_none v cfg (now w) (heap w) (rev (available w)))
    by (apply Forall_rev; exact Hall).
  unfold totalCount, waitOrThrow. unfold_world. cbn [length]. rewrite Z.add_0_l.
  replace (Z.of_nat (length (inUse w)) + creating w + 1)
    with (Z.of_nat (length (inUse w)) + (creating w + 1)) by lia.
  destruct (Z.of_nat (length (inUse w)) + (creating w + 1) <=? size cfg) eqn:Hroom.
  - unfold_world.
    rewrite !closes_app, !enqueues_app, (proj2 (teardowns_silent _ _)). simpl.
    rewrite !app_nil_r. split_and!; reflexivity.
  - destruct (enableWaitQueue cfg); unfold_world;
      rewrite ?closes_app, ?enqueues_app, ?(proj2 (teardowns_silent _ _)); simpl;
      rewrite ?app_nil_r, ?last_snoc; split_and!; try reflexivity; lia.
Qed.

Lemma acquire_without_usable_session_witness :
  Forall (λ r, usable Base (defaultConfig 1)
                 (run Base (defaultConfig 1) saturated newPool) r = false)
         (available (run Base (defaultConfig 1) saturated newPool)) ∧
  available (acquire Base (defaultConfig 1)
               (run Base (defaultConfig 1) saturated newPool)) = [].
Proof.
  assert (H : Forall (λ r, usable Base (defaultConfig 1)
                             (run Base (defaultConfig 1) saturated newPool) r = false)
                (available (run Base (defaultConfig 1) saturated newPool)))
    by (vm_compute; constructor).
  exact (conj H (proj1 (acquire_without_usable_session Base (defaultConfig 1) _ H))).
Defined.


(** *** [shutdown()] and the callers in the wait queue *)

(** X21. [shutdown()], whenever it is called, settles every caller that is
    parked in the wait queue: each is rejected with the shutting-down
    error, in queue order, so that afterwards every caller ever parked has
    been resolved or rejected and the queue is empty. It empties both sets
    and leaves the creations in flight to themselves ([creating] and the
    suspended calls are untouched). *)
Theorem shutdown_settles_every_waiter v cfg evs :
  let w := run v cfg evs newPool in
  let w' := step v cfg Shutdown w in
  waitQueue w' = [] ∧
  handoffs (trace w') = handoffs (trace w) ++ waitQueue w ∧
  handoffs (trace w') = enqueues (trace w') ∧
  (∀ c, c ∈ waitQueue w → WaiterRejected c ErrShuttingDown ∈ trace w') ∧
  available w' = [] ∧ inUse w' = [] ∧
  creating w' = creating w ∧ tasks w' = tasks w.
Proof.
  cbn zeta. cbn [step].
  pose proof (fifo_run v cfg evs) as Hf. unfold fifo in Hf.
  generalize dependent (run v cfg evs newPool). intros w Hf.
  assert (Hh : handoffs (trace (shutdown w)) = handoffs (trace w) ++ waitQueue w).
  { rewrite shutdown_trace, !handoffs_app.
    rewrite (proj1 (handoffs_rejections _ _)), (proj1 (teardowns_silent _ _)).
    rewrite app_nil_r. reflexivity. }
  assert (He : enqueues (trace (shutdown w)) = enqueues (trace w)).
  { rewrite shutdown_trace, !enqueues_app.
    rewrite (proj2 (handoffs_rejections _ _)), (proj2 (teardowns_silent _ _)).
    rewrite !app_nil_r. reflexivity. }
  split_and!.
  - unfold shutdown. cbn zeta. case_match; reflexivity.
  - exact Hh.
  - rewrite Hh, He. exact Hf.
  - intros c Hc. rewrite shutdown_trace, !elem_of_app. right. left.
    apply list_elem_of_fmap. exists c. auto.
  - unfold shutdown. cbn zeta. case_match; reflexivity.
  - unfold shutdown. cbn zeta. case_match; reflexivity.
  - unfold shutdown. cbn zeta. case_match; reflexivity.
  - unfold shutdown. cbn zeta. case_match; reflexivity.
Qed.

(** *** Unusable sessions *)

Lemma isUsable_later v cfg t t' s :
  t ≤ t' → isUsable v cfg t (Some s) = false → isUsable v cfg t' (Some s) = false.
Proof.
  intros Ht. unfold isUsable. intros H.
  destruct (negb (isConnected (browser s))); [reflexivity|].
  destruct (useCount s >=? maxUses cfg); [reflexivity|].
  destruct (Z.gtb_spec (t' - createdAt s) (maxAgeMs cfg)); [reflexivity|].
  destruct (Z.gtb_spec (t - createdAt s) (maxAgeMs cfg)); [lia|].
  destruct v; [discriminate|].
  destruct (lastUsedAt s) as [l|]; [|discriminate].
  destruct (Z.gtb_spec (t' - l) (maxIdleMs cfg)); [reflexivity|].
  destruct (Z.gtb_spec (t - l) (maxIdleMs cfg)); [lia|discriminate].
Qed.

Lemma isUsable_disconnected v cfg t s :
  isUsable v cfg t (Some (with_browser (with_isConnected false (browser s)) s)) = false.
Proof. reflexivity. Qed.

Lemma lookup_alter_other (f : PooledSession → PooledSession) (i r : nat)
    (h : list PooledSession) :
  i ≠ r → alter f i h !! r = h !! r.
Proof. intros H. rewrite list_lookup_alter, decide_False by exact H. reflexivity. Qed.

Lemma useCountAt_alter_other (f : PooledSession → PooledSession) (i r : nat)
    (h : list PooledSession) :
  i ≠ r → useCountAt (alter f i h) r = useCountAt h r.
Proof. intros H. unfold useCountAt. rewrite lookup_alter_other by exact H. reflexivity. Qed.

Lemma useCountAt_app_l h s r :
  (r < length h)%nat → useCountAt (h ++ [s]) r = useCountAt h r.
Proof. intros H. unfold useCountAt. rewrite lookup_app_l by exact H. reflexivity. Qed.

Lemma match_variant (P : World → Prop) (v : Variant) a b :
  P a → P b → P (match v with Base => a | Enhanced => b end).
Proof. destruct v; auto. Qed.

Section Spent.

Variable v : Variant.
Variable cfg : PoolConfig.
Variable r : ref.
Variable n : Z.

(** Close a goal [spent v cfg r n w'] once [w'] is an explicit update of a
    world that satisfies it and touches no other session's record. *)
Ltac still :=
  match goal with
  | H : spent v cfg r n _ |- spent v cfg r n _ =>
      let H1 := fresh in
      let H2 := fresh in
      let H3 := fresh in
      destruct H as (H1 & H2 & H3); revert H1 H2 H3
  end;
  unfold spent, usable, uses; unfold_world;
  intros ? ? ?;
  rewrite ?length_alter, ?length_app, ?length_alter;
  repeat first
    [ rewrite lookup_alter_other by lia
    | rewrite useCountAt_alter_other by lia
    | rewrite lookup_app_l by (rewrite ?length_alter; lia)
    | rewrite useCountAt_app_l by (rewrite ?length_alter; lia) ];
  split_and!; first [ assumption | cbn [length]; lia ].

Lemma spent_addSession w : spent v cfg r n w → spent v cfg r n (addSession cfg w).
Proof. intros H. unfold addSession. repeat case_match; still. Qed.

Lemma spent_replenish w : spent v cfg r n w → spent v cfg r n (replenish cfg w).
Proof. rewrite replenish_addSession. apply spent_addSession. Qed.

Lemma spent_giveToWaiterOrPush r' w :
  r' ≠ r → spent v cfg r n w → spent v cfg r n (giveToWaiterOrPush cfg r' w).
Proof. intros Hr H. unfold giveToWaiterOrPush. repeat case_match; still. Qed.

Lemma spent_waitOrThrow c w : spent v cfg r n w → spent v cfg r n (waitOrThrow cfg c w).
Proof. intros H. unfold waitOrThrow. case_match; still. Qed.

Lemma spent_init w : spent v cfg r n w → spent v cfg r n (init cfg w).
Proof.
  intros H. unfold init. cbn zeta.
  assert (Hi : spent v cfg r n (Nat.iter (Z.to_nat (size cfg)) (addSession cfg) w)).
  { induction (Z.to_nat (size cfg)) as [|m IH]; [assumption|].
    apply spent_addSession. exact IH. }
  clear H. still.
Qed.

Lemma spent_init_settled w : spent v cfg r n w → spent v cfg r n (init_settled cfg w).
Proof. intros H. unfold init_settled. repeat case_match; still. Qed.

Lemma spent_acquire w : spent v cfg r n w → spent v cfg r n (acquire v cfg w).
Proof.
  intros H. unfold acquire. cbn zeta.
  destruct (popUsable v cfg _ _ _) as [ds [[r' rest]|]] eqn:E.
  - apply popUsable_spec in E as [_ [_ Hr]]. revert Hr. unfold_world. intros Hr.
    assert (Hne : r' ≠ r).
    { intros ->. destruct H as (_ & Hu & _). unfold usable in Hu. congruence. }
    still.
  - case_match; [still|]. apply spent_waitOrThrow. still.
Qed.

Lemma spent_release r' error w :
  spent v cfg r n w → spent v cfg r n (release v cfg r' error w).
Proof.
  intros H. unfold release. cbn zeta.
  destruct (usable v cfg (with_inUse (set_delete r' (inUse w)) w) r') eqn:Hu.
  - destruct error; cbn [orb negb].
    + apply spent_replenish. still.
    + assert (Hne : r' ≠ r).
      { intros ->. destruct H as (_ & Hu' & _). unfold usable in *.
        revert Hu. unfold_world. congruence. }
      apply spent_giveToWaiterOrPush; [exact Hne|].
      apply (match_variant (spent v cfg r n)); still.
  - rewrite orb_true_r. apply spent_replenish. still.
Qed.

Lemma spent_shutdown w : spent v cfg r n w → spent v cfg r n (shutdown w).
Proof. intros H. unfold shutdown. cbn zeta. case_match; still. Qed.

Lemma spent_addSession_created i k w :
  spent v cfg r n w → spent v cfg r n (addSession_created v cfg i k w).
Proof.
  intros H. unfold addSession_created.
  destruct (createSession v cfg k (now w)) as [es [e|s]]; cbn zeta.
  - repeat case_match; still.
  - case_match; [still|]. case_match; [still|].
    match goal with
    | |- context [giveToWaiterOrPush cfg ?r' ?w0] =>
        assert (Hg : spent v cfg r n (giveToWaiterOrPush cfg r' w0))
    end.
    { apply spent_giveToWaiterOrPush; [|still].
      destruct H as (Hlt & _). unfold_world. lia. }
    revert Hg. generalize (giveToWaiterOrPush cfg (length (heap (emit es w)))
      (with_heap (heap (emit es w) ++ [attachHandler cfg s]) (emit es w))).
    clear H. intros w1 H. case_match; still.
Qed.

Lemma spent_acquire_created i c k w :
  spent v cfg r n w → spent v cfg r n (acquire_created v cfg i c k w).
Proof.
  intros H. unfold acquire_created.
  destruct (createSession v cfg k (now w)) as [es [e|s]]; cbn zeta;
    repeat case_match; still.
Qed.

Lemma spent_acquire_closed i c w :
  spent v cfg r n w → spent v cfg r n (acquire_closed cfg i c w).
Proof. intros H. unfold acquire_closed, waitOrThrow. case_match; still. Qed.

Lemma spent_replaceSession old w :
  spent v cfg r n w → spent v cfg r n (replaceSession old w).
Proof. intros H. unfold replaceSession. case_match; still. Qed.

Lemma spent_replaceSession_created i old k w :
  spent v cfg r n w → spent v cfg r n (replaceSession_created v cfg i old k w).
Proof.
  intros H. unfold replaceSession_created.
  destruct (createSession v cfg k (now w)) as [es [e|s]]; cbn zeta;
    repeat case_match; still.
Qed.

Lemma spent_performHealthCheck w :
  spent v cfg r n w → spent v cfg r n (performHealthCheck v cfg w).
Proof.
  unfold performHealthCheck. cbn zeta.
  generalize (filter (λ r, usable v cfg w r = false) (available w)). intros l H.
  apply (match_variant (spent v cfg r n)); apply spent_replenish; revert w H;
    induction l as [|x l IH]; intros w H; try assumption;
    cbn [fold_left]; apply IH.
  - case_match; still.
  - apply spent_replaceSession. exact H.
Qed.

Lemma spent_healthTimer w : spent v cfg r n w → spent v cfg r n (healthTimer v cfg w).
Proof.
  intros H. unfold healthTimer. repeat case_match; try assumption.
  apply spent_performHealthCheck. exact H.
Qed.

Lemma spent_disconnect_only r' w :
  spent v cfg r n w →
  spent v cfg r n
    (with_heap
       (alter (λ s, with_browser (with_isConnected false (browser s)) s) r' (heap w)) w).
Proof.
  intros (Hlt & Hu & Hn). unfold spent, usable, uses in *. unfold_world.
  rewrite length_alter, useCountAt_alter_keep by (intros; reflexivity).
  split_and!; try assumption.
  rewrite list_lookup_alter. destruct (decide (r' = r)) as [->|]; [|exact Hu].
  destruct (heap w !! r); [reflexivity|exact Hu].
Qed.

Lemma spent_disconnected r' w :
  spent v cfg r n w → spent v cfg r n (disconnected cfg r' w).
Proof.
  intros H. unfold disconnected. destruct (heap w !! r'); [|assumption]. cbn zeta.
  pose proof (spent_disconnect_only r' w H) as H'. revert H'.
  generalize (with_heap
       (alter (λ s, with_browser (with_isConnected false (browser s)) s) r' (heap w)) w).
  clear H. intros w1 H. case_match; [apply spent_replenish|]; still.
Qed.

Lemma spent_fire i w : spent v cfg r n w → spent v cfg r n (fire cfg i w).
Proof.
  intros H. unfold fire. repeat case_match; try assumption;
    apply spent_addSession; still.
Qed.

Lemma spent_tick dt w :
  spent v cfg r n w → spent v cfg r n (with_now (now w + Z.of_nat dt) w).
Proof.
  intros (Hlt & Hu & Hn). unfold spent, usable, uses in *. unfold_world.
  split_and!; try assumption.
  destruct (heap w !! r) as [s|]; [|reflexivity].
  apply (isUsable_later v cfg (now w)); [lia|exact Hu].
Qed.

Lemma spent_step ev w : spent v cfg r n w → spent v cfg r n (step v cfg ev w).
Proof.
  intros H. destruct ev; cbn [step].
  - apply spent_init; assumption.
  - apply spent_init_settled; assumption.
  - apply spent_acquire; assumption.
  - case_match; [apply spent_release|]; assumption.
  - apply spent_shutdown; assumption.
  - repeat case_match; try assumption;
      [apply spent_acquire_created|apply spent_addSession_created
      |apply spent_replaceSession_created]; assumption.
  - repeat case_match; try assumption.
    apply spent_acquire_closed; assumption.
  - apply spent_fire; assumption.
  - apply spent_healthTimer; assumption.
  - apply spent_disconnected; assumption.
  - apply spent_tick; assumption.
Qed.

Lemma spent_run evs w : spent v cfg r n w → spent v cfg r n (run v cfg evs w).
Proof. apply run_invariant. intros; apply spent_step; assumption. Qed.

End Spent.

(** X22. An unusable session stays unusable and is never handed to a
    client again: once [isUsable] is false for a session of the pool
    (disconnected, used [maxUses] times, older than [maxAgeMs], or, in the
    enhanced build, idle for more than [maxIdleMs]), it is false after every
    continuation of the run, and no [acquire()] and no waiter receives the
    session from then on. *)
Theorem unusable_session_is_never_handed_out v cfg evs1 evs2 r :
  1 ≤ maxUses cfg →
  let w := run v cfg evs1 newPool in
  let w' := run v cfg evs2 w in
  (r < length (heap w))%nat → usable v cfg w r = false →
  usable v cfg w' r = false ∧ handouts r (trace w') = handouts r (trace w).
Proof.
  intros Hm. cbn zeta. intros Hlt Hu.
  destruct (spent_run v cfg r _ evs2 _ (conj Hlt (conj Hu eq_refl))) as (_ & Hu' & Hn).
  split; [exact Hu'|].
  rewrite <- run_app in *.
  rewrite (proj1 (tallied_run v cfg Hm (evs1 ++ evs2) r)).
  rewrite (proj1 (tallied_run v cfg Hm evs1 r)). exact Hn.
Qed.

Lemma unusable_session_is_never_handed_out_witness :
  1 ≤ maxUses singleUseConfig ∧
  (0 < length (heap (run Base singleUseConfig warmAcquire newPool)))%nat ∧
  usable Base singleUseConfig (run Base singleUseConfig warmAcquire newPool) 0 = false ∧
  usable Base singleUseConfig
    (run Base singleUseConfig [Tick 5; Acquire]
       (run Base singleUseConfig warmAcquire newPool)) 0 = false.
Proof.
  assert (Hm : 1 ≤ maxUses singleUseConfig) by (vm_compute; discriminate).
  assert (Hlt : (0 < length (heap (run Base singleUseConfig warmAcquire newPool)))%nat)
    by (vm_compute; lia).
  assert (Hu : usable Base singleUseConfig
                 (run Base singleUseConfig warmAcquire newPool) 0 = false)
    by (vm_compute; reflexivity).
  exact (conj Hm (conj Hlt (conj Hu
          (proj1 (unusable_session_is_never_handed_out Base singleUseConfig
                    warmAcquire [Tick 5; Acquire] 0 Hm Hlt Hu))))).
Defined.

(** *** The wait queue when it is disabled *)

Section NoQueue.

Variable v : Variant.
Variable cfg : PoolConfig.
Hypothesis disabled : enableWaitQueue cfg = false.

(** Close a goal [waitQueue w' = []] once [w'] is an explicit update of a
    world whose queue is empty. *)
Ltac idle :=
  repeat case_match; unfold_world; first [ assumption | congruence | reflexivity ].

Lemma idle_addSession w : waitQueue w = [] → waitQueue (addSession cfg w) = [].
Proof. intros H. unfold addSession. idle. Qed.

Lemma idle_replenish w : waitQueue w = [] → waitQueue (replenish cfg w) = [].
Proof. rewrite replenish_addSession. apply idle_addSession. Qed.

Lemma idle_giveToWaiterOrPush r w :
  waitQueue w = [] → waitQueue (giveToWaiterOrPush cfg r w) = [].
Proof. intros H. unfold giveToWaiterOrPush. rewrite disabled. exact H. Qed.

Lemma idle_waitOrThrow c w :
  waitQueue w = [] → waitQueue (waitOrThrow cfg c w) = [].
Proof. intros H. unfold waitOrThrow. rewrite disabled. exact H. Qed.

Lemma idle_init w : waitQueue w = [] → waitQueue (init cfg w) = [].
Proof.
  intros H. unfold init. cbn zeta. unfold_world.
  induction (Z.to_nat (size cfg)) as [|n IH]; [assumption|].
  apply idle_addSession. exact IH.
Qed.

Lemma idle_init_settled w : waitQueue w = [] → waitQueue (init_settled cfg w) = [].
Proof. intros H. unfold init_settled. idle. Qed.

Lemma idle_acquire w : waitQueue w = [] → waitQueue (acquire v cfg w) = [].
Proof.
  intros H. unfold acquire. cbn zeta.
  destruct (popUsable v cfg _ _ _) as [ds [[r rest]|]]; [exact H|].
  case_match; [exact H|]. apply idle_waitOrThrow. exact H.
Qed.

Lemma idle_release r error w :
  waitQueue w = [] → waitQueue (release v cfg r error w) = [].
Proof.
  intros H. unfold release. cbn zeta. case_match.
  - apply idle_replenish. exact H.
  - apply idle_giveToWaiterOrPush.
    apply (match_variant (λ w0, waitQueue w0 = [])); exact H.
Qed.

Lemma idle_shutdown w : waitQueue (shutdown w) = [].
Proof. unfold shutdown. cbn zeta. case_match; reflexivity. Qed.

Lemma idle_addSession_created i k w :
  waitQueue w = [] → waitQueue (addSession_created v cfg i k w) = [].
Proof.
  intros H. unfold addSession_created.
  destruct (createSession v cfg k (now w)) as [es [e|s]]; cbn zeta.
  - rewrite disabled. idle.
  - case_match; [exact H|]. case_match; [exact H|].
    match goal with
    | |- context [giveToWaiterOrPush cfg ?r ?w0] =>
        pose proof (idle_giveToWaiterOrPush r w0 H) as Hg;
        set (w1 := giveToWaiterOrPush cfg r w0) in *
    end.
    clearbody w1. idle.
Qed.

Lemma idle_acquire_created i c k w :
  waitQueue w = [] → waitQueue (acquire_created v cfg i c k w) = [].
Proof.
  intros H. unfold acquire_created.
  destruct (createSession v cfg k (now w)) as [es [e|s]]; cbn zeta; idle.
Qed.

Lemma idle_replaceSession_created i old k w :
  waitQueue w = [] → waitQueue (replaceSession_created v cfg i old k w) = [].
Proof.
  intros H. unfold replaceSession_created.
  destruct (createSession v cfg k (now w)) as [es [e|s]]; cbn zeta; idle.
Qed.

Lemma idle_replaceSession old w :
  waitQueue w = [] → waitQueue (replaceSession old w) = [].
Proof. intros H. unfold replaceSession. idle. Qed.

Lemma idle_performHealthCheck w :
  waitQueue w = [] → waitQueue (performHealthCheck v cfg w) = [].
Proof.
  unfold performHealthCheck. cbn zeta.
  generalize (filter (λ r, usable v cfg w r = false) (available w)). intros l H.
  apply (match_variant (λ w0, waitQueue w0 = [])); apply idle_replenish; revert w H;
    induction l as [|x l IH]; intros w H; try assumption;
    cbn [fold_left]; apply IH.
  - idle.
  - apply idle_replaceSession. exact H.
Qed.

Lemma idle_healthTimer w : waitQueue w = [] → waitQueue (healthTimer v cfg w) = [].
Proof.
  intros H. unfold healthTimer. repeat case_match; try assumption.
  apply idle_performHealthCheck. exact H.
Qed.

Lemma idle_disconnected r w : waitQueue w = [] → waitQueue (disconnected cfg r w) = [].
Proof.
  intros H. unfold disconnected. repeat case_match; try assumption.
  cbn zeta. apply idle_replenish. exact H.
Qed.

Lemma idle_fire i w : waitQueue w = [] → waitQueue (fire cfg i w) = [].
Proof.
  intros H. unfold fire. repeat case_match; try assumption;
    apply idle_addSession; exact H.
Qed.

Lemma idle_step ev w : waitQueue w = [] → waitQueue (step v cfg ev w) = [].
Proof.
  intros H. destruct ev; cbn [step].
  - apply idle_init; assumption.
  - apply idle_init_settled; assumption.
  - apply idle_acquire; assumption.
  - case_match; [apply idle_release|]; assumption.
  - apply idle_shutdown.
  - repeat case_match; try assumption;
      [apply idle_acquire_created|apply idle_addSession_created
      |apply idle_replaceSession_created]; assumption.
  - repeat case_match; try assumption.
    unfold acquire_closed. unfold_world. apply idle_waitOrThrow. assumption.
  - apply idle_fire; assumption.
  - apply idle_healthTimer; assumption.
  - apply idle_disconnected; assumption.
  - exact H.
Qed.

Lemma idle_run evs : waitQueue (run v cfg evs newPool) = [].
Proof.
  apply (run_invariant v cfg (λ w, waitQueue w = []));
    [intros; apply idle_step; assumption|reflexivity].
Qed.

End NoQueue.

(** X24. With [enableWaitQueue] false no caller is ever parked: in every
    state of every run the wait queue is empty and [stats().waiting] is 0,
    so every [acquire()] returns a session, suspends on its own on-demand
    creation, or throws. *)
Theorem disabled_wait_queue_stays_empty v cfg evs :
  enableWaitQueue cfg = false →
  let w := run v cfg evs newPool in
  waitQueue w = [] ∧ Stats.waiting (stats cfg w) = 0.
Proof.
  intros Hoff. cbn zeta. pose proof (idle_run v cfg Hoff evs) as Hq.
  unfold stats. cbn [Stats.waiting]. rewrite Hq. split; reflexivity.
Qed.

Lemma disabled_wait_queue_stays_empty_witness :
  enableWaitQueue noQueueConfig = false ∧
  waitQueue (run Base noQueueConfig (saturated ++ [Acquire]) newPool) = [].
Proof.
  assert (Hoff : enableWaitQueue noQueueConfig = false) by reflexivity.
  exact (conj Hoff
          (proj1 (disabled_wait_queue_stays_empty Base noQueueConfig
                    (saturated ++ [Acquire]) Hoff))).
Defined.

(** *** Who is handed which session *)

Lemma deliveries_app t1 t2 :
  deliveries (t1 ++ t2) = deliveries t1 ++ deliveries t2.
Proof. apply omap_app. Qed.

Lemma resolutions_app t1 t2 :
  resolutions (t1 ++ t2) = resolutions t1 ++ resolutions t2.
Proof. apply omap_app. Qed.

Lemma deliveries_teardown h r : deliveries (teardown h r) = [].
Proof. unfold teardown. destruct (h !! r); reflexivity. Qed.

Lemma resolutions_teardown h r : resolutions (teardown h r) = [].
Proof. unfold teardown. destruct (h !! r); reflexivity. Qed.

Lemma deliveries_teardowns h l : deliveries (flat_map (teardown h) l) = [].
Proof.
  induction l as [|r l IH]; simpl; [reflexivity|].
  rewrite deliveries_app, IH, deliveries_teardown. reflexivity.
Qed.

Lemma resolutions_teardowns h l : resolutions (flat_map (teardown h) l) = [].
Proof.
  induction l as [|r l IH]; simpl; [reflexivity|].
  rewrite resolutions_app, IH, resolutions_teardown. reflexivity.
Qed.

Lemma deliveries_rejections e q :
  deliveries (map (λ c, WaiterRejected c e) q) = [].
Proof. induction q as [|c q IH]; simpl; auto. Qed.

Lemma resolutions_rejections e q :
  resolutions (map (λ c, WaiterRejected c e) q) = [].
Proof. induction q as [|c q IH]; simpl; auto. Qed.

Lemma createSession_hands_nothing v cfg k t :
  deliveries (fst (createSession v cfg k t)) = [] ∧
  resolutions (fst (createSession v cfg k t)) = [].
Proof.
  unfold createSession. repeat case_match; simplify_eq; simpl; split; reflexivity.
Qed.

(** The record [createSession] builds. *)
Lemma createSession_record v cfg k t es s :
  createSession v cfg k t = (es, inr s) →
  useCount s = 0 ∧ createdAt s = t ∧ (v = Enhanced → lastUsedAt s = Some t).
Proof.
  unfold createSession. intros H.
  repeat case_match; simplify_eq; simpl; split_and!;
    first [reflexivity | intros; congruence].
Qed.

Lemma attachHandler_record cfg s :
  useCount (attachHandler cfg s) = useCount s ∧
  createdAt (attachHandler cfg s) = createdAt s ∧
  lastUsedAt (attachHandler cfg s) = lastUsedAt s.
Proof. unfold attachHandler. case_match; split_and!; reflexivity. Qed.

Lemma inUse_addSession cfg w : inUse (addSession cfg w) = inUse w.
Proof. unfold addSession. repeat case_match; reflexivity. Qed.

Lemma received_none w w' :
  deliveries (trace w') = deliveries (trace w) → received w w' = [].
Proof. intros H. unfold received. rewrite H, drop_all. reflexivity. Qed.

Lemma received_one w w' c r :
  deliveries (trace w') = deliveries (trace w) ++ [(c, r)] → received w w' = [r].
Proof. intros H. unfold received. rewrite H, drop_app_length. reflexivity. Qed.

(** Rewrite the hand-outs of an explicit trace. *)
Ltac projections :=
  unfold_world_all;
  rewrite ?deliveries_app, ?resolutions_app,
    ?deliveries_teardown, ?resolutions_teardown,
    ?deliveries_teardowns, ?resolutions_teardowns,
    ?deliveries_rejections, ?resolutions_rejections;
  cbn [deliveries resolutions omap list_omap option_bind mbind];
  repeat match goal with
  | H : deliveries ?es = [] |- context [deliveries ?es] => rewrite H
  | H : resolutions ?es = [] |- context [resolutions ?es] => rewrite H
  end;
  rewrite ?app_nil_r.

(** Close a goal [quiet w w'] once [w'] is an explicit update of [w]. *)
Ltac still :=
  unfold quiet; unfold_world_all;
  rewrite ?length_alter, ?length_app; cbn [length];
  split_and!;
  [ lia
  | projections; reflexivity
  | projections; reflexivity
  | let x := fresh "x" in let Hx := fresh "Hx" in
    intros x Hx; mem; subst; first [tauto | right; lia]
  | let x := fresh "x" in let Hx := fresh "Hx" in
    intros x Hx; mem; subst; tauto ].

Lemma quiet_refl w : quiet w w.
Proof. unfold quiet. split_and!; auto. Qed.

Lemma quiet_trans w1 w2 w3 : quiet w1 w2 → quiet w2 w3 → quiet w1 w3.
Proof.
  intros (Hl1 & Hd1 & Hr1 & Ha1 & Hu1) (Hl2 & Hd2 & Hr2 & Ha2 & Hu2).
  unfold quiet. split_and!; [lia|congruence|congruence| |auto].
  intros x Hx. destruct (Ha2 x Hx) as [Hin|Hnew]; [|right; lia].
  destruct (Ha1 x Hin); [tauto|right; lia].
Qed.

Section Hands.

Variable v : Variant.
Variable cfg : PoolConfig.

Lemma quiet_addSession w : quiet w (addSession cfg w).
Proof. unfold addSession. repeat case_match; still. Qed.

Lemma quiet_replenish w : quiet w (replenish cfg w).
Proof. rewrite replenish_addSession. apply quiet_addSession. Qed.

Lemma quiet_waitOrThrow c w : quiet w (waitOrThrow cfg c w).
Proof. unfold waitOrThrow. case_match; still. Qed.

Lemma quiet_init w : quiet w (init cfg w).
Proof.
  unfold init. cbn zeta.
  assert (Hi : quiet w (Nat.iter (Z.to_nat (size cfg)) (addSession cfg) w)).
  { induction (Z.to_nat (size cfg)) as [|n IH]; simpl; [apply quiet_refl|].
    eapply quiet_trans; [exact IH|apply quiet_addSession]. }
  revert Hi. generalize (Nat.iter (Z.to_nat (size cfg)) (addSession cfg) w).
  intros w1 Hi. exact Hi.
Qed.

Lemma quiet_init_settled w : quiet w (init_settled cfg w).
Proof. unfold init_settled. repeat case_match; still. Qed.

Lemma quiet_shutdown w : quiet w (shutdown w).
Proof. unfold shutdown. cbn zeta. case_match; still. Qed.

Lemma quiet_remove_stale l w :
  quiet w
    (fold_left
       (λ w r, if decide (r ∈ available w)
               then emit (teardown (heap w) r)
                      (with_available (remove_first r (available w)) w)
               else w) l w).
Proof.
  revert w. induction l as [|r l IH]; simpl; intros w; [apply quiet_refl|].
  eapply quiet_trans; [|apply IH]. case_match; still.
Qed.

Lemma quiet_replace_stale l w :
  quiet w (fold_left (λ w old, replaceSession old w) l w).
Proof.
  revert w. induction l as [|r l IH]; simpl; intros w; [apply quiet_refl|].
  eapply quiet_trans; [|apply IH]. unfold replaceSession. case_match; still.
Qed.

Lemma quiet_healthTimer w : quiet w (healthTimer v cfg w).
Proof.
  unfold healthTimer. repeat case_match; try apply quiet_refl.
  unfold performHealthCheck. cbn zeta.
  destruct v; (eapply quiet_trans; [|apply quiet_replenish]).
  - apply quiet_remove_stale.
  - apply quiet_replace_stale.
Qed.

Lemma quiet_disconnected r w : quiet w (disconnected cfg r w).
Proof.
  unfold disconnected. case_match; [|apply quiet_refl]. cbn zeta.
  case_match; [eapply quiet_trans; [|apply quiet_replenish]|]; still.
Qed.

Lemma quiet_fire i w : quiet w (fire cfg i w).
Proof.
  unfold fire. repeat case_match; try apply quiet_refl;
    (eapply quiet_trans; [|apply quiet_addSession]); still.
Qed.

Lemma quiet_replaceSession_created i old k w :
  quiet w (replaceSession_created v cfg i old k w).
Proof.
  unfold replaceSession_created.
  pose proof (createSession_hands_nothing v cfg k (now w)) as [Hs1 Hs2].
  destruct (createSession v cfg k (now w)) as [es [e|s]]; cbn zeta;
    simpl in Hs1, Hs2; repeat case_match; still.
Qed.

Lemma hands_quiet rel w w' :
  quiet w w' → (∀ x, x ∈ inUse w' → x ∉ rel) → hands v cfg rel w w'.
Proof.
  intros (Hl & Hd & Hr & Ha & Hu) Hrel. unfold hands. split_and!; [lia| |].
  - intros x Hx. destruct (Ha x Hx); tauto.
  - left. split_and!; [assumption..|]. intros x Hx. split; auto.
Qed.

Lemma hands_still w w' : quiet w w' → hands v cfg [] w w'.
Proof. intros H. apply hands_quiet; [exact H|]. intros x _. apply not_elem_of_nil. Qed.

(** The pop loop of [acquire()]: the sessions above the accepted one are
    unusable and are closed; the accepted one passed [isUsable]. *)
Lemma acquire_pops w :
  let w' := acquire v cfg w in
  ∃ kept ds,
    available w = kept ++ ds ∧
    Forall (λ d, usable v cfg w d = false) ds ∧
    closes (trace w')
      = closes (trace w) ++ closes (flat_map (teardown (heap w)) (rev ds)) ∧
    ((kept = [] ∧ available w' = [] ∧ inUse w' = inUse w ∧
      deliveries (trace w') = deliveries (trace w))
     ∨ ∃ r, kept = available w' ++ [r] ∧ usable v cfg w r = true ∧
            inUse w' = set_add r (inUse w) ∧
            deliveries (trace w') = deliveries (trace w) ++ [(calls w, r)]).
Proof.
  cbn zeta. unfold acquire. cbn zeta.
  destruct (popUsable v cfg _ _ _) as [ds hit] eqn:E.
  apply popUsable_spec in E as [Hds Hhit]. unfold_world_all.
  destruct hit as [[r rest]|].
  - destruct Hhit as [Hst Hr]. apply rev_eq_app_cons in Hst.
    exists (rev rest ++ [r]), (rev ds). rewrite rev_involutive.
    split_and!.
    + rewrite Hst, <- app_assoc. reflexivity.
    + rewrite Forall_forall in *. intros d Hd. apply Hds.
      apply elem_of_rev. exact Hd.
    + unfold_world. rewrite !closes_app. simpl. rewrite app_nil_r. reflexivity.
    + right. exists r. unfold_world. split_and!; try reflexivity; [exact Hr|].
      projections. reflexivity.
  - exists [], (available w). split_and!.
    + reflexivity.
    + rewrite Forall_forall in *. intros d Hd. apply Hds. rewrite <- Hhit.
      apply elem_of_rev. exact Hd.
    + rewrite Hhit. case_match; [|unfold waitOrThrow; case_match];
        unfold_world; rewrite !closes_app; simpl; rewrite ?app_nil_r; reflexivity.
    + left. case_match; [|unfold waitOrThrow; case_match]; unfold_world;
        split_and!; try reflexivity; projections; reflexivity.
Qed.

Lemma hands_acquire w : hands v cfg [] w (acquire v cfg w).
Proof.
  unfold acquire. cbn zeta.
  destruct (popUsable v cfg _ _ _) as [ds hit] eqn:E.
  apply popUsable_spec in E as [_ Hhit]. unfold_world_all.
  destruct hit as [[r rest]|].
  - destruct Hhit as [Hst Hr]. apply rev_eq_app_cons in Hst.
    destruct (heap w !! r) as [s|] eqn:Hs; [|discriminate].
    unfold hands. unfold_world. rewrite length_alter. split_and!; [lia| |].
    + intros x Hx. left. rewrite Hst, elem_of_app. tauto.
    + right. exists (calls w), r. unfold delivered. unfold_world. split_and!.
      * projections. reflexivity.
      * apply elem_of_set_add. tauto.
      * intros x Hx. mem; [left; split; [assumption|apply not_elem_of_nil]|tauto].
      * left. rewrite Hst, elem_of_app, elem_of_cons. tauto.
      * unfold examined. rewrite Hs. split.
        -- apply isUsable_within_limits. exact Hr.
        -- unfold uses, useCountAt. unfold_world.
           rewrite (lookup_alter_same _ _ _ _ Hs). reflexivity.
      * left. projections. reflexivity.
  - apply hands_still. case_match.
    + still.
    + eapply quiet_trans; [|apply quiet_waitOrThrow]. still.
Qed.

Lemma hands_release r error w : hands v cfg [r] w (release v cfg r error w).
Proof.
  unfold release. cbn zeta. case_match eqn:Hu.
  - apply hands_quiet.
    + eapply quiet_trans; [|apply quiet_replenish]. still.
    + rewrite replenish_addSession, inUse_addSession. unfold_world.
      intros x Hx Hr. mem. congruence.
  - apply orb_false_iff in Hu as [_ Hu]. apply negb_false_iff in Hu.
    unfold usable in Hu. unfold_world_all.
    destruct (heap w !! r) as [s|] eqn:Hs; [|discriminate].
    apply isUsable_within_limits in Hu.
    match goal with
    | |- context [giveToWaiterOrPush cfg r ?x] => set (w1 := x)
    end.
    assert (Hw1 : waitQueue w1 = waitQueue w ∧ available w1 = available w ∧
                  inUse w1 = set_delete r (inUse w) ∧
                  length (heap w1) = length (heap w) ∧ trace w1 = trace w ∧
                  ∃ s1, heap w1 !! r = Some s1 ∧ useCount s1 = useCount s).
    { subst w1. destruct v; unfold_world; rewrite ?length_alter;
        split_and!; try reflexivity.
      - exists s. auto.
      - eexists. split; [apply lookup_alter_same; exact Hs|reflexivity]. }
    clearbody w1. destruct Hw1 as (Hq1 & Ha1 & Hi1 & Hl1 & Ht1 & s1 & Hs1 & Hc1).
    assert (Hpush : hands v cfg [r] w (with_available (available w1 ++ [r]) w1)).
    { unfold hands. unfold_world. rewrite Ha1, Hi1, Hl1, Ht1.
      split_and!; [lia| |].
      - intros x Hx. mem; subst; [tauto|]. right. right. constructor.
      - left. split_and!; [reflexivity..|]. intros x Hx. mem.
        split; [assumption|]. rewrite list_elem_of_singleton. assumption. }
    unfold giveToWaiterOrPush.
    destruct (enableWaitQueue cfg) eqn:Hq; [|exact Hpush].
    destruct (waitQueue w1) as [|c q] eqn:Hw; [exact Hpush|]. clear Hpush.
    unfold hands. unfold_world. rewrite length_alter, Ha1, Hl1.
    split_and!; [lia|intros x Hx; tauto|].
    right. exists c, r. unfold delivered. unfold_world.
    rewrite Hi1, Ht1. split_and!.
    + projections. reflexivity.
    + apply elem_of_set_add. tauto.
    + intros x Hx. mem; [|tauto]. left. split; [assumption|].
      rewrite list_elem_of_singleton. assumption.
    + right. right. constructor.
    + unfold examined. rewrite Hs. split; [exact Hu|].
      unfold uses, useCountAt. unfold_world.
      rewrite (lookup_alter_same _ _ _ _ Hs1). simpl. lia.
    + right. split; [projections; reflexivity|]. exists q.
      split; [congruence|reflexivity].
Qed.

Lemma hands_addSession_created i k w :
  hands v cfg [] w (addSession_created v cfg i k w).
Proof.
  unfold addSession_created.
  pose proof (createSession_hands_nothing v cfg k (now w)) as [Hs1 Hs2].
  destruct (createSession v cfg k (now w)) as [es [e|s]] eqn:E; cbn zeta;
    simpl in Hs1, Hs2.
  - apply hands_still. repeat case_match; still.
  - apply createSession_record in E as (Hu & Hc & Hl).
    destruct (attachHandler_record cfg s) as (Hu' & Hc' & Hl').
    case_match; [apply hands_still; still|].
    case_match; [apply hands_still; still|].
    unfold giveToWaiterOrPush. unfold_world.
    destruct (enableWaitQueue cfg) eqn:Hq, (waitQueue w) as [|c q] eqn:Hw;
      try (apply hands_still; repeat case_match; still).
    assert (Hnew : (heap w ++ [attachHandler cfg s]) !! length (heap w)
                   = Some (attachHandler cfg s)).
    { rewrite lookup_app_r by lia.
      replace (length (heap w) - length (heap w))%nat with 0%nat by lia.
      reflexivity. }
    assert (Hnone : heap w !! length (heap w) = None)
      by (apply lookup_ge_None_2; lia).
    destruct (_ && _); unfold hands; unfold_world;
      rewrite ?length_alter, ?length_app; cbn [length];
      (split_and!; [lia|intros x Hx; mem; tauto|]);
      right; exists c, (length (heap w));
      unfold delivered, examined; unfold_world; rewrite Hnone; split_and!;
      try (projections; reflexivity);
      try (apply elem_of_set_add; tauto);
      try (intros x Hx; mem; [left; split; [assumption|apply not_elem_of_nil]|tauto]);
      try (right; left; lia);
      try reflexivity;
      try (eexists; split; [apply lookup_alter_same; exact Hnew|];
           simpl; split_and!; [lia|congruence|intros Hv; rewrite Hl'; auto]);
      try (right; split; [projections; reflexivity|]; exists q; tauto).
Qed.

Lemma hands_acquire_created i c k w :
  hands v cfg [] w (acquire_created v cfg i c k w).
Proof.
  unfold acquire_created.
  pose proof (createSession_hands_nothing v cfg k (now w)) as [Hs1 Hs2].
  destruct (createSession v cfg k (now w)) as [es [e|s]] eqn:E; cbn zeta;
    simpl in Hs1, Hs2.
  - apply hands_still. still.
  - apply createSession_record in E as (Hu & Hc & Hl).
    case_match; [apply hands_still; still|].
    assert (Hnew : (heap w ++ [s]) !! length (heap w) = Some s).
    { rewrite lookup_app_r by lia.
      replace (length (heap w) - length (heap w))%nat with 0%nat by lia.
      reflexivity. }
    unfold hands. unfold_world. rewrite ?length_alter, ?length_app. cbn [length].
    split_and!; [lia|intros x Hx; tauto|].
    right. exists c, (length (heap w)). unfold delivered, examined. unfold_world.
    rewrite (lookup_ge_None_2 (heap w) (length (heap w))) by lia.
    split_and!.
    + projections. reflexivity.
    + apply elem_of_set_add. tauto.
    + intros x Hx. mem; [left; split; [assumption|apply not_elem_of_nil]|tauto].
    + right. left. lia.
    + reflexivity.
    + eexists. split; [apply lookup_alter_same; exact Hnew|].
      simpl. split_and!; [lia|congruence|exact Hl].
    + left. projections. reflexivity.
Qed.

(** What one step hands out. *)
Lemma hands_step ev w :
  hands v cfg
    (match ev with
     | Release r _ => match heap w !! r with Some _ => [r] | None => [] end
     | _ => []
     end) w (step v cfg ev w).
Proof.
  destruct ev; simpl.
  - apply hands_still, quiet_init.
  - apply hands_still, quiet_init_settled.
  - apply hands_acquire.
  - case_match; [apply hands_release|apply hands_still, quiet_refl].
  - apply hands_still, quiet_shutdown.
  - repeat case_match; try apply hands_still, quiet_refl.
    + apply hands_acquire_created.
    + apply hands_addSession_created.
    + apply hands_still, quiet_replaceSession_created.
  - repeat case_match; try apply hands_still, quiet_refl.
    + apply hands_still. unfold acquire_closed, waitOrThrow. case_match; still.
    + apply hands_still. unfold addSession_closed. still.
  - apply hands_still, quiet_fire.
  - apply hands_still, quiet_healthTimer.
  - apply hands_still, quiet_disconnected.
  - apply hands_still. still.
Qed.

(** What a step hands out, it hands out as [delivered] says; it hands out
    one session at most. *)
Lemma delivered_step ev w c r :
  (c, r) ∈ drop (length (deliveries (trace w)))
                (deliveries (trace (step v cfg ev w))) →
  ∃ rel, delivered v cfg rel w (step v cfg ev w) c r.
Proof.
  intros H. destruct (hands_step ev w) as (_ & _ & [(Hd & _)|(c' & r' & Hd)]).
  - rewrite Hd, drop_all in H. apply elem_of_nil in H. contradiction.
  - pose proof Hd as (Hd' & _). rewrite Hd', drop_app_length in H.
    apply list_elem_of_singleton in H. injection H as -> ->. eexists. exact Hd.
Qed.


End Hands.

(** C2 (amended). Whenever a step of the pool hands a session [r] to a
    caller, by a returning [acquire()] or through the [resolve] of a queued
    caller (in [release] and in [addSession]), it is the only session the
    step hands out, [r] is in the in-use set afterwards and one of two
    things holds. Either [r] existed before the
    step: then [isUsable] held of its record as the step found it, before
    this hand-out was counted (connected, [useCount] below [maxUses], age
    within [maxAgeMs] and, in the Enhanced build only, idle time within
    [maxIdleMs]), and the step counted one more use. Or [r] was created for
    this hand-out: then it is handed out as created, counted once, and
    [isUsable] is not consulted. The pop loop of [acquire()] takes the
    sessions [ds] from the end of [available], all of them unusable, and
    closes them; it stops at the first usable session, which it returns, or
    empties [available] and returns none of its sessions. *)
Theorem handed_session_passed_isUsable v cfg w :
  (∀ ev c r,
     let w' := step v cfg ev w in
     (c, r) ∈ drop (length (deliveries (trace w))) (deliveries (trace w')) →
     deliveries (trace w') = deliveries (trace w) ++ [(c, r)] ∧
     r ∈ inUse w' ∧
     match heap w !! r with
     | Some s => within_limits v cfg (now w) s ∧ uses w' r = useCount s + 1
     | None =>
         r = length (heap w) ∧
         ∃ s, heap w' !! r = Some s ∧ useCount s = 1 ∧ createdAt s = now w ∧
              (v = Enhanced → lastUsedAt s = Some (now w))
     end) ∧
  (let w' := acquire v cfg w in
   ∃ kept ds,
     available w = kept ++ ds ∧
     Forall (λ d, usable v cfg w d = false) ds ∧
     closes (trace w')
       = closes (trace w) ++ closes (flat_map (teardown (heap w)) (rev ds)) ∧
     ((kept = [] ∧ available w' = [] ∧ inUse w' = inUse w ∧
       deliveries (trace w') = deliveries (trace w))
      ∨ ∃ r, kept = available w' ++ [r] ∧ usable v cfg w r = true ∧
             inUse w' = set_add r (inUse w) ∧
             deliveries (trace w') = deliveries (trace w) ++ [(calls w, r)])).
Proof.
  split; [|apply acquire_pops].
  intros ev c r w' H. subst w'.
  destruct (delivered_step v cfg ev w c r H) as (rel & Hd & Hin & _ & _ & He & _).
  split_and!; [exact Hd|exact Hin|exact He].
Qed.

Lemma handed_session_passed_isUsable_witness :
  (1%nat, 0%nat)
    ∈ drop (length (deliveries (trace (run Enhanced (defaultConfig 1)
                                         (saturated ++ [Acquire]) newPool))))
           (deliveries (trace (step Enhanced (defaultConfig 1) (Release 0 false)
                                 (run Enhanced (defaultConfig 1)
                                    (saturated ++ [Acquire]) newPool)))) ∧
  0%nat ∈ inUse (step Enhanced (defaultConfig 1) (Release 0 false)
                   (run Enhanced (defaultConfig 1)
                      (saturated ++ [Acquire]) newPool)).
Proof.
  assert (H : (1%nat, 0%nat)
     ∈ drop (length (deliveries (trace (run Enhanced (defaultConfig 1)
                                          (saturated ++ [Acquire]) newPool))))
            (deliveries (trace (step Enhanced (defaultConfig 1) (Release 0 false)
                                  (run Enhanced (defaultConfig 1)
                                     (saturated ++ [Acquire]) newPool)))))
    by (vm_compute; repeat constructor).
  exact (conj H
           (proj1 (proj2 (proj1 (handed_session_passed_isUsable Enhanced
                                   (defaultConfig 1)
                                   (run Enhanced (defaultConfig 1)
                                      (saturated ++ [Acquire]) newPool))
                                (Release 0 false) 1%nat 0%nat H)))).
Defined.

(** C2 fails as stated, in three ways. With [maxUses = 1] the session
    returned by [acquire()] has [useCount = 1 = maxUses], so [isUsable] is
    false for it at the time of return. The Base build returns a session
    that sat idle for longer than [maxIdleMs]; the Enhanced build closes it
    and creates another. A session created for the caller is returned
    although its connection reports disconnected, and so is a session
    created in the background and passed to a queued caller. *)
Lemma acquire_returns_unusable_session :
  (deliveries (trace (run Enhanced singleUseConfig warmAcquire newPool))
     = [(0%nat, 0%nat)] ∧
   useCount <$> heap (run Enhanced singleUseConfig warmAcquire newPool) !! 0%nat
     = Some 1 ∧
   maxUses singleUseConfig = 1 ∧
   usable Enhanced singleUseConfig
     (run Enhanced singleUseConfig warmAcquire newPool) 0 = false ∧
   usable Base singleUseConfig
     (run Base singleUseConfig warmAcquire newPool) 0 = false) ∧
  (deliveries (trace (run Base idleConfig idleAcquire newPool))
     = [(0%nat, 0%nat)] ∧
   closes (trace (run Base idleConfig idleAcquire newPool)) = [] ∧
   now (run Base idleConfig idleAcquire newPool) = 200 ∧
   maxIdleMs idleConfig = 100 ∧
   deliveries (trace (run Enhanced idleConfig idleAcquire newPool)) = [] ∧
   closes (trace (run Enhanced idleConfig idleAcquire newPool)) = [0%nat]) ∧
  (deliveries (trace (run Base (defaultConfig 1) stillbornOnDemand newPool))
     = [(0%nat, 0%nat)] ∧
   isConnected ∘ browser
     <$> heap (run Base (defaultConfig 1) stillbornOnDemand newPool) !! 0%nat
     = Some false ∧
   usable Base (defaultConfig 1)
     (run Base (defaultConfig 1) stillbornOnDemand newPool) 0 = false ∧
   deliveries (trace (run Enhanced (defaultConfig 1) stillbornOnDemand newPool))
     = [(0%nat, 0%nat)] ∧
   usable Enhanced (defaultConfig 1)
     (run Enhanced (defaultConfig 1) stillbornOnDemand newPool) 0 = false) ∧
  (resolutions (trace (run Base (defaultConfig 2) stillbornForWaiter newPool))
     = [(0%nat, 0%nat)] ∧
   usable Base (defaultConfig 2)
     (run Base (defaultConfig 2) stillbornForWaiter newPool) 0 = false ∧
   resolutions (trace (run Enhanced (defaultConfig 2) stillbornForWaiter newPool))
     = [(0%nat, 0%nat)] ∧
   usable Enhanced (defaultConfig 2)
     (run Enhanced (defaultConfig 2) stillbornForWaiter newPool) 0 = false).
Proof. vm_compute. repeat split. Qed.




(** *** The pool's sets and the clients' hands *)

Section Custody.

Variable v : Variant.
Variable cfg : PoolConfig.

(** One step, seen from both sides: [kept] is what stays in the clients'
    hands of what they held, [rel] what the step's event releases. *)
Lemma custody_hands held kept rel w w' :
  custody held w → ownership w' → hands v cfg rel w w' →
  NoDup kept →
  (∀ x, x ∈ kept → x ∈ held ∧ x ∉ rel) →
  (∀ x, x ∈ held → x ∉ rel → x ∈ kept) →
  custody (kept ++ received w w') w'.
Proof.
  intros (Ho & Hnd & Hheld & Hin) Ho' (Hl & Ha & Hd) Hk Hsub Hsup.
  assert (Hkept : ∀ x, x ∈ kept → (x < length (heap w'))%nat ∧ x ∉ available w').
  { intros x Hx. destruct (Hsub x Hx) as [Hxh Hxr].
    destruct (Hheld x Hxh) as [Hlt Hout]. split; [lia|].
    intros Hxa. destruct (Ha x Hxa) as [?|[?|?]]; [tauto|lia|tauto]. }
  destruct Hd as [(Hdel & _ & Hu)|(c & r & Hdel & Hr & Hu & Hfrom & _)].
  - rewrite (received_none _ _ Hdel), app_nil_r.
    split_and!; [exact Ho'|exact Hk|exact Hkept|].
    intros x Hx. destruct (Hu x Hx) as [Hxi Hxr]. auto.
  - rewrite (received_one _ _ _ _ Hdel).
    destruct Ho' as [Hnd' Hal'].
    assert (Hrf : (r < length (heap w'))%nat ∧ r ∉ available w').
    { split.
      - unfold allocated in Hal'. rewrite Forall_forall in Hal'. apply Hal'.
        unfold owned. rewrite elem_of_app. tauto.
      - unfold owned in Hnd'. apply NoDup_app in Hnd' as (_ & Hdisj & _).
        intros Hra. exact (Hdisj r Hra Hr). }
    split_and!; [split; assumption| | |].
    + apply NoDup_app. split_and!; [exact Hk| |apply NoDup_singleton].
      intros x Hx Hxr. apply list_elem_of_singleton in Hxr as ->.
      destruct (Hsub r Hx) as [Hrh Hrr]. destruct (Hheld r Hrh) as [Hlt Hout].
      destruct Hfrom as [?|[?|?]]; [tauto|lia|tauto].
    + intros x Hx. apply elem_of_app in Hx as [Hx|Hx]; [auto|].
      apply list_elem_of_singleton in Hx as ->. exact Hrf.
    + intros x Hx. rewrite elem_of_app, list_elem_of_singleton.
      destruct (Hu x Hx) as [[Hxi Hxr]|Hxr]; auto.
Qed.

Lemma custody_step ev w held :
  custody held w →
  (∀ r e, ev = Release r e → r ∈ held) →
  custody (match ev with
           | Release r _ => set_delete r held
           | _ => held
           end ++ received w (step v cfg ev w)) (step v cfg ev w).
Proof.
  intros Hc Hev. pose proof Hc as (Ho & Hnd & Hheld & Hin).
  assert (Ho' : ownership (step v cfg ev w)).
  { apply ownership_step_held; [exact Ho|].
    intros r e ->. apply Hheld. eapply Hev. reflexivity. }
  pose proof (hands_step v cfg ev w) as Hh.
  destruct ev;
    try (eapply custody_hands; [exact Hc|exact Ho'|exact Hh|exact Hnd| |];
         [intros x Hx; split; [exact Hx|apply not_elem_of_nil]|auto]).
  specialize (Hev r error eq_refl). destruct (Hheld r Hev) as [Hlt _].
  destruct (lookup_lt_is_Some_2 _ _ Hlt) as [s Hs]. rewrite Hs in Hh.
  eapply custody_hands; [exact Hc|exact Ho'|exact Hh| | |].
  - eapply sublist_NoDup; [exact Hnd|apply set_delete_sublist].
  - intros x Hx. apply elem_of_set_delete in Hx as [Hx Hne].
    split; [exact Hx|]. rewrite list_elem_of_singleton. exact Hne.
  - intros x Hx Hxr. apply elem_of_set_delete. split; [exact Hx|].
    intros ->. apply Hxr. constructor.
Qed.

Lemma custody_newPool : custody [] newPool.
Proof.
  split_and!; [split; constructor|constructor| |];
    intros r Hr; apply elem_of_nil in Hr; contradiction.
Qed.

(** In every run that follows the clients' protocol, what the clients hold
    and what the pool holds stay consistent. *)
Lemma custody_run evs held w :
  custody held w → client_protocol v cfg held evs w →
  custody (holding v cfg held evs w) (run v cfg evs w).
Proof.
  revert held w. induction evs as [|ev evs IH]; intros held w Hc Hp; [exact Hc|].
  pose proof (custody_step ev w held Hc) as Hs.
  destruct ev; cbn [client_protocol holding] in *;
    try (apply IH; [apply Hs; intros; discriminate|exact Hp]).
  destruct Hp as [Hr Hp]. apply IH; [|exact Hp].
  apply Hs. intros r' e' [= <- <-]. exact Hr.
Qed.


(** A run in which only sessions of the in-use set are released follows the
    clients' protocol. *)
Lemma follows_protocol_client evs held w :
  custody held w → follows_protocol v cfg evs w → client_protocol v cfg held evs w.
Proof.
  revert held w. induction evs as [|ev evs IH]; intros held w Hc Hp; [exact I|].
  destruct Hp as [Hev Hp]. pose proof Hc as (_ & _ & _ & Hin).
  pose proof (custody_step ev w held Hc) as Hs.
  destruct ev; cbn [client_protocol]; cbn zeta;
    try (apply IH; [apply Hs; intros; discriminate|exact Hp]).
  simpl in Hev. split; [apply Hin; exact Hev|].
  apply IH; [|exact Hp]. apply Hs. intros r' e' [= <- <-]. apply Hin. exact Hev.
Qed.

Lemma ownership_clients evs :
  client_protocol v cfg [] evs newPool → ownership (run v cfg evs newPool).
Proof. intros Hp. apply (custody_run evs [] newPool custody_newPool Hp). Qed.

End Custody.

(** X20. In every run in which clients release only sessions they hold (a
    session handed to a client and not released since, also after
    [shutdown()] or the disconnect listener took it out of the in-use set),
    no session is held twice: [available] and the in-use set have no
    duplicates and share no session, and every session they hold is an
    object this pool created. *)
Theorem no_session_held_twice v cfg evs :
  client_protocol v cfg [] evs newPool →
  let w := run v cfg evs newPool in
  NoDup (available w) ∧ NoDup (inUse w) ∧
  (∀ r, r ∈ available w → r ∉ inUse w) ∧
  (∀ r, r ∈ available w ++ inUse w → (r < length (heap w))%nat).
Proof.
  intros Hp. cbn zeta. destruct (ownership_clients v cfg evs Hp) as [Hnd Hal].
  unfold owned in Hnd. apply NoDup_app in Hnd as (Ha & Hd & Hi).
  split_and!; try assumption.
  unfold allocated, owned in Hal. rewrite Forall_forall in Hal. exact Hal.
Qed.

Lemma no_session_held_twice_witness :
  client_protocol Base (defaultConfig 1) [] releasedAfterShutdown newPool ∧
  NoDup (available (run Base (defaultConfig 1) releasedAfterShutdown newPool)).
Proof.
  assert (Hp : client_protocol Base (defaultConfig 1) [] releasedAfterShutdown newPool)
    by (vm_compute; repeat split; repeat constructor).
  exact (conj Hp (proj1 (no_session_held_twice Base (defaultConfig 1)
                           releasedAfterShutdown Hp))).
Defined.

(** *** Shutdown, twice *)




(** *** Closed sessions *)





Section Closed.

Variable v : Variant.
Variable cfg : PoolConfig.

(** Close a goal [closes (trace w') = closes (trace w)] once [w'] is an
    explicit update that closes nothing. *)
Ltac quiet :=
  repeat case_match; unfold_world; rewrite ?closes_app; simpl;
  rewrite ?app_nil_r; reflexivity.





















End Closed.


